(** * MADNESS: function tree (funcimpl.h) and reliable messaging (worldrmi.cc)

    A shallow embedding of the parts of the multiresolution function tree
    and of the RMI server that the specification talks about, with the
    properties of the specification stated and proved against it.

    Conventions of the embedding.
    - A C++ [double] is an exact rational ([Q]): the statements are about
      which formula and which comparison the code evaluates, not about
      rounding.  [Tensor<T>] elements are an abstract scalar type.
    - [MADNESS_EXCEPTION(msg, value)] is the [Exception] constructor of
      [result]; a function that can throw returns a [result].
    - Calls into code that is only declared in these sources (task
      submission, the transport, the tensor back end) are recorded as
      events or taken as parameters of the enclosing section. *)

From Stdlib Require Import ZArith QArith Qminmax Qpower Lia Bool List.
From Stdlib Require Import Sorting.Sorted Sorting.Permutation Lqa.
From stdpp Require Import base decidable countable gmap list strings sorting.

Local Open Scope Z_scope.

(** ** Fatal errors *)

Inductive result (A : Type) : Type :=
| Ok (a : A)
| Exception (msg : string) (value : Z).
Arguments Ok {A} a.
Arguments Exception {A} msg value.

#[global] Instance result_ret : MRet result := fun A a => Ok a.

#[global] Instance result_bind : MBind result := fun A B f r =>
  match r with
  | Ok a => f a
  | Exception msg v => Exception msg v
  end.

Definition is_ok {A : Type} (r : result A) : bool :=
  match r with Ok _ => true | Exception _ _ => false end.

(** ** Keys of the 2^NDIM-tree (mra/key.h, declared only) *)

Record Key : Type := mkKey { level : Z; translation : list Z }.

#[global] Instance Key_eq_dec : EqDecision Key.
Proof. solve_decision. Defined.

#[global] Instance Key_countable : Countable Key.
Proof.
  refine (inj_countable' (fun k => (level k, translation k))
                         (fun p => mkKey (fst p) (snd p)) _).
  intros []; reflexivity.
Defined.

(** ** Thresholds: [FunctionImpl::truncate_tol] and [FunctionImpl::truncate] *)

Module Threshold.

(** [std::min(a, b)] returns [b] when [b < a] and [a] otherwise. *)
Definition std_min (a b : Q) : Q :=
  if Qlt_le_dec b a then b else a.

(** [pow(x, double(n))] for an integral exponent. *)
Definition pow (x : Q) (n : Z) : Q := Qpower x n.

(** The members of [FunctionImpl] read by the threshold code, and
    [FunctionDefaults<NDIM>::get_cell_min_width()]. *)
Record Settings : Type := mkSettings {
  thresh : Q;
  truncate_mode : Z;
  cell_min_width : Q
}.

Definition truncate_tol (f : Settings) (tol : Q) (key : Key) : result Q :=
  if truncate_mode f =? 0 then
    Ok tol
  else if truncate_mode f =? 1 then
    let L := cell_min_width f in
    Ok (tol * std_min 1 (pow (1#2) (level key) * L))%Q
  else if truncate_mode f =? 2 then
    let L := cell_min_width f in
    Ok (tol * std_min 1 (pow (1#4) (level key) * L * L))%Q
  else
    Exception "truncate_mode invalid" (truncate_mode f).

(** Equality of results up to the value of the rational. *)
Definition result_Qeq (r1 r2 : result Q) : Prop :=
  match r1, r2 with
  | Ok a, Ok b => (a == b)%Q
  | Exception m1 v1, Exception m2 v2 => m1 = m2 /\ v1 = v2
  | _, _ => False
  end.

(** What [truncate] asks of the rest of the system: the recursive
    [truncate_spawn] (declared only) and the global fence. *)
Inductive call : Type :=
| TruncateSpawn (key : Key) (tol : Q)
| GopFence.

Section Truncate.
Variable rank : Z.                (* world.rank() *)
Variable owner : Key -> Z.        (* coeffs.owner(key) *)
Variable key0 : Key.              (* cdata.key0 *)

(** [truncate] returns the object state it leaves behind together with
    the calls it made.  The assignment [tol = thresh] is to the
    by-value parameter. *)
Definition truncate (f : Settings) (tol : Q) (fence : bool)
  : Settings * list call :=
  let tol := if Qle_bool tol 0 then thresh f else tol in
  let spawned :=
    if rank =? owner key0 then [TruncateSpawn key0 tol] else [] in
  let fenced := if fence then [GopFence] else [] in
  (f, spawned ++ fenced).
End Truncate.

End Threshold.

(** ** Dense tensors (tensor/tensor.h, consumed as a black box)

    Modelled from the spec: the tensor back end is not among the sources;
    it "provides dense N-dimensional tensors with element-wise gaxpy and
    scale, Frobenius norm and slice assignment".  A tensor is its shape
    and its element at each multi-index; the default-constructed
    [Tensor<T>()] has no dimension and size 0.  Tensors are values here:
    [copy] is the identity, and the places where the code takes a deep
    copy before mutating are marked where they occur. *)

Class Scalar (T : Type) : Type := {
  zero : T;
  add : T -> T -> T;
  mul : T -> T -> T
}.

#[global] Instance Z_scalar : Scalar Z := {| zero := 0; add := Z.add; mul := Z.mul |}.

Module Tensors.
Section WithScalar.
Context {T : Type} `{Scalar T}.

Record Tensor : Type := mkTensor { dim : list Z; elem : list Z -> T }.

Definition empty_tensor : Tensor := mkTensor [] (fun _ => zero).

Definition size (t : Tensor) : Z :=
  match dim t with
  | [] => 0
  | d => fold_right Z.mul 1 d
  end.

(** [Slice(start, end)]: both ends included, step 1. *)
Record Slice : Type := mkSlice { start : Z; finish : Z }.

Definition in_slice (s : Slice) (x : Z) : bool :=
  (start s <=? x) && (x <=? finish s).

Fixpoint in_slices (sl : list Slice) (idx : list Z) : bool :=
  match sl, idx with
  | [], [] => true
  | s :: sl', x :: idx' => in_slice s x && in_slices sl' idx'
  | _, _ => false
  end.

Definition extent (s : Slice) : Z := finish s - start s + 1.

(** The index in the whole tensor of the element [idx] of the view [t(sl)]. *)
Definition view_index (sl : list Slice) (idx : list Z) : list Z :=
  zip_with Z.add (map start sl) idx.

(** The index inside the view [t(sl)] of the element [idx] of [t]. *)
Definition local_index (sl : list Slice) (idx : list Z) : list Z :=
  zip_with Z.sub idx (map start sl).

(** [copy(t(sl))] *)
Definition copy_slice (t : Tensor) (sl : list Slice) : Tensor :=
  mkTensor (map extent sl) (fun idx => elem t (view_index sl idx)).

(** [t(sl) = x] *)
Definition fill_slice (t : Tensor) (sl : list Slice) (x : T) : Tensor :=
  mkTensor (dim t) (fun idx => if in_slices sl idx then x else elem t idx).

(** [t(sl) = src] *)
Definition assign_slice (t : Tensor) (sl : list Slice) (src : Tensor) : Tensor :=
  mkTensor (dim t)
    (fun idx => if in_slices sl idx then elem src (local_index sl idx)
                else elem t idx).

(** [t.gaxpy(alpha, o, beta)]: [t = alpha*t + beta*o], element by element. *)
Definition gaxpy (alpha : T) (t o : Tensor) (beta : T) : Tensor :=
  mkTensor (dim t) (fun idx => add (mul alpha (elem t idx)) (mul beta (elem o idx))).

(** [t.scale(alpha)] *)
Definition scale (t : Tensor) (alpha : T) : Tensor :=
  mkTensor (dim t) (fun idx => mul (elem t idx) alpha).

(** [t * beta] *)
Definition times (t : Tensor) (beta : T) : Tensor :=
  mkTensor (dim t) (fun idx => mul (elem t idx) beta).

(** [t += o] *)
Definition plus_assign (t o : Tensor) : Tensor :=
  mkTensor (dim t) (fun idx => add (elem t idx) (elem o idx)).

(** Element-wise agreement of two tensors of the same shape. *)
Definition same_tensor (a b : Tensor) : Prop :=
  dim a = dim b /\ forall idx, elem a idx = elem b idx.

(** Every element of the sub-block [sl] is zero. *)
Definition zero_on (sl : list Slice) (t : Tensor) : Prop :=
  forall idx, in_slices sl idx = true -> elem t idx = zero.

End WithScalar.
Arguments Tensor T : clear implicits.
End Tensors.

(** ** The function tree: [FunctionNode], [FunctionCommonData], [FunctionImpl] *)

Module Mra.
Import Tensors.

Section WithScalar.
Context {T : Type} `{Scalar T}.

(** *** [FunctionNode] *)

Record FunctionNode : Type := mkNode {
  _coeffs : Tensor T;
  _norm_tree : Q;
  _has_children : bool
}.

(** The "unset" value of [_norm_tree], [1e300]. *)
Definition norm_tree_unset : Q := inject_Z (10 ^ 300).

(** [FunctionNode()] *)
Definition node_default : FunctionNode :=
  mkNode empty_tensor norm_tree_unset false.

(** [FunctionNode(coeff, has_children)] *)
Definition node_of (coeff : Tensor T) (has_children : bool) : FunctionNode :=
  mkNode coeff norm_tree_unset has_children.

Definition has_coeff (n : FunctionNode) : bool := 0 <? size (_coeffs n).
Definition has_children (n : FunctionNode) : bool := _has_children n.
Definition is_leaf (n : FunctionNode) : bool := negb (_has_children n).
Definition coeff (n : FunctionNode) : Tensor T := _coeffs n.

Definition set_coeff_of (n : FunctionNode) (c : Tensor T) : FunctionNode :=
  mkNode c (_norm_tree n) (_has_children n).

Definition set_has_children (n : FunctionNode) (flag : bool) : FunctionNode :=
  mkNode (_coeffs n) (_norm_tree n) flag.

Definition clear_coeff (n : FunctionNode) : FunctionNode :=
  set_coeff_of n empty_tensor.

(** [FunctionNode::gaxpy_inplace(alpha, other, beta)], as the new value of
    [*this]. *)
Definition gaxpy_inplace (this : FunctionNode) (alpha : T)
    (other : FunctionNode) (beta : T) : FunctionNode :=
  let this :=
    if has_children other then set_has_children this true else this in
  if has_coeff this then
    if has_coeff other then
      set_coeff_of this (gaxpy alpha (coeff this) (coeff other) beta)
    else
      set_coeff_of this (scale (coeff this) alpha)
  else if has_coeff other then
    set_coeff_of this (times (coeff other) beta)
  else
    this.

(** Tasks a node method hands to the container. *)
Inductive node_task : Type :=
| SetHasChildrenRecursive (key : Key).

(** [FunctionNode::accumulate(t, c, key)]: the new value of [*this] and the
    task sent to the parent, if any.  [parent] is [Key::parent()]. *)
Definition accumulate (parent : Key -> Key) (this : FunctionNode)
    (t : Tensor T) (key : Key) : FunctionNode * list node_task :=
  if has_coeff this then
    (set_coeff_of this (plus_assign (coeff this) t), [])
  else
    (set_coeff_of this t,
     if negb (_has_children this) && (level key >? 0)
     then [SetHasChildrenRecursive (parent key)] else []).

(** *** [FunctionCommonData] *)

Record CommonData : Type := mkCommon {
  cd_k : Z;            (* order of the wavelet *)
  cd_ndim : nat        (* NDIM *)
}.

(** [s[i] = Slice(i*k, (i+1)*k-1)] *)
Definition cd_s (cdata : CommonData) (i : Z) : Slice :=
  mkSlice (i * cd_k cdata) ((i + 1) * cd_k cdata - 1).

(** [s0[i] = s[0]] for every dimension. *)
Definition cd_s0 (cdata : CommonData) : list Slice :=
  repeat (cd_s cdata 0) (cd_ndim cdata).

(** [v2k[i] = 2*k] for every dimension. *)
Definition cd_v2k (cdata : CommonData) : list Z :=
  repeat (2 * cd_k cdata) (cd_ndim cdata).

(** [key0 = Key<NDIM>(0, Vector<Translation,NDIM>(0))] *)
Definition cd_key0 (cdata : CommonData) : Key :=
  mkKey 0 (repeat 0 (cd_ndim cdata)).

(** *** Children of a key

    Modelled from the spec: [KeyChildIterator] (mra/key.h) is not among the
    sources; "a key has 2^d children; its parent drops the low bit of each
    coordinate and decrements n".  The children are enumerated with the
    first coordinate running fastest. *)
Fixpoint bit_patterns (n : nat) : list (list Z) :=
  match n with
  | O => [[]]
  | S n' => flat_map (fun p => [0 :: p; 1 :: p]) (bit_patterns n')
  end.

Definition is_bits (bits : list Z) : Prop :=
  Forall (fun b => b = 0 \/ b = 1) bits.

Definition child_of (key : Key) (bits : list Z) : Key :=
  mkKey (level key + 1)
        (zip_with (fun l b => 2 * l + b) (translation key) bits).

Definition children (cdata : CommonData) (key : Key) : list Key :=
  map (child_of key) (bit_patterns (cd_ndim cdata)).

(** [child_patch(child)]: [s[i] = cdata.s[l[i] & 1]]. *)
Definition child_patch (cdata : CommonData) (child : Key) : list Slice :=
  map (fun l => cd_s cdata (Z.land l 1)) (translation child).

(** *** Compress *)

Section Compress.
Variable cdata : CommonData.
(** [filter(s) = fast_transform(s, cdata.hgT, r, w)], the two-scale
    transform of the tensor back end; it returns a new tensor. *)
Variable filter : Tensor T -> Tensor T.
(** Contents of a tensor constructed without initialisation,
    [tensorT d(cdata.v2k, false)]. *)
Variable uninitialized : list Z -> T.

Local Abbreviation coeffsT := (gmap Key FunctionNode).

(** The loop of [compress_op] that copies the child scaling coefficients
    into a contiguous block. *)
Definition assemble (key : Key) (v : list (Tensor T)) : Tensor T :=
  fold_left
    (fun d kv => assign_slice d (child_patch cdata (fst kv)) (snd kv))
    (combine (children cdata key) v)
    (mkTensor (cd_v2k cdata) uninitialized).

(** [compress_op(key, v, nonstandard)]: the tensor returned to the parent
    and the container after [coeffs.replace].  [s] is a deep copy taken
    before [d(cdata.s0) = 0.0]. *)
Definition compress_op (key : Key) (v : list (Tensor T)) (nonstandard : bool)
    (coeffs : coeffsT) : Tensor T * coeffsT :=
  let d := assemble key v in
  let d := filter d in
  let s := copy_slice d (cd_s0 cdata) in
  let d := if (level key >? 0) && negb nonstandard
           then fill_slice d (cd_s0 cdata) zero else d in
  (s, <[key := node_of d true]> coeffs).

(** One iteration of the loop of [compress_spawn] over the children of a
    key: [rec] compresses the subtree of the child; the blocks returned so
    far and the container are threaded through. *)
Definition spawn_child
    (rec : Key -> coeffsT -> option (result (Tensor T * coeffsT)))
    (acc : option (result (list (Tensor T) * coeffsT))) (child : Key)
    : option (result (list (Tensor T) * coeffsT)) :=
  match acc with
  | Some (Ok (v, c)) =>
    match rec child c with
    | Some (Ok (s, c')) => Some (Ok (v ++ [s], c'))
    | Some (Exception m x) => Some (Exception m x)
    | None => None
    end
  | other => other
  end.

(** Modelled from the spec: [compress_spawn] is only declared in these
    sources.  "Compress performs a post-order recursion from the root.  For
    every interior key, future-spawn compression on each of its 2^d
    children; when all return the child scaling blocks, [compress_op].  If
    keepleaves is false, delete leaf scaling coefficients after assembly."
    The recursion on the tree is bounded by [fuel]; [None] is "out of
    fuel".  A key that is not in the container is a failed assertion. *)
Fixpoint compress_spawn (fuel : nat) (key : Key) (nonstandard keepleaves : bool)
    (coeffs : coeffsT) : option (result (Tensor T * coeffsT)) :=
  match fuel with
  | O => None
  | S fuel' =>
    match coeffs !! key with
    | None => Some (Exception "MADNESS_ASSERT: coeffs.probe(key)" 0)
    | Some node =>
      if has_children node then
        match fold_left
                (spawn_child
                   (fun k c => compress_spawn fuel' k nonstandard keepleaves c))
                (children cdata key) (Some (Ok ([], coeffs))) with
        | Some (Ok (v, c)) => Some (Ok (compress_op key v nonstandard c))
        | Some (Exception m x) => Some (Exception m x)
        | None => None
        end
      else
        Some (Ok (coeff node,
                  if keepleaves then coeffs
                  else <[key := clear_coeff node]> coeffs))
    end
  end.

(** No interior node below the root carries a nonzero scaling block. *)
Definition interior_s0_zero (c : coeffsT) : Prop :=
  forall key node,
    c !! key = Some node -> 0 < level key ->
    has_children node = true -> has_coeff node = true ->
    zero_on (cd_s0 cdata) (coeff node).

(** The subtree of [key] is in the container down to its leaves, which are
    at most [n] levels below [key]. *)
Fixpoint complete (n : nat) (key : Key) (c : coeffsT) : Prop :=
  match c !! key with
  | None => False
  | Some node =>
    if has_children node then
      match n with
      | O => False
      | S n' => Forall (fun k => complete n' k c) (children cdata key)
      end
    else True
  end.

(** Two containers hold the same keys with the same [has_children] flags. *)
Definition same_shape (c c' : coeffsT) : Prop :=
  forall key, has_children <$> (c !! key) = has_children <$> (c' !! key).

(** What [compress] leaves at a node it has visited: at an interior node
    the node that [compress_op] stores at this key for some blocks of the
    children, its [s0] sub-block zero below the root unless in non-standard
    mode; at a leaf no coefficients, unless the leaves are kept. *)
Definition compressed_node (ns keepleaves : bool) (key : Key)
    (node : FunctionNode) : Prop :=
  if has_children node then
    (exists v c0, snd (compress_op key v ns c0) !! key = Some node)
    /\ (0 < level key -> ns = false -> zero_on (cd_s0 cdata) (coeff node))
  else keepleaves = false -> has_coeff node = false.

(** Every node of the subtree of [key], which is in the container down to
    its leaves at most [n] levels below [key], satisfies [P]. *)
Fixpoint subtree_all (P : Key -> FunctionNode -> Prop) (n : nat) (key : Key)
    (c : coeffsT) : Prop :=
  match c !! key with
  | None => False
  | Some node =>
    P key node
    /\ (if has_children node then
          match n with
          | O => False
          | S n' => Forall (fun k => subtree_all P n' k c) (children cdata key)
          end
        else True)
  end.

(** The state of [FunctionImpl] that [compress] and [standard] touch. *)
Record TreeState : Type := mkTree {
  nonstandard : bool;
  compressed : bool;
  coeffs : coeffsT
}.

(** [compress(nonstandard, keepleaves, fence)] on the process that owns the
    root; the fence does not change the local state. *)
Definition compress (fuel : nat) (ns keepleaves : bool) (f : TreeState)
    : option (result TreeState) :=
  match compress_spawn fuel (cd_key0 cdata) ns keepleaves (coeffs f) with
  | Some (Ok (_, c)) => Some (Ok (mkTree ns true c))
  | Some (Exception m x) => Some (Exception m x)
  | None => None
  end.

(** *** Standard *)

(** The body of the loop of [standard] for one entry of the container. *)
Definition standard_node (key : Key) (node : FunctionNode) : FunctionNode :=
  if (level key >? 0) && has_coeff node then
    if has_children node then
      set_coeff_of node (fill_slice (coeff node) (cd_s0 cdata) zero)
    else
      clear_coeff node
  else node.

(** [standard(fence)]: the loop over every entry of the local container. *)
Definition standard (c : coeffsT) : coeffsT :=
  map_imap (fun key node => Some (standard_node key node)) c.

End Compress.
End WithScalar.
Arguments FunctionNode T : clear implicits.
Arguments TreeState T : clear implicits.

(** [dcT], the container of the nodes. *)
Abbreviation coeffsT T := (gmap Key (FunctionNode T)).

(** A one-dimensional tree of order 1 over the integers, used to evaluate
    the definitions: a root with two leaves. *)
Definition ex_cdata : CommonData := mkCommon 1 1.
Definition ex_filter (d : Tensor Z) : Tensor Z :=
  mkTensor (dim d)
    (fun idx => match idx with
                | [0] => elem d [0] + elem d [1]
                | _ => elem d [0] - elem d [1]
                end).
Definition ex_leaf (x : Z) : FunctionNode Z :=
  node_of (mkTensor [1] (fun _ => x)) false.
Definition ex_tree : TreeState Z :=
  mkTree false false
    (<[mkKey 0 [0] := node_of empty_tensor true]>
       (<[mkKey 1 [0] := ex_leaf 3]> (<[mkKey 1 [1] := ex_leaf 5]> ∅))).
Definition ex_compress (ns keepleaves : bool) : option (result (TreeState Z)) :=
  compress ex_cdata ex_filter (fun _ => 0) 3 ns keepleaves ex_tree.

(** A root that carries coefficients and has children. *)
Definition ex_root_only : coeffsT Z :=
  {[ mkKey 0 [0] := node_of (mkTensor [2] (fun _ => 7)) true ]}.
End Mra.

(** ** Integral-operator application: [do_apply] and [do_apply_kernel] *)

Module Apply.
Import Tensors Mra Threshold.

Section WithOperator.
Context {T : Type} `{Scalar T}.

(** The operator type [opT]: its displacement list per level, its norm at a
    level and displacement, and its action on a block of coefficients. *)
Record Operator : Type := mkOperator {
  get_disp : Z -> list Key;
  norm : Z -> Key -> Q;
  apply : Key -> Key -> Tensor T -> Q -> Tensor T
}.

Record do_op_args : Type := mkArgs {
  a_key : Key; a_d : Key; a_dest : Key;
  a_tol : Q; a_fac : Q; a_cnorm : Q
}.

(** The message [coeffs.send(dest, &nodeT::accumulate, result, coeffs, dest)]. *)
Inductive accumulate_msg : Type :=
| SendAccumulate (dest : Key) (result : Tensor T).

Variable op : Operator.
Variable normf : Tensor T -> Q.          (* Tensor::normf(), Frobenius norm *)
Variable neighbor : Key -> Key -> Key.   (* neighbor(key, disp), declared only *)
Variable is_valid : Key -> bool.         (* Key::is_valid() *)
Variable distsq : Key -> Z.              (* Key::distsq() *)
Variable parent : Key -> Key.            (* Key::parent() *)
Variable bc : nat -> nat -> Z.           (* boundary conditions, bc(i, 0) *)
Variable NDIM : nat.
Variable f : Settings.

(** [do_apply_kernel(op, c, args)]: the messages it sends. *)
Definition do_apply_kernel (c : Tensor T) (args : do_op_args)
    : list accumulate_msg :=
  let result :=
    apply op (a_key args) (a_d args) c
          (a_tol args / a_fac args / a_cnorm args)%Q in
  if Qlt_le_dec ((3#10) * a_tol args / a_fac args)%Q (normf result)
  then [SendAccumulate (a_dest args) result]
  else [].

(** Delivery of the message by the container: [send] runs the method on the
    entry of [dest], constructing the entry first if it is missing. *)
Definition deliver (m : accumulate_msg) (c : coeffsT T)
    : coeffsT T * list node_task :=
  match m with
  | SendAccumulate dest result =>
    let node := default node_default (c !! dest) in
    let '(node', tasks) := accumulate parent node result dest in
    (<[dest := node']> c, tasks)
  end.

(** The container after the messages of a kernel task are delivered, and
    the tasks that the deliveries hand to the container. *)
Definition deliver_all (msgs : list accumulate_msg) (c : coeffsT T)
    : coeffsT T * list node_task :=
  fold_left
    (fun st m => let '(c', tasks) := deliver m (fst st) in (c', snd st ++ tasks))
    msgs (c, []).

(** [d.translation()[i]] *)
Definition component (d : Key) (i : nat) : Z := nth i (translation d) 0.

(** [const long lmax = 1L << (key.level()-1)].  The shift is undefined in
    C++ for a key of level 0; the statements below take [1 <= level]. *)
Definition lmax_of (key : Key) : Z := Z.shiftl 1 (level key - 1).

(** The loop over the axes that sets [doit]: [n] axes remain from axis [i].
    The [break] ends the loop at the first axis with [bc(i,0) == 1]. *)
Fixpoint periodic_loop (n : nat) (i : nat) (d : Key) (lmax : Z) (doit : bool)
    : bool :=
  match n with
  | O => doit
  | S n' =>
    if bc i 0 =? 1 then
      if (component d i >? lmax) || (component d i <=? - lmax)
      then false else doit
    else periodic_loop n' (S i) d lmax doit
  end.

Definition periodic_doit (d : Key) (lmax : Z) : bool :=
  periodic_loop NDIM 0 d lmax true.

(** [cnorm*opnorm > tol/fac] *)
Definition screened_in (cnorm opnorm tol fac : Q) : bool :=
  if Qlt_le_dec (tol / fac)%Q (cnorm * opnorm)%Q then true else false.

(** The loop of [do_apply] over the displacements: the kernel tasks it
    submitted, in order, and how it ended. *)
Fixpoint do_apply_loop (key : Key) (fac cnorm : Q) (lmax : Z)
    (disp : list Key) : list do_op_args * result unit :=
  match disp with
  | [] => ([], Ok tt)
  | d :: rest =>
    let dest := neighbor key d in
    if negb (periodic_doit d lmax) then ([], Ok tt)            (* break *)
    else if is_valid dest then
      let opnorm := norm op (level key) d in
      match truncate_tol f (thresh f) key with
      | Exception m x => ([], Exception m x)
      | Ok tol =>
        if screened_in cnorm opnorm tol fac then
          let '(tasks, r) := do_apply_loop key fac cnorm lmax rest in
          (mkArgs key d dest tol fac cnorm :: tasks, r)
        else if distsq d >=? 1 then ([], Ok tt)                (* break *)
        else do_apply_loop key fac cnorm lmax rest
      end
    else do_apply_loop key fac cnorm lmax rest
  end.

Definition do_apply (key : Key) (c : Tensor T)
    : list do_op_args * result unit :=
  let fac := 3%Q in
  let cnorm := normf c in
  let lmax := lmax_of key in
  do_apply_loop key fac cnorm lmax (get_disp op (level key)).

(** A displacement lets the loop go on to the next one. *)
Definition continues (key : Key) (fac cnorm : Q) (lmax : Z) (tol : Q)
    (d : Key) : bool :=
  periodic_doit d lmax &&
  (negb (is_valid (neighbor key d))
   || screened_in cnorm (norm op (level key) d) tol fac
   || negb (distsq d >=? 1)).

(** The index of the first axis with a periodic boundary condition. *)
Fixpoint first_periodic (n : nat) (i : nat) : option nat :=
  match n with
  | O => None
  | S n' => if bc i 0 =? 1 then Some i else first_periodic n' (S i)
  end.

End WithOperator.
Arguments Operator T : clear implicits.
Arguments accumulate_msg T : clear implicits.

(** A one-dimensional instance over the integers, periodic on its axis,
    used to evaluate the definitions. *)
Definition ex_op (disp : list Key) (nrm : Key -> Q) : Operator Z :=
  mkOperator (fun _ => disp) (fun _ d => nrm d) (fun _ _ c _ => c).
Definition ex_normf (t : Tensor Z) : Q := inject_Z (Z.abs (elem t [0])).
Definition ex_neighbor (key d : Key) : Key :=
  mkKey (level key)
        (zip_with (fun l x => (l + x) mod 2 ^ level key)
                  (translation key) (translation d)).
Definition ex_is_valid (k : Key) : bool := true.
Definition ex_distsq (d : Key) : Z :=
  fold_right (fun x acc => x * x + acc) 0 (translation d).
Definition ex_parent (k : Key) : Key :=
  mkKey (level k - 1) (map (fun l => l / 2) (translation k)).
Definition ex_bc (i j : nat) : Z := 1.
Definition ex_settings : Settings := mkSettings (1#1000) 0 1.
Definition ex_c : Tensor Z := mkTensor [1] (fun _ => 5).
Definition ex_key : Key := mkKey 1 [0].
Definition ex_do_apply (disp : list Key) (nrm : Key -> Q) :=
  do_apply (ex_op disp nrm) ex_normf ex_neighbor ex_is_valid ex_distsq
           ex_bc 1 ex_settings ex_key ex_c.

End Apply.

(** ** The RMI server and sender (world/worldrmi.cc) *)

Module Rmi.

Definition ProcessID : Type := Z.

Definition newline : string := String (Ascii.ascii_of_nat 10) EmptyString.

(** [counterT], an unsigned 16-bit integer, and [attrT], an unsigned 32-bit
    integer. *)
Definition wrap16 (x : Z) : Z := x mod 2 ^ 16.
Definition wrap32 (x : Z) : Z := x mod 2 ^ 32.

(** The constants of world/worldrmi.h and the sizes of the platform; the
    header is not among the sources, so they are parameters. *)
Record Constants : Type := mkConstants {
  ATTR_UNORDERED : Z;
  ATTR_ORDERED : Z;
  HEADER_LEN : Z;
  ALIGNMENT : Z;
  sizeof_size_t : Z;
  sizeof_int : Z
}.

(** What the code relies on: the ordered attribute is a flag in the low 16
    bits that the unordered attribute does not have, and objects have a
    positive size. *)
Definition constants_ok (k : Constants) : Prop :=
  0 < ATTR_ORDERED k < 2 ^ 16 /\
  0 <= ATTR_UNORDERED k < 2 ^ 16 /\
  Z.land (ATTR_UNORDERED k) (ATTR_ORDERED k) = 0 /\
  0 <= HEADER_LEN k /\
  0 < sizeof_size_t k /\
  0 < sizeof_int k.

(** The members fixed by the constructor. *)
Record Params : Type := mkParams {
  rank : ProcessID;
  max_msg_len_ : Z;
  nrecv_ : Z;
  maxq_ : Z
}.

(** A handler is a function pointer; [RMI::huge_msg_handler] is the one
    handler that belongs to the RMI itself. *)
Inductive rmi_handlerT : Type :=
| huge_msg_handler_ptr
| user_handler (id : Z).

#[global] Instance rmi_handlerT_eq_dec : EqDecision rmi_handlerT.
Proof. solve_decision. Defined.

(** A message buffer: the [header] written at its start and the [size_t]
    words that follow the first [HEADER_LEN] bytes. *)
Record buffer : Type := mkBuffer {
  b_func : rmi_handlerT;
  b_attr : Z;
  b_words : list Z
}.

Inductive tag : Type := RMI_TAG | RMI_HUGE_ACK_TAG | RMI_HUGE_DAT_TAG.

Inductive source : Type := MPI_ANY_SOURCE | from_rank (p : ProcessID).

(** [struct qmsg], with the fields in the order [run] passes them. *)
Record qmsg : Type := mkQmsg {
  len : Z;
  func : rmi_handlerT;
  i : Z;
  src : ProcessID;
  attr : Z;
  count : Z
}.

(** Where a receive delivers: a slot of [recv_buf] or the local [ack]. *)
Inductive target : Type := recv_slot (i : Z) | ack_variable.

Inductive request : Type := req_send | req_ack.

(** What the RMI does to the transport, the allocator, its mutex and the
    handlers, in program order. *)
Inductive event : Type :=
| EvInvoke (m : qmsg)          (* func(recv_buf[i], len), for the message m *)
| EvIrecv (t : target) (nbyte : Z) (from : source) (tg : tag)
| EvIsend (b : buffer) (nbyte : Z) (dest : ProcessID) (tg : tag)
| EvSend (nbyte : Z) (dest : ProcessID) (tg : tag)
| EvWait (r : request)         (* while (!req.Test()) waiter.wait(); *)
| EvMemalign (alignment nbyte : Z)
| EvFree (i : Z)
| EvLock
| EvUnlock.

Record RMIStats : Type := mkStats {
  nmsg_sent : Z; nbyte_sent : Z; nmsg_recv : Z; nbyte_recv : Z
}.

Record RMI : Type := mkRMI {
  send_counters : gmap ProcessID Z;
  recv_counters : gmap ProcessID Z;
  recv_buf : gmap Z buffer;        (* contents of the receive buffers *)
  huge_pending : bool;             (* recv_buf[nrecv_] != 0 *)
  hugeq : list (ProcessID * Z);
  stats : RMIStats;
  trace : list event
}.

(** The state the constructor leaves: counters filled with 0. *)
Definition RMI_init : RMI :=
  mkRMI ∅ ∅ ∅ false [] (mkStats 0 0 0 0) [].

(** [counters[p]] *)
Definition counter (c : gmap ProcessID Z) (p : ProcessID) : Z :=
  default 0 (c !! p).

Definition log (e : list event) (st : RMI) : RMI :=
  mkRMI (send_counters st) (recv_counters st) (recv_buf st) (huge_pending st)
        (hugeq st) (stats st) (trace st ++ e).

Definition set_send_counters (c : gmap ProcessID Z) (st : RMI) : RMI :=
  mkRMI c (recv_counters st) (recv_buf st) (huge_pending st)
        (hugeq st) (stats st) (trace st).

Definition set_recv_counters (c : gmap ProcessID Z) (st : RMI) : RMI :=
  mkRMI (send_counters st) c (recv_buf st) (huge_pending st)
        (hugeq st) (stats st) (trace st).

Definition set_recv_buf (b : gmap Z buffer) (st : RMI) : RMI :=
  mkRMI (send_counters st) (recv_counters st) b (huge_pending st)
        (hugeq st) (stats st) (trace st).

Definition set_huge_pending (b : bool) (st : RMI) : RMI :=
  mkRMI (send_counters st) (recv_counters st) (recv_buf st) b
        (hugeq st) (stats st) (trace st).

Definition set_hugeq (q : list (ProcessID * Z)) (st : RMI) : RMI :=
  mkRMI (send_counters st) (recv_counters st) (recv_buf st) (huge_pending st)
        q (stats st) (trace st).

Definition set_stats (s : RMIStats) (st : RMI) : RMI :=
  mkRMI (send_counters st) (recv_counters st) (recv_buf st) (huge_pending st)
        (hugeq st) s (trace st).

Section WithConstants.
Variable K : Constants.
Variable P : Params.
(** [posix_memalign(&p, alignment, nbyte)] succeeds. *)
Variable memalign_ok : Z -> Z -> bool.

(** [RMI::is_ordered] *)
Definition is_ordered (attr : Z) : bool :=
  negb (Z.land attr (ATTR_ORDERED K) =? 0).

(** *** The server *)

(** [post_pending_huge_msg()] *)
Definition post_pending_huge_msg (st : RMI) : result RMI :=
  if huge_pending st then Ok st
  else
    match hugeq st with
    | [] => Ok st
    | (src, nbyte) :: rest =>
      let st := set_hugeq rest st in
      let st := log [EvMemalign (ALIGNMENT K) nbyte] st in
      if negb (memalign_ok (ALIGNMENT K) nbyte) then
        Exception "RMI: failed allocating huge message" 1
      else
        let st := set_huge_pending true st in
        Ok (log [EvIrecv (recv_slot (nrecv_ P)) nbyte (from_rank src) RMI_HUGE_DAT_TAG;
                 EvSend (sizeof_int K) src RMI_HUGE_ACK_TAG] st)
    end.

(** [post_recv_buf(i)] *)
Definition post_recv_buf (i : Z) (st : RMI) : result RMI :=
  if i <? nrecv_ P then
    Ok (log [EvIrecv (recv_slot i) (max_msg_len_ P) MPI_ANY_SOURCE RMI_TAG] st)
  else if i =? nrecv_ P then
    let st := log [EvFree i] st in
    let st := set_huge_pending false st in
    post_pending_huge_msg st
  else
    Exception "RMI::post_recv_buf: confusion" i.

(** [huge_msg_handler(buf, nbytein)]: [info[nword]] and [info[nword+1]] are
    the first two words after the header. *)
Definition huge_msg_handler (buf : buffer) (st : RMI) : result RMI :=
  let src := nth 0 (b_words buf) 0 in
  let nbyte := nth 1 (b_words buf) 0 in
  let st := set_hugeq (hugeq st ++ [(src, nbyte)]) st in
  post_pending_huge_msg st.

(** The call [func(recv_buf[i], len)].  A user handler runs outside the
    state of the RMI; the call is recorded. *)
Definition invoke (m : qmsg) (st : RMI) : result RMI :=
  let st := log [EvInvoke m] st in
  match func m with
  | huge_msg_handler_ptr =>
    huge_msg_handler (default (mkBuffer (func m) (attr m) []) (recv_buf st !! i m)) st
  | user_handler _ => Ok st
  end.

(** [++(recv_counters[src])] *)
Definition advance (p : ProcessID) (st : RMI) : RMI :=
  set_recv_counters
    (<[p := wrap16 (counter (recv_counters st) p + 1)]> (recv_counters st)) st.

(** One message reported by [Testsome]: [status[m]], [ind[m]] and the
    contents of the buffer it was received into. *)
Record arrival : Type := mkArrival {
  ar_src : ProcessID;
  ar_len : Z;
  ar_i : Z;
  ar_buf : buffer
}.

(** The message as [run] reads it off the buffer. *)
Definition qmsg_of (a : arrival) : qmsg :=
  mkQmsg (ar_len a) (b_func (ar_buf a)) (ar_i a) (ar_src a)
         (b_attr (ar_buf a)) (wrap16 (Z.shiftr (b_attr (ar_buf a)) 16)).

(** The body of the loop over the arrived messages; [q] holds the
    [n_in_q] queued messages. *)
Definition arrive (a : arrival) (sq : RMI * list qmsg)
    : result (RMI * list qmsg) :=
  let '(st, q) := sq in
  let st := set_stats (mkStats (nmsg_sent (stats st)) (nbyte_sent (stats st))
                               (nmsg_recv (stats st) + 1)
                               (nbyte_recv (stats st) + ar_len a)) st in
  let m := qmsg_of a in
  if negb (is_ordered (attr m)) || (count m =? counter (recv_counters st) (src m))
  then
    let st := if is_ordered (attr m) then advance (src m) st else st in
    st ← invoke m st;
    st ← post_recv_buf (i m) st;
    Ok (st, q)
  else
    let n := Z.of_nat (length q) in
    if n >=? maxq_ P then
      Exception ("RMI:server: overflowed out-of-order message q" ++ newline) n
    else Ok (st, q ++ [m]).

(** The pass over the sorted queue: a message that cannot be processed is
    saved at the beginning of the queue. *)
Fixpoint drain (q : list qmsg) (st : RMI) (leftover : list qmsg)
    : result (RMI * list qmsg) :=
  match q with
  | [] => Ok (st, leftover)
  | m :: rest =>
    if count m =? counter (recv_counters st) (src m) then
      let st := advance (src m) st in
      st ← invoke m st;
      st ← post_recv_buf (i m) st;
      drain rest st leftover
    else
      drain rest st (leftover ++ [m])
  end.

Fixpoint arrive_all (batch : list arrival) (sq : RMI * list qmsg)
    : result (RMI * list qmsg) :=
  match batch with
  | [] => Ok sq
  | a :: rest => sq ← arrive a sq; arrive_all rest sq
  end.

(** [std::sort(q.get(), q.get()+n_in_q)] with [qmsg::operator<]; the code
    says "sort queued messages by ascending recv count".  The order of
    messages with equal counts is whatever the library leaves. *)
Variable sort : list qmsg -> list qmsg.

(** The contents of the buffers are in place when [Testsome] returns. *)
Definition receive_into (batch : list arrival) (st : RMI) : RMI :=
  set_recv_buf
    (fold_left (fun b a => <[ar_i a := ar_buf a]> b) batch (recv_buf st)) st.

(** One round of the loop of [run], for the messages of one [Testsome]. *)
Definition wakeup (batch : list arrival) (sq : RMI * list qmsg)
    : result (RMI * list qmsg) :=
  let '(st, q) := sq in
  let st := receive_into batch st in
  sq ← arrive_all batch (st, q);
  let '(st, q) := sq in
  sq ← drain (sort q) st [];
  let '(st, q) := sq in
  st ← post_pending_huge_msg st;
  Ok (st, q).

(** [run()] over the successive results of [Testsome], until [finished]. *)
Fixpoint run_loop (batches : list (list arrival)) (sq : RMI * list qmsg)
    : result (RMI * list qmsg) :=
  match batches with
  | [] => Ok sq
  | b :: rest => sq ← wakeup b sq; run_loop rest sq
  end.

Definition run (batches : list (list arrival)) (st : RMI)
    : result (RMI * list qmsg) :=
  run_loop batches (st, []).

(** *** The sender *)

(** The attribute after [if (is_ordered(attr)) attr |= (c << 16)], where
    [c] is the value of [send_counters[dest]] before its increment. *)
Definition stamp (attr c : Z) : Z :=
  if is_ordered attr then Z.lor attr (wrap32 (Z.shiftl c 16)) else attr.

(** [private_isend(buf, nbyte, dest, func, attr)].  [words] are the words
    of [buf] after the header.  The call for the control record of a huge
    message is the recursive one; [fuel] bounds the depth of the recursion
    and [None] is "out of fuel". *)
Fixpoint private_isend (fuel : nat) (words : list Z) (nbyte : Z)
    (dest : ProcessID) (func : rmi_handlerT) (attr : Z) (st : RMI)
    : option (result RMI) :=
  match fuel with
  | O => None
  | S fuel' =>
    let before : option (result (RMI * tag)) :=
      if max_msg_len_ P <? nbyte then
        let nword := HEADER_LEN K / sizeof_size_t K in
        let info := [rank P; nbyte] in
        let sizeof_info := (nword + 2) * sizeof_size_t K in
        let st := log [EvIrecv ack_variable (sizeof_int K) (from_rank dest)
                               RMI_HUGE_ACK_TAG] st in
        match private_isend fuel' info sizeof_info dest huge_msg_handler_ptr
                            (ATTR_UNORDERED K) st with
        | Some (Ok st) =>
          Some (Ok (log [EvWait req_send; EvWait req_ack] st, RMI_HUGE_DAT_TAG))
        | Some (Exception m x) => Some (Exception m x)
        | None => None
        end
      else if nbyte <? HEADER_LEN K then
        Some (Exception
                "RMI::isend --- your buffer is too small to hold the header"
                nbyte)
      else Some (Ok (st, RMI_TAG)) in
    match before with
    | Some (Ok (st, tg)) =>
      let st := log [EvLock] st in
      let c := counter (send_counters st) dest in
      let attr' := stamp attr c in
      let st :=
        if is_ordered attr
        then set_send_counters (<[dest := wrap16 (c + 1)]> (send_counters st)) st
        else st in
      let st := set_stats (mkStats (nmsg_sent (stats st) + 1)
                                   (nbyte_sent (stats st) + nbyte)
                                   (nmsg_recv (stats st))
                                   (nbyte_recv (stats st))) st in
      Some (Ok (log [EvIsend (mkBuffer func attr' words) nbyte dest tg;
                     EvUnlock] st))
    | Some (Exception m x) => Some (Exception m x)
    | None => None
    end
  end.

(** The arguments of one call of [RMI::isend]. *)
Record send_request : Type := mkRequest {
  rq_words : list Z;
  rq_nbyte : Z;
  rq_dest : ProcessID;
  rq_func : rmi_handlerT;
  rq_attr : Z
}.

Definition isend (fuel : nat) (r : send_request) (st : RMI)
    : option (result RMI) :=
  private_isend fuel (rq_words r) (rq_nbyte r) (rq_dest r) (rq_func r)
                (rq_attr r) st.

(** A sequence of calls of [isend] by one process. *)
Fixpoint isend_all (fuel : nat) (rs : list send_request) (st : RMI)
    : option (result RMI) :=
  match rs with
  | [] => Some (Ok st)
  | r :: rest =>
    match isend fuel r st with
    | Some (Ok st) => isend_all fuel rest st
    | other => other
    end
  end.

(** The signatures of a run of ordered messages sent one after the other
    to one destination, the first of them being the message number [G]
    (counted from 0) for that destination. *)
Fixpoint stamped (G : Z) (rs : list send_request) : list (rmi_handlerT * Z * Z) :=
  match rs with
  | [] => []
  | r :: rest =>
    (rq_func r, stamp (rq_attr r) (wrap16 G), rq_nbyte r) :: stamped (G + 1) rest
  end.

(** *** Reading a trace *)

(** What identifies a message on both sides: handler, attribute with its
    stamp, length. *)
Definition signature : Type := rmi_handlerT * Z * Z.

Definition signature_of (m : qmsg) : signature := (func m, attr m, len m).

(** The handler calls of a trace, in order. *)
Definition invoked (tr : list event) : list qmsg :=
  omap (fun e => match e with EvInvoke m => Some m | _ => None end) tr.

(** The ordered messages handed to the transport for [dest], in order. *)
Definition sent_ordered (dest : ProcessID) (tr : list event) : list signature :=
  omap (fun e =>
          match e with
          | EvIsend b nbyte d _ =>
            if is_ordered (b_attr b) && bool_decide (d = dest)
            then Some (b_func b, b_attr b, nbyte) else None
          | _ => None
          end) tr.

Definition ordered_from (s : ProcessID) (m : qmsg) : bool :=
  is_ordered (attr m) && bool_decide (src m = s).

(** The handler calls for ordered messages from [s], in order. *)
Definition invoked_ordered (s : ProcessID) (tr : list event) : list signature :=
  map signature_of (List.filter (ordered_from s) (invoked tr)).

(** The ordered messages from [s] among the arrivals, in order of arrival. *)
Definition arrived_ordered (s : ProcessID) (batches : list (list arrival))
    : list signature :=
  map signature_of (List.filter (ordered_from s) (map qmsg_of (concat batches))).

(** The reading of the queue pass by which it stops at the first queued
    message that is not next in sequence: "drained as long as the head
    message's sequence matches the receive counter".  It is compared with
    [drain] below. *)
Fixpoint drain_while_head_matches (q : list qmsg) (st : RMI)
    : result (RMI * list qmsg) :=
  match q with
  | [] => Ok (st, [])
  | m :: rest =>
    if count m =? counter (recv_counters st) (src m) then
      let st := advance (src m) st in
      st ← invoke m st;
      st ← post_recv_buf (i m) st;
      drain_while_head_matches rest st
    else Ok (st, m :: rest)
  end.

End WithConstants.

(** *** The order of delivery for one source

    The state of the server as one source [s] sees it: the ordered
    messages from [s] handed to their handlers so far, and those waiting in
    the queue. *)
Definition from_source (s : ProcessID) (m : qmsg) : bool :=
  bool_decide (src m = s).

(** The stamp inside a signature. *)
Definition sig_count (g : signature) : Z := wrap16 (Z.shiftr (snd (fst g)) 16).

Section Delivery.
Variable K : Constants.
Variable s : ProcessID.

Definition delivered (st : RMI) : list qmsg :=
  List.filter (ordered_from K s) (invoked (trace st)).

Definition parked (q : list qmsg) : list qmsg :=
  List.filter (from_source s) q.

(** The arrivals of one source (in any order): ordered messages from [s]
    with pairwise different stamps. *)
Definition expected (A : list qmsg) : Prop :=
  List.NoDup (map count A)
  /\ Forall (fun m => 0 <= count m < 2 ^ 16 /\ ordered_from K s m = true) A.

(** The stamps delivered so far are 0, 1, ..., D-1, in this order, and the
    receive counter is D (as a 16-bit number). *)
Definition in_sequence (st : RMI) : Prop :=
  map count (delivered st) = seqZ 0 (Z.of_nat (length (delivered st)))
  /\ counter (recv_counters st) s = wrap16 (Z.of_nat (length (delivered st))).

(** [A] are the arrivals so far: each is delivered or parked. *)
Definition fifo_inv (st : RMI) (q : list qmsg) (A : list qmsg) : Prop :=
  in_sequence st /\ Permutation (delivered st ++ parked q) A.

(** No parked message is the next in sequence. *)
Definition settled (st : RMI) (q : list qmsg) : Prop :=
  forall m, In m (parked q) -> Z.of_nat (length (delivered st)) < count m.

(** The invariant of the pass over the sorted queue: [left] are the
    messages kept so far, [rest] those not looked at yet. *)
Definition pass_inv (st : RMI) (left rest : list qmsg) (A : list qmsg) : Prop :=
  in_sequence st
  /\ Permutation (delivered st ++ parked left ++ parked rest) A
  /\ (forall x, In x (parked left) -> Z.of_nat (length (delivered st)) < count x)
  /\ (forall x y, In x (parked left) -> In y (parked rest) -> count x < count y).

End Delivery.

(** A sorting function for the queue: stable merge sort on the count. *)
Definition count_le (a b : qmsg) : Prop := count a <= count b.

#[global] Instance count_le_dec : RelDecision count_le.
Proof. intros a b. unfold count_le. apply _. Defined.

Definition sort_by_count : list qmsg -> list qmsg := merge_sort count_le.

(** An instance of the constants and of the parameters, used to evaluate
    the definitions: the ordered attribute is bit 0, the header takes 64
    bytes, and there are two eager buffers of 1024 bytes. *)
Definition ex_constants : Constants :=
  mkConstants 0 1 64 64 8 4.
Definition ex_params : Params := mkParams 0 1024 2 3.
Definition ex_memalign_ok (alignment nbyte : Z) : bool := true.

(** A server with four eager buffers. *)
Definition ex_server : Params := mkParams 1 1024 4 5.

(** An ordered message of 64 bytes from process 0 to process 1 for the
    handler [h], and its arrival in the buffer [slot] of process 1 carrying
    the stamp [c]. *)
Definition ex_request (h : Z) : send_request :=
  mkRequest [] 64 1 (user_handler h) 1.
Definition ex_arrival (from : ProcessID) (slot h c : Z) : arrival :=
  mkArrival from 64 slot (mkBuffer (user_handler h) (1 + c * 2 ^ 16) []).
Definition ex_qmsg (from : ProcessID) (slot h c : Z) : qmsg :=
  mkQmsg 64 (user_handler h) slot from (1 + c * 2 ^ 16) c.

(** Three ordered messages and an unordered one, and their arrival out of
    order in two rounds. *)
Definition ex_requests : list send_request :=
  [ex_request 10; mkRequest [] 64 1 (user_handler 99) 0; ex_request 11;
   ex_request 12].
Definition ex_batches : list (list arrival) :=
  [[ex_arrival 0 0 12 2; ex_arrival 0 1 10 0]; [ex_arrival 0 2 11 1]].
Definition ex_sent : RMI :=
  match isend_all ex_constants ex_params 1 ex_requests RMI_init with
  | Some (Ok st) => st
  | _ => RMI_init
  end.
Definition ex_received : RMI * list qmsg :=
  match run ex_constants ex_server ex_memalign_ok sort_by_count ex_batches
            RMI_init with
  | Ok sq => sq
  | Exception _ _ => (RMI_init, [])
  end.

(** Messages of two sources in one round: one of process 5 that is not
    next in sequence, then three of process 6. *)
Definition ex_two_sources : list arrival :=
  [ex_arrival 5 0 20 1; ex_arrival 6 1 32 2; ex_arrival 6 2 30 0;
   ex_arrival 6 3 31 1].

(** 2^16 + 1 ordered messages: the first for handler 0, the last for
    handler 2; and a server with 2^17 eager buffers, so that all of them
    can be in flight at once. *)
Definition ex_many : list send_request :=
  ex_request 0 :: repeat (ex_request 1) (Z.to_nat 65535) ++ [ex_request 2].
Definition ex_wide_server : Params := mkParams 1 1024 (2 ^ 17) (2 ^ 17 + 1).

End Rmi.

(** ** [FunctionImpl]: loops over the container of nodes *)

Module Impl.
Import Tensors Mra Threshold.

Section WithScalar.
Context {T : Type} `{Scalar T}.

(** Modelled from the spec: [Tensor<T>(dims)] (tensor/tensor.h) is not among
    the sources; these sources call [tensorT(cdata.vk)] a "Zero (k,...)
    tensor" and a "Zero leaf": the constructor fills with zeros. *)
Definition zeros (dims : list Z) : Tensor T := mkTensor dims (fun _ => zero).

(** [coeffs.replace(key, node)] *)
Definition replace (key : Key) (node : FunctionNode T) (c : coeffsT T)
    : coeffsT T :=
  <[key := node]> c.

(** [coeffs.send(key, &nodeT::method, args...)]: the method runs on the
    entry of [key], "automated construction if missing". *)
Definition send (key : Key) (method : FunctionNode T -> FunctionNode T)
    (c : coeffsT T) : coeffsT T :=
  <[key := method (default node_default (c !! key))]> c.

(** [node.convert<Q>()]: [FunctionNode<Q,NDIM>(copy(coeff()), _has_children)] *)
Definition convert (n : FunctionNode T) : FunctionNode T :=
  node_of (coeff n) (_has_children n).

(** The entries of a container in the order in which its iterator visits
    them. *)
Local Abbreviation entriesT := (list (Key * FunctionNode T)).

(** [copy_coeffs(other, fence)]: the loop, for the entries of [other] in
    the order of the iteration. *)
Definition copy_coeffs_loop (entries : entriesT) (c : coeffsT T) : coeffsT T :=
  fold_left (fun c kn => replace (fst kn) (convert (snd kn)) c) entries c.

Definition copy_coeffs (other c : coeffsT T) : coeffsT T :=
  copy_coeffs_loop (map_to_list other) c.

(** [FunctionImpl::gaxpy_inplace(alpha, other, beta, fence)]: both branches
    send [nodeT::gaxpy_inplace] to the entry of each key of [other]. *)
Definition gaxpy_inplace_loop (alpha : T) (entries : entriesT) (beta : T)
    (c : coeffsT T) : coeffsT T :=
  fold_left
    (fun c kn =>
       send (fst kn) (fun this => Mra.gaxpy_inplace this alpha (snd kn) beta) c)
    entries c.

Definition gaxpy_inplace (alpha : T) (other : coeffsT T) (beta : T)
    (c : coeffsT T) : coeffsT T :=
  gaxpy_inplace_loop alpha (map_to_list other) beta c.

(** The literal [1.0] as a [T]. *)
Variable one : T.

(** [gaxpy(alpha, left, beta, right, fence)]: the loop over [left], then
    the loop over [right]. *)
Definition gaxpy (alpha : T) (left : coeffsT T) (beta : T) (right : coeffsT T)
    (c : coeffsT T) : coeffsT T :=
  let c :=
    fold_left
      (fun c kn =>
         send (fst kn) (fun this => Mra.gaxpy_inplace this one (snd kn) alpha) c)
      (map_to_list left) c in
  fold_left
    (fun c kn =>
       send (fst kn) (fun this => Mra.gaxpy_inplace this one (snd kn) beta) c)
    (map_to_list right) c.

(** [scale_oop(q, f, fence)] *)
Definition scale_oop_loop (q : T) (entries : entriesT) (c : coeffsT T)
    : coeffsT T :=
  fold_left
    (fun c kn =>
       let node := snd kn in
       if has_coeff node
       then replace (fst kn) (node_of (times (coeff node) q) (has_children node)) c
       else replace (fst kn) (node_of empty_tensor (has_children node)) c)
    entries c.

Definition scale_oop (q : T) (f : coeffsT T) (c : coeffsT T) : coeffsT T :=
  scale_oop_loop q (map_to_list f) c.

(** [vk[i] = k] for every dimension. *)
Definition cd_vk (cdata : CommonData) : list Z :=
  repeat (cd_k cdata) (cd_ndim cdata).

(** [project(old, fence)]: [s] is [Slice(0, old.cdata.k-1)] in every
    dimension, and [c(s) = node.coeff()] writes the old coefficients into
    the corner of a zero tensor of the new order. *)
Definition project_loop (cdata : CommonData) (old_k : Z) (entries : entriesT)
    (c : coeffsT T) : coeffsT T :=
  let s := repeat (mkSlice 0 (old_k - 1)) (cd_ndim cdata) in
  fold_left
    (fun c kn =>
       let node := snd kn in
       if has_coeff node
       then replace (fst kn)
              (node_of (assign_slice (zeros (cd_vk cdata)) s (coeff node)) false) c
       else replace (fst kn) (node_of empty_tensor true) c)
    entries c.

Definition project (cdata : CommonData) (old_k : Z) (old : coeffsT T)
    (c : coeffsT T) : coeffsT T :=
  project_loop cdata old_k (map_to_list old) c.

(** A loop body that writes the entry of the key it visits, from the node
    it visits and the entry as it is. *)
Definition writes_own_key (body : coeffsT T -> Key * FunctionNode T -> coeffsT T)
    (g : Key -> FunctionNode T -> option (FunctionNode T) -> FunctionNode T)
    : Prop :=
  forall c kn, body c kn = <[fst kn := g (fst kn) (snd kn) (c !! fst kn)]> c.

(** One node agrees with another: the same flag, the same shape and the
    same elements (the tensors are compared element by element). *)
Definition same_node (a b : FunctionNode T) : Prop :=
  _has_children a = _has_children b
  /\ _norm_tree a = _norm_tree b
  /\ same_tensor (coeff a) (coeff b).

End WithScalar.

(** *** Keeping the tree connected *)

Section Connect.
Context {T : Type} `{Scalar T}.
Variable parent : Key -> Key.            (* Key::parent() *)

(** [FunctionNode::set_has_children_recursive(c, key)]: the new value of
    [*this] and the task sent to the parent, if any. *)
Definition set_has_children_recursive (this : FunctionNode T) (key : Key)
    : FunctionNode T * list node_task :=
  (set_has_children this true,
   if negb (_has_children this || has_coeff this || (level key =? 0))
   then [SetHasChildrenRecursive (parent key)] else []).

(** The container runs the tasks it was handed, first come first served.
    Modelled from the spec: the container is not among the sources;
    "[task(key, method, args...)] is the same" as [send], which runs the
    method on the entry of [key] with "automated construction if missing".
    [fuel] bounds the number of tasks run and [None] is "out of fuel". *)
Fixpoint run_node_tasks (fuel : nat) (tasks : list node_task) (c : coeffsT T)
    : option (coeffsT T) :=
  match tasks with
  | [] => Some c
  | SetHasChildrenRecursive key :: rest =>
    match fuel with
    | O => None
    | S fuel' =>
      let node := default node_default (c !! key) in
      let '(node', more) := set_has_children_recursive node key in
      run_node_tasks fuel' (rest ++ more) (<[key := node']> c)
    end
  end.

(** Every node below the root that has coefficients or children is known
    to its parent. *)
Definition wired (c : coeffsT T) : Prop :=
  forall key node,
    c !! key = Some node ->
    _has_children node || has_coeff node = true ->
    0 < level key ->
    exists p, c !! parent key = Some p /\ has_children p = true.

(** The same, except possibly for the node at [k]. *)
Definition wired_but (k : Key) (c : coeffsT T) : Prop :=
  forall key node,
    key <> k ->
    c !! key = Some node ->
    _has_children node || has_coeff node = true ->
    0 < level key ->
    exists p, c !! parent key = Some p /\ has_children p = true.

(** From [c] to [c'] nothing happened but [has_children] flags being
    raised and invalid nodes with the flag raised being constructed. *)
Definition raised (c c' : coeffsT T) : Prop :=
  forall key,
    match c !! key, c' !! key with
    | Some a, Some b =>
      coeff b = coeff a /\ _norm_tree b = _norm_tree a
      /\ (has_children a = true -> has_children b = true)
    | None, Some b => has_coeff b = false /\ has_children b = true
    | None, None => True
    | Some _, None => False
    end.

End Connect.

(** *** Refinement *)

Section Refine.
Context {T : Type} `{Scalar T}.
Variable cdata : CommonData.
(** [unfilter(s) = fast_transform(s, cdata.hg, r, w)] *)
Variable unfilter : Tensor T -> Tensor T.
(** [tnorm(t, &lo, &hi)] (declared only): the norms of the low-order and of
    the high-order block of [t]. *)
Variable tnorm : Tensor T -> Q * Q.
Variable max_refine_level : Z.
Variable f : Settings.

(** [noautorefine(key, t)] *)
Definition noautorefine (key : Key) (t : Tensor T) : bool := false.

(** [autorefine_square_test(key, t)] *)
Definition autorefine_square_test (key : Key) (t : Tensor T) : result bool :=
  let '(lo, hi) := tnorm t in
  let test := (2 * lo * hi + hi * hi)%Q in
  tol ← truncate_tol f (thresh f) key;
  Ok (if Qlt_le_dec tol test then true else false).

(** [refine_op(key)] *)
Definition refine_op (key : Key) (c : coeffsT T) : result (coeffsT T) :=
  match c !! key with
  | None => Exception "MADNESS_ASSERT: coeffs.find(acc,key)" 0
  | Some node =>
    if has_coeff node && (level key <? max_refine_level) then
      refine ← autorefine_square_test key (coeff node);
      if (refine : bool) then
        let d := assign_slice (zeros (cd_v2k cdata)) (cd_s0 cdata) (coeff node) in
        let d := unfilter d in
        let node := set_has_children (clear_coeff node) true in
        Ok (fold_left
              (fun c child =>
                 replace child
                   (node_of (copy_slice d (child_patch cdata child)) false) c)
              (children cdata key) (<[key := node]> c))
      else Ok c
    else Ok c
  end.

(** The reconstructed form: a node has coefficients exactly when it is a
    leaf. *)
Definition reconstructed (c : coeffsT T) : Prop :=
  forall key node, c !! key = Some node -> has_coeff node = negb (has_children node).

End Refine.

(** *** [apply]: the tasks it submits *)

Section ApplyTasks.
Context {T : Type} `{Scalar T}.

(** Where a task is sent: [world.random_proc()] or [coeffs.owner(key)]. *)
Inductive task_target : Type :=
| RandomProc
| OwnerOf (key : Key).

(** The task [do_apply<opT,R>(&op, &f, key, node.coeff())]. *)
Record do_apply_task : Type := mkTask {
  t_target : task_target;
  t_key : Key;
  t_coeff : Tensor T
}.

(** [apply(op, f, fence)]: the tasks submitted, in the order of the
    iteration over [f.coeffs]; [k] is the order of the wavelet,
    [doleaves] is [op.doleaves] and [randomize] is
    [FunctionDefaults<NDIM>::get_apply_randomize()]. *)
Definition apply_loop (k : Z) (doleaves randomize : bool)
    (entries : list (Key * FunctionNode T)) : list do_apply_task :=
  flat_map
    (fun kn =>
       let key := fst kn in
       let node := snd kn in
       if has_coeff node then
         if negb (nth 0 (dim (coeff node)) 0 =? k) || doleaves then
           [mkTask (if randomize then RandomProc else OwnerOf key) key (coeff node)]
         else []
       else [])
    entries.

Definition apply (k : Z) (doleaves randomize : bool) (f : coeffsT T)
    : list do_apply_task :=
  apply_loop k doleaves randomize (map_to_list f).

End ApplyTasks.

(** *** [inner_local] *)

Section Inner.
Context {T : Type} `{Scalar T}.

(** [a.trace_conj(b)] (tensor/tensor.h, declared only). *)
Variable trace_conj : Tensor T -> Tensor T -> T.

(** The body of the loop of [inner_local] for one entry of [coeffs];
    [throw "adios"] is the only way out other than the end of the loop. *)
Definition inner_local_step (g : coeffsT T) (acc : result T)
    (kn : Key * FunctionNode T) : result T :=
  sum ← acc;
  let fnode := snd kn in
  if has_coeff fnode then
    match g !! fst kn with
    | Some gnode =>
        if has_coeff gnode then
          if negb (nth 0 (dim (coeff gnode)) 0 =? nth 0 (dim (coeff fnode)) 0)
          then Exception "adios" 0
          else Ok (add sum (trace_conj (coeff fnode) (coeff gnode)))
        else Ok sum
    | None => Ok sum
    end
  else Ok sum.

(** [f.inner_local(g)]: [sum] starts at [0.0]. *)
Definition inner_local (f g : coeffsT T) : result T :=
  fold_left (inner_local_step g) (map_to_list f) (Ok zero).

(** The contribution of one entry of [coeffs] to the sum: none, the term
    [fnode.coeff().trace_conj(gnode.coeff())], or the exception. *)
Definition inner_local_term (g : coeffsT T) (kn : Key * FunctionNode T)
    : option (result T) :=
  let fnode := snd kn in
  if has_coeff fnode then
    match g !! fst kn with
    | Some gnode =>
        if has_coeff gnode then
          if negb (nth 0 (dim (coeff gnode)) 0 =? nth 0 (dim (coeff fnode)) 0)
          then Some (Exception "adios" 0)
          else Some (Ok (trace_conj (coeff fnode) (coeff gnode)))
        else None
    | None => None
    end
  else None.

(** The contributions to [f.inner_local(g)] in the order of the iteration
    over the coefficients of [f]. *)
Definition inner_local_terms (f g : coeffsT T) : list (result T) :=
  omap (inner_local_term g) (map_to_list f).

(** [sum += term] for each term in turn, from [0.0], until one throws. *)
Definition sum_terms (terms : list (result T)) : result T :=
  fold_left (fun acc r => sum ← acc; t ← r; Ok (add sum t)) terms (Ok zero).

End Inner.

End Impl.

(** ** The process map [SimpleMap] *)

Module Pmap.

Section SimpleMap.
(** [hash(key)], an unsigned number, and [Key::parent(generation)]
    (mra/key.h, declared only). *)
Variable hash : Key -> Z.
Variable parent_gen : Key -> Z -> Key.
Variable nproc : Z.
Variable n : Z.

(** [SimpleMap::owner(key)] *)
Definition owner (key : Key) : Z :=
  if level key =? 0 then 0
  else if level key <=? n then hash key mod nproc
  else hash (parent_gen key (level key - n)) mod nproc.

End SimpleMap.

(** A map over two processes with [n = 1], used to evaluate the
    definition. *)
Definition ex_hash (key : Key) : Z := level key + fold_right Z.add 0 (translation key).
Definition ex_parent_gen (key : Key) (g : Z) : Key :=
  mkKey (level key - g) (map (fun l => Z.shiftr l g) (translation key)).

End Pmap.

(** ** [ApplyTime]: the time taken per key in [apply] *)

Module Timing.

(** [decay_val(0.9)] *)
Definition decay_val : Q := 9 # 10.

(** [hash_table], a container of [double] *)
Local Abbreviation tableT := (gmap Key Q).

(** [set(data)] *)
Definition set (data : Key * Q) (t : tableT) : tableT :=
  <[fst data := snd data]> t.

(** [clear()] *)
Definition clear (t : tableT) : tableT := ∅.

(** [get(key)] *)
Definition get (key : Key) (t : tableT) : Q :=
  match t !! key with
  | None => 0
  | Some d => d
  end.

(** [update(data)] *)
Definition update (data : Key * Q) (t : tableT) : tableT :=
  match t !! fst data with
  | None => <[fst data := snd data]> t
  | Some s =>
    let y := snd data in
    <[fst data := (s + (y - s) * decay_val)%Q]> t
  end.

End Timing.

(** ** The RMI server: buffers and bookkeeping *)

Module RmiServer.
Import Rmi.

(** The receive buffers that the queued messages sit in. *)
Definition slots (q : list qmsg) : list Z := map i q.

(** What the transport guarantees for the messages of one [Testsome]:
    their buffers are among [recv_buf[0..nrecv_]], each request is reported
    once, and none of them sits in a buffer that holds a queued message (a
    receive is posted on a buffer again only by [post_recv_buf], which
    [run] calls once the message has been handed to its handler). *)
Definition batch_fits (P : Params) (b : list arrival) (q : list qmsg) : Prop :=
  List.NoDup (map ar_i b ++ slots q)
  /\ Forall (fun a => 0 <= ar_i a <= nrecv_ P) b.

(** The queued messages sit in different buffers among
    [recv_buf[0..nrecv_]]. *)
Definition tidy (P : Params) (q : list qmsg) : Prop :=
  List.NoDup (slots q) /\ Forall (fun m => 0 <= i m <= nrecv_ P) q.

Section WithConstants.
Variable K : Constants.
Variable P : Params.
Variable memalign_ok : Z -> Z -> bool.
Variable sort : list qmsg -> list qmsg.

(** The successive results of [Testsome] respect the buffers, for as long
    as the server runs. *)
Fixpoint admissible (batches : list (list arrival)) (sq : RMI * list qmsg)
    : Prop :=
  match batches with
  | [] => True
  | b :: rest =>
    batch_fits P b (snd sq)
    /\ match wakeup K P memalign_ok sort b sq with
       | Ok sq' => admissible rest sq'
       | Exception _ _ => True
       end
  end.

(** A result is a value, or the exception of an allocation that failed. *)
Definition fails_only_on_allocation {A : Type} (r : result A) : Prop :=
  match r with
  | Ok _ => True
  | Exception m x =>
    m = "RMI: failed allocating huge message"%string
    /\ exists alignment nbyte, memalign_ok alignment nbyte = false
  end.

End WithConstants.

(** The sizes of the messages handed to the transport, in order. *)
Definition sends (tr : list event) : list Z :=
  omap (fun e => match e with EvIsend _ nbyte _ _ => Some nbyte | _ => None end) tr.

Definition total (l : list Z) : Z := fold_right Z.add 0 l.

(** The statistics agree with what was sent. *)
Definition books_balance (st : RMI) : Prop :=
  nmsg_sent (stats st) = Z.of_nat (length (sends (trace st)))
  /\ nbyte_sent (stats st) = total (sends (trace st)).

(** The receives posted for huge messages, in order: for each, the process
    it is posted for and the length. *)
Definition huge_granted (tr : list event) : list (ProcessID * Z) :=
  omap (fun e => match e with
                 | EvIrecv _ nbyte (from_rank p) RMI_HUGE_DAT_TAG => Some (p, nbyte)
                 | _ => None
                 end) tr.

(** The processes that were sent an acknowledgement, in order. *)
Definition huge_acks (tr : list event) : list ProcessID :=
  omap (fun e => match e with
                 | EvSend _ dest RMI_HUGE_ACK_TAG => Some dest
                 | _ => None
                 end) tr.

(** Whether the buffer for huge messages, [recv_buf[nrecv_]], is in use at
    the end of a trace that starts with it [busy]: a receive for a huge
    message takes it and [free] releases it.  [None] when a receive is
    posted on it while it is in use. *)
Fixpoint huge_buffer (tr : list event) (busy : bool) : option bool :=
  match tr with
  | [] => Some busy
  | EvIrecv _ _ _ RMI_HUGE_DAT_TAG :: rest =>
    if busy then None else huge_buffer rest true
  | EvFree _ :: rest => huge_buffer rest false
  | _ :: rest => huge_buffer rest busy
  end.

(** The state agrees with the trace: no receive was posted on the huge
    buffer while it was in use, [recv_buf[nrecv_]] is set if it is in use,
    and each of these receives came with an acknowledgement to its
    process. *)
Definition huge_in_step (st : RMI) : Prop :=
  match huge_buffer (trace st) false with
  | Some busy => busy = true -> huge_pending st = true
  | None => False
  end
  /\ huge_acks (trace st) = map fst (huge_granted (trace st)).

End RmiServer.

(** ** The RMI constructor *)

Module RmiInit.
Import Rmi.

(** [DEFAULT_MAX_MSG_LEN] and [DEFAULT_NRECV] (world/worldrmi.h). *)
Record Defaults : Type := mkDefaults {
  DEFAULT_MAX_MSG_LEN : Z;
  DEFAULT_NRECV : Z
}.

(** What the string stream reads from [MAD_BUFFER_SIZE]: the number, if
    [ss >> memory] succeeds, and the unit, if [ss >> unit] does. *)
Record buffer_size_text : Type := mkText {
  memory_read : option Q;
  unit_read : option string
}.

(** The unit: "Failure == assume bytes". *)
Definition scaled (memory : Q) (unit : option string) : Q :=
  match unit with
  | Some u =>
    if bool_decide (u = "KB"%string) || bool_decide (u = "kB"%string)
    then (memory * 1024)%Q
    else if bool_decide (u = "MB"%string) then (memory * 1048576)%Q
    else if bool_decide (u = "GB"%string) then (memory * 1073741824)%Q
    else memory
  | None => memory
  end.

(** [memory] after the text is read: the number times its unit when it is
    positive, the number as it is when it is not, [0.0] when the text is
    no number. *)
Definition requested (txt : buffer_size_text) : Q :=
  match memory_read txt with
  | Some m => if Qlt_le_dec 0 m then scaled m (unit_read txt) else m
  | None => 0%Q
  end.

(** The number of values of [std::size_t], the type of [max_msg_len_]. *)
Definition size_range (K : Constants) : Z := 2 ^ (8 * sizeof_size_t K).

(** A [double] without its fraction. *)
Definition truncated (x : Q) : Z := Z.quot (Qnum x) (Zpos (Qden x)).

(** [max_msg_len_ = memory]: the conversion of a [double] to the unsigned
    [max_msg_len_] drops the fraction.  C++ leaves the conversion of a
    value out of the range of the type undefined: a negative value that
    the signed integer of the same width holds wraps around here, as it
    does when the conversion goes through that integer, and for every
    other value the result is whatever the platform gives,
    [out_of_range]. *)
Definition to_size (K : Constants) (out_of_range : Q -> Z) (x : Q) : Z :=
  let t := truncated x in
  if (0 <=? t) && (t <? size_range K) then t
  else if (- (size_range K / 2) <=? t) && (t <? 0) then t + size_range K
  else out_of_range x.

(** The part of the constructor that reads [MAD_BUFFER_SIZE]; [None] is a
    variable that is not set.  [max_msg_len_ += ALIGNMENT - unaligned] is
    unsigned arithmetic. *)
Definition buffer_size (K : Constants) (D : Defaults) (out_of_range : Q -> Z)
    (env : option buffer_size_text) : Z :=
  match env with
  | None => DEFAULT_MAX_MSG_LEN D
  | Some txt =>
    let memory := requested txt in
    let len := to_size K out_of_range memory in
    let len := if len <? 1024 then DEFAULT_MAX_MSG_LEN D else len in
    let unaligned := len mod ALIGNMENT K in
    if negb (unaligned =? 0)
    then (len + (ALIGNMENT K - unaligned)) mod size_range K
    else len
  end.

(** The part that reads [MAD_RECV_BUFFERS]: [nrecv_] and [maxq_]; the
    argument is [nrecv_] after [ss >> nrecv_]. *)
Definition recv_buffers (D : Defaults) (env : option Z) : Z * Z :=
  match env with
  | None => (DEFAULT_NRECV D, DEFAULT_NRECV D + 1)
  | Some v =>
    let nrecv := if v <? DEFAULT_NRECV D then DEFAULT_NRECV D else v in
    (nrecv, nrecv + 1)
  end.

Section Construct.
Variable K : Constants.
Variable D : Defaults.
Variable memalign_ok : Z -> Z -> bool.
(** The conversion to [std::size_t] of a [double] out of its range. *)
Variable out_of_range : Q -> Z.

(** The loop that allocates the receive buffers and posts the receives. *)
Fixpoint allocate (P : Params) (indices : list Z) (st : RMI) : result RMI :=
  match indices with
  | [] => Ok st
  | j :: rest =>
    let st := log [EvMemalign (ALIGNMENT K) (max_msg_len_ P)] st in
    if negb (memalign_ok (ALIGNMENT K) (max_msg_len_ P)) then
      Exception "RMI:initialize:failed allocating aligned recv buffer" 1
    else
      st ← post_recv_buf K P memalign_ok j st;
      allocate P rest st
  end.

(** [RMI::RMI()]: the parameters it fixes and the state it leaves, for a
    world of [nproc] processes.  The server thread, which it starts last
    when [nproc > 1], begins in this state. *)
Definition construct (nproc : Z) (rank : ProcessID)
    (env_buffer : option buffer_size_text) (env_recv : option Z)
    : result (Params * RMI) :=
  let max_msg_len := buffer_size K D out_of_range env_buffer in
  let '(nrecv, maxq) := recv_buffers D env_recv in
  let P := mkParams rank max_msg_len nrecv maxq in
  if nproc >? 1 then
    st ← allocate P (seqZ 0 nrecv) RMI_init;
    Ok (P, st)
  else Ok (P, RMI_init).

(** The receives a trace posts on the RMI tag, in order. *)
Definition posted (tr : list event) : list Z :=
  omap (fun e => match e with
                 | EvIrecv (recv_slot j) _ MPI_ANY_SOURCE RMI_TAG => Some j
                 | _ => None
                 end) tr.

End Construct.

(** An instance of the defaults, used to evaluate the definitions: the
    length "3*512*1024" of the comment in the code, and 32 buffers. *)
Definition ex_defaults : Defaults := mkDefaults (3 * 512 * 1024) 32.

End RmiInit.

(** * Properties *)

(** ** Thresholds *)

Module ThresholdFacts.
Import Threshold.

Lemma std_min_Qmin (a b : Q) : (std_min a b == Qmin a b)%Q.
Proof.
  unfold std_min. destruct (Qlt_le_dec b a) as [Hlt | Hle].
  - symmetry. apply Q.min_r. apply Qlt_le_weak. exact Hlt.
  - symmetry. apply Q.min_l. exact Hle.
Qed.

Lemma pow_half (n : Z) : (pow (1#2) n == 2 ^ (- n))%Q.
Proof.
  unfold pow. rewrite Qpower_opp.
  rewrite <- Qinv_power. reflexivity.
Qed.

Lemma pow_quarter (n : Z) : (pow (1#4) n == 4 ^ (- n))%Q.
Proof.
  unfold pow. rewrite Qpower_opp.
  rewrite <- Qinv_power. reflexivity.
Qed.

(** C3.  [truncate_tol(tol, key)] at a key of level [n] returns [tol] in
    mode 0, [tol * min(1, 2^-n * L)] in mode 1, [tol * min(1, 4^-n * L^2)]
    in mode 2, with [L] the minimum cell width, and for every other mode it
    raises the fatal exception "truncate_mode invalid" and returns
    nothing. *)
Theorem truncate_tol_policy (f : Settings) (tol : Q) (key : Key) :
  let n := level key in
  let L := cell_min_width f in
  match truncate_mode f with
  | 0 => truncate_tol f tol key = Ok tol
  | 1 => result_Qeq (truncate_tol f tol key)
                    (Ok (tol * Qmin 1 (2 ^ (- n) * L))%Q)
  | 2 => result_Qeq (truncate_tol f tol key)
                    (Ok (tol * Qmin 1 (4 ^ (- n) * L ^ 2))%Q)
  | _ => truncate_tol f tol key
         = Exception "truncate_mode invalid" (truncate_mode f)
  end.
Proof.
  intros n L. unfold truncate_tol. fold n L.
  destruct (truncate_mode f) as [ | p | p ] eqn:Hmode; simpl.
  - reflexivity.
  - destruct p as [ [ | | ] | [ | | ] | ]; simpl; try reflexivity.
    + rewrite std_min_Qmin, pow_quarter.
      apply Qmult_comp; [reflexivity | ].
      apply Q.min_compat; [reflexivity | ].
      rewrite <- Qmult_assoc. apply Qmult_comp; [reflexivity | ].
      simpl. reflexivity.
    + rewrite std_min_Qmin, pow_half. reflexivity.
  - reflexivity.
Qed.

(** C10.  With a tolerance [tol <= 0], [truncate(tol, fence)] does what
    [truncate(thresh, fence)] does: the tolerance handed to
    [truncate_spawn] is the stored [thresh], and the member [thresh] keeps
    its value. *)
Theorem truncate_nonpositive_tol (rank : Z) (owner : Key -> Z) (key0 : Key)
    (f : Settings) (tol : Q) (fence : bool) :
  (tol <= 0)%Q ->
  truncate rank owner key0 f tol fence
    = truncate rank owner key0 f (thresh f) fence
  /\ thresh (fst (truncate rank owner key0 f tol fence)) = thresh f
  /\ (rank = owner key0 ->
      In (TruncateSpawn key0 (thresh f))
         (snd (truncate rank owner key0 f tol fence))).
Proof.
  intros Htol. unfold truncate.
  apply Qle_bool_iff in Htol. rewrite Htol.
  assert (Hsame : (if Qle_bool (thresh f) 0 then thresh f else thresh f)
                  = thresh f) by (destruct (Qle_bool (thresh f) 0); reflexivity).
  rewrite Hsame. split; [reflexivity | ]. split; [reflexivity | ].
  intros Hrank. simpl. rewrite Hrank, Z.eqb_refl. simpl. left. reflexivity.
Qed.

Lemma truncate_nonpositive_tol_witness :
  let f := mkSettings (1#1000) 0 1 in
  let key0 := mkKey 0 [0; 0; 0] in
  truncate 0 (fun _ => 0) key0 f (-1) true
    = truncate 0 (fun _ => 0) key0 f (thresh f) true
  /\ thresh (fst (truncate 0 (fun _ => 0) key0 f (-1) true)) = thresh f
  /\ (0 = 0 ->
      In (TruncateSpawn key0 (thresh f))
         (snd (truncate 0 (fun _ => 0) key0 f (-1) true))).
Proof.
  intros f key0.
  apply (truncate_nonpositive_tol 0 (fun _ => 0) key0 f (-1) true).
  unfold Qle. simpl. lia.
Defined.

(** A positive tolerance is used as it is. *)
Lemma truncate_positive_tol (rank : Z) (owner : Key -> Z) (key0 : Key)
    (f : Settings) (tol : Q) (fence : bool) :
  (0 < tol)%Q -> rank = owner key0 ->
  In (TruncateSpawn key0 tol) (snd (truncate rank owner key0 f tol fence)).
Proof.
  intros Htol Hrank. unfold truncate.
  destruct (Qle_bool tol 0) eqn:Hle.
  - apply Qle_bool_iff in Hle. exfalso. apply (Qlt_not_le _ _ Htol Hle).
  - simpl. rewrite Hrank, Z.eqb_refl. simpl. left. reflexivity.
Qed.

End ThresholdFacts.

(** ** Operator application *)

Module ApplyFacts.
Import Tensors Mra Threshold Apply.

Section WithOperator.
Context {T : Type} `{Scalar T}.
Variable op : Operator T.
Variable normf : Tensor T -> Q.
Variable neighbor : Key -> Key -> Key.
Variable is_valid : Key -> bool.
Variable distsq : Key -> Z.
Variable parent : Key -> Key.
Variable bc : nat -> nat -> Z.
Variable NDIM : nat.
Variable f : Settings.

Local Abbreviation periodic_doit := (periodic_doit bc NDIM).
Local Abbreviation do_apply_loop := (do_apply_loop op neighbor is_valid distsq bc NDIM f).
Local Abbreviation do_apply := (do_apply op normf neighbor is_valid distsq bc NDIM f).
Local Abbreviation continues := (continues op neighbor is_valid distsq bc NDIM).

Lemma lmax_of_pow (key : Key) : 1 <= level key -> lmax_of key = 2 ^ (level key - 1).
Proof. intros Hl. unfold lmax_of. rewrite Z.shiftl_1_l. reflexivity. Qed.

Lemma periodic_loop_first (n i : nat) (d : Key) (lmax : Z) :
  periodic_loop bc n i d lmax true =
  match first_periodic bc n i with
  | Some j => negb ((component d j >? lmax) || (component d j <=? - lmax))
  | None => true
  end.
Proof.
  revert i. induction n as [ | n IH]; intros i; simpl.
  - reflexivity.
  - destruct (bc i 0 =? 1).
    + destruct ((component d i >? lmax) || (component d i <=? - lmax)); reflexivity.
    + apply IH.
Qed.

Lemma first_periodic_range (n i j : nat) :
  first_periodic bc n i = Some j -> (i <= j < i + n)%nat /\ bc j 0 = 1.
Proof.
  revert i. induction n as [ | n IH]; intros i; simpl; [discriminate | ].
  destruct (bc i 0 =? 1) eqn:Hb.
  - intros [= <-]. split; [lia | ]. apply Z.eqb_eq. exact Hb.
  - intros Hj. apply IH in Hj. split; [lia | tauto].
Qed.

(** Every kernel task was submitted for a displacement that passes the
    test on the periodic axis and the screen on the norms. *)
Lemma do_apply_loop_tasks (key : Key) (fac cnorm : Q) (lmax : Z)
    (disp : list Key) (args : do_op_args) :
  In args (fst (do_apply_loop key fac cnorm lmax disp)) ->
  In (a_d args) disp /\
  periodic_doit (a_d args) lmax = true /\
  is_valid (neighbor key (a_d args)) = true /\
  exists tol, truncate_tol f (thresh f) key = Ok tol /\
    args = mkArgs key (a_d args) (neighbor key (a_d args)) tol fac cnorm /\
    screened_in cnorm (norm op (level key) (a_d args)) tol fac = true.
Proof.
  clear parent normf.
  induction disp as [ | d rest IH]; simpl; [tauto | ].
  destruct (periodic_doit d lmax) eqn:Hdoit; simpl; [ | tauto].
  destruct (is_valid (neighbor key d)) eqn:Hvalid.
  - destruct (truncate_tol f (thresh f) key) as [tol | m x] eqn:Htol; simpl; [ | tauto].
    destruct (screened_in cnorm (norm op (level key) d) tol fac) eqn:Hscreen.
    + destruct (do_apply_loop key fac cnorm lmax rest) as [tasks r]. simpl in IH |- *.
      intros [<- | Hin].
      * simpl. repeat split; auto. exists tol. auto.
      * destruct (IH Hin) as (? & ? & ? & ?). auto.
    + destruct (distsq d >=? 1); simpl; [tauto | ].
      intros Hin. destruct (IH Hin) as (? & ? & ? & ?). auto.
  - intros Hin. destruct (IH Hin) as (? & ? & ? & ?). auto.
Qed.

(** While the displacements let the loop continue, the loop over a list is
    the loop over its front followed by the loop over the rest. *)
Lemma do_apply_loop_app (key : Key) (fac cnorm : Q) (lmax : Z) (tol : Q)
    (pre rest : list Key) :
  truncate_tol f (thresh f) key = Ok tol ->
  forallb (continues key fac cnorm lmax tol) pre = true ->
  do_apply_loop key fac cnorm lmax (pre ++ rest) =
  (fst (do_apply_loop key fac cnorm lmax pre)
     ++ fst (do_apply_loop key fac cnorm lmax rest),
   snd (do_apply_loop key fac cnorm lmax rest)).
Proof.
  intros Htol. induction pre as [ | d pre IH]; simpl.
  - intros _. destruct (do_apply_loop key fac cnorm lmax rest); reflexivity.
  - unfold Apply.continues at 1. intros Hc.
    apply andb_true_iff in Hc as [Hc Hpre].
    apply andb_true_iff in Hc as [Hdoit Hc].
    rewrite Hdoit. simpl. rewrite Htol.
    specialize (IH Hpre).
    destruct (is_valid (neighbor key d)); simpl in Hc.
    + destruct (screened_in cnorm (norm op (level key) d) tol fac); simpl in Hc.
      * rewrite IH. destruct (do_apply_loop key fac cnorm lmax pre). reflexivity.
      * destruct (distsq d >=? 1); [discriminate | ]. exact IH.
    + exact IH.
Qed.

Lemma screened_in_iff (cnorm opnorm tol fac : Q) :
  screened_in cnorm opnorm tol fac = true <-> (tol / fac < cnorm * opnorm)%Q.
Proof.
  unfold screened_in. destruct (Qlt_le_dec (tol / fac) (cnorm * opnorm)) as [Hlt | Hle].
  - tauto.
  - split; [discriminate | ]. intros Hlt. exfalso. exact (Qlt_not_le _ _ Hlt Hle).
Qed.

Lemma do_apply_kernel_sends (c : Tensor T) (args : do_op_args) :
  let result := apply op (a_key args) (a_d args) c
                      (a_tol args / a_fac args / a_cnorm args)%Q in
  (((3#10) * a_tol args / a_fac args < normf result)%Q ->
   do_apply_kernel op normf c args = [SendAccumulate (a_dest args) result])
  /\ (~ ((3#10) * a_tol args / a_fac args < normf result)%Q ->
      do_apply_kernel op normf c args = []).
Proof.
  intros result. unfold do_apply_kernel. fold result.
  destruct (Qlt_le_dec ((3#10) * a_tol args / a_fac args) (normf result)) as [Hlt | Hle].
  - split; [reflexivity | ]. intros Hn. contradiction.
  - split; [ | reflexivity]. intros Hlt. exfalso. exact (Qlt_not_le _ _ Hlt Hle).
Qed.

(** The container runs [accumulate] on the entry of [dest]: a missing entry
    is created, receives the tensor, and its parent is told; an entry with
    coefficients has the tensor added to them. *)
Lemma deliver_accumulate (cs : coeffsT T) (dest : Key) (result : Tensor T) :
  (cs !! dest = None ->
   fst (deliver parent (SendAccumulate dest result) cs) !! dest
     = Some (mkNode result norm_tree_unset false)
   /\ (0 < level dest ->
       snd (deliver parent (SendAccumulate dest result) cs)
         = [SetHasChildrenRecursive (parent dest)]))
  /\ (forall node, cs !! dest = Some node -> has_coeff node = true ->
      fst (deliver parent (SendAccumulate dest result) cs) !! dest
        = Some (set_coeff_of node (plus_assign (coeff node) result))
      /\ snd (deliver parent (SendAccumulate dest result) cs) = []).
Proof.
  split.
  - intros Hnone. unfold deliver. rewrite Hnone. simpl.
    unfold accumulate. simpl. split.
    + rewrite lookup_insert_eq. reflexivity.
    + intros Hl. apply Z.gtb_lt in Hl. rewrite Hl. reflexivity.
  - intros node Hsome Hc. unfold deliver. rewrite Hsome. simpl.
    unfold accumulate. rewrite Hc. simpl. rewrite lookup_insert_eq. tauto.
Qed.

(** What [accumulate] does to the entry of [dest] when the container
    delivers the message, in each of its cases, and that no other entry
    changes. *)
Lemma deliver_accumulates (cs : coeffsT T) (dest : Key) (result : Tensor T) :
  let after := deliver parent (SendAccumulate dest result) cs in
  (cs !! dest = None ->
   fst after !! dest = Some (mkNode result norm_tree_unset false)
   /\ (0 < level dest -> snd after = [SetHasChildrenRecursive (parent dest)])
   /\ (level dest <= 0 -> snd after = []))
  /\ (forall node, cs !! dest = Some node -> has_coeff node = true ->
        fst after !! dest
          = Some (mkNode (plus_assign (coeff node) result)
                         (_norm_tree node) (has_children node))
        /\ snd after = [])
  /\ (forall node, cs !! dest = Some node -> has_coeff node = false ->
        fst after !! dest
          = Some (mkNode result (_norm_tree node) (has_children node))
        /\ (has_children node = false -> 0 < level dest ->
            snd after = [SetHasChildrenRecursive (parent dest)])
        /\ (has_children node = true \/ level dest <= 0 -> snd after = []))
  /\ (forall k, k <> dest -> fst after !! k = cs !! k).
Proof.
  intros after. subst after. unfold deliver.
  split; [ | split; [ | split]].
  - intros Hnone. rewrite Hnone. simpl. unfold accumulate. simpl.
    split; [apply lookup_insert_eq | ]. split.
    + intros Hl. apply Z.gtb_lt in Hl. rewrite Hl. reflexivity.
    + intros Hl. assert (Hf : (level dest >? 0) = false)
        by (rewrite Z.gtb_ltb; apply Z.ltb_ge; exact Hl).
      rewrite Hf. reflexivity.
  - intros node Hsome Hc. rewrite Hsome. simpl.
    unfold accumulate. rewrite Hc. simpl. rewrite lookup_insert_eq. tauto.
  - intros node Hsome Hc. rewrite Hsome. simpl.
    unfold accumulate. rewrite Hc. simpl. rewrite lookup_insert_eq.
    split; [reflexivity | ]. unfold has_children. split.
    + intros Hleaf Hl. apply Z.gtb_lt in Hl. rewrite Hleaf, Hl. reflexivity.
    + intros [Hint | Hl].
      * rewrite Hint. reflexivity.
      * assert (Hf : (level dest >? 0) = false)
          by (rewrite Z.gtb_ltb; apply Z.ltb_ge; exact Hl).
        rewrite Hf, andb_false_r. reflexivity.
  - intros k Hne.
    destruct (accumulate parent (default node_default (cs !! dest)) result dest)
      as [node' tasks].
    simpl. apply lookup_insert_ne. congruence.
Qed.

(** C4 (amended).  In [do_apply], with [fac = 3] and
    [tol = truncate_tol(thresh, key)], for every displacement [d] that the
    loop reaches (no earlier displacement ended the loop), that passes the
    test on the periodic axis and whose destination key is valid: a kernel
    task is scheduled for [d] if and only if [cnorm * opnorm > tol / fac];
    the result of the kernel is accumulated into the destination node if
    and only if its norm exceeds [0.3 * tol / fac]: a node that is absent
    is created with the result as its coefficients and registered with
    its parent, a node with coefficients has the result added to them
    element by element, a node without coefficients receives the result,
    and no other node changes; when the norm does not exceed the bound the
    container stays as it is; and when [d] has squared distance at least 1
    and fails the screen, no task is scheduled for [d] or for any
    displacement after it. *)
Theorem do_apply_screening (key : Key) (c : Tensor T) (pre post : list Key)
    (d : Key) (tol : Q) :
  let fac := 3%Q in
  let cnorm := normf c in
  let lmax := lmax_of key in
  let opnorm := norm op (level key) d in
  let dest := neighbor key d in
  get_disp op (level key) = pre ++ d :: post ->
  truncate_tol f (thresh f) key = Ok tol ->
  forallb (continues key fac cnorm lmax tol) pre = true ->
  periodic_doit d lmax = true ->
  is_valid dest = true ->
  (In (mkArgs key d dest tol fac cnorm) (fst (do_apply key c))
   <-> (tol / fac < cnorm * opnorm)%Q)
  /\ (forall args,
        let result := apply op (a_key args) (a_d args) c
                            (a_tol args / a_fac args / a_cnorm args)%Q in
        (((3#10) * a_tol args / a_fac args < normf result)%Q ->
         do_apply_kernel op normf c args = [SendAccumulate (a_dest args) result])
        /\ (~ ((3#10) * a_tol args / a_fac args < normf result)%Q ->
            do_apply_kernel op normf c args = []))
  /\ (forall args (cs : coeffsT T),
        let result := apply op (a_key args) (a_d args) c
                            (a_tol args / a_fac args / a_cnorm args)%Q in
        let dst := a_dest args in
        let after := deliver_all parent (do_apply_kernel op normf c args) cs in
        (((3#10) * a_tol args / a_fac args < normf result)%Q ->
         (cs !! dst = None ->
          fst after !! dst = Some (mkNode result norm_tree_unset false)
          /\ (0 < level dst -> snd after = [SetHasChildrenRecursive (parent dst)])
          /\ (level dst <= 0 -> snd after = []))
         /\ (forall node, cs !! dst = Some node -> has_coeff node = true ->
               (exists node',
                  fst after !! dst = Some node'
                  /\ has_children node' = has_children node
                  /\ _norm_tree node' = _norm_tree node
                  /\ dim (coeff node') = dim (coeff node)
                  /\ forall idx, elem (coeff node') idx
                                 = add (elem (coeff node) idx) (elem result idx))
               /\ snd after = [])
         /\ (forall node, cs !! dst = Some node -> has_coeff node = false ->
               fst after !! dst
                 = Some (mkNode result (_norm_tree node) (has_children node))
               /\ (has_children node = false -> 0 < level dst ->
                   snd after = [SetHasChildrenRecursive (parent dst)])
               /\ (has_children node = true \/ level dst <= 0 -> snd after = []))
         /\ (forall k, k <> dst -> fst after !! k = cs !! k))
        /\ (~ ((3#10) * a_tol args / a_fac args < normf result)%Q ->
            after = (cs, [])))
  /\ (~ (tol / fac < cnorm * opnorm)%Q -> 1 <= distsq d ->
      fst (do_apply key c) = fst (do_apply_loop key fac cnorm lmax pre)).
Proof.
  intros fac cnorm lmax opnorm dest Hdisp Htol Hpre Hdoit Hvalid.
  assert (Hsplit := do_apply_loop_app key fac cnorm lmax tol pre (d :: post) Htol Hpre).
  unfold Apply.do_apply. fold fac cnorm lmax. rewrite Hdisp, Hsplit. simpl fst.
  split; [ | split; [ | split]].
  - split.
    + intros Hin.
      assert (Hin' : In (mkArgs key d dest tol fac cnorm)
                        (fst (do_apply_loop key fac cnorm lmax (pre ++ d :: post))))
        by (rewrite Hsplit; exact Hin).
      apply do_apply_loop_tasks in Hin'. simpl in Hin'.
      destruct Hin' as (_ & _ & _ & tol' & Htol' & _ & Hscreen).
      rewrite Htol in Htol'. injection Htol' as <-.
      apply screened_in_iff. exact Hscreen.
    + intros Hlt. apply in_or_app. right. simpl.
      rewrite Hdoit. simpl. fold dest. rewrite Hvalid, Htol.
      apply screened_in_iff in Hlt. fold opnorm. rewrite Hlt.
      destruct (do_apply_loop key fac cnorm lmax post). simpl. left. reflexivity.
  - intros args. apply do_apply_kernel_sends.
  - intros args cs.
    destruct (do_apply_kernel_sends c args) as [Hsend Hnone].
    set (result := apply op (a_key args) (a_d args) c
                         (a_tol args / a_fac args / a_cnorm args)%Q) in *.
    split.
    + intros Hbig. rewrite (Hsend Hbig).
      unfold deliver_all. cbn [fold_left fst snd].
      destruct (deliver_accumulates cs (a_dest args) result)
        as (Habsent & Hadd & Hset & Hother).
      destruct (deliver parent (SendAccumulate (a_dest args) result) cs)
        as [c' tasks].
      cbn [fst snd app] in Habsent, Hadd, Hset, Hother |- *.
      split; [exact Habsent | ]. split; [ | split; [exact Hset | exact Hother]].
      intros node Hnode Hc. destruct (Hadd node Hnode Hc) as [Hlook Htasks].
      split; [ | exact Htasks].
      eexists. split; [exact Hlook | ]. simpl. repeat split.
    + intros Hsmall. rewrite (Hnone Hsmall). reflexivity.
  - intros Hn Hdist. simpl. rewrite Hdoit. simpl. fold dest. rewrite Hvalid, Htol.
    fold opnorm.
    destruct (screened_in cnorm opnorm tol fac) eqn:Hscreen.
    + apply screened_in_iff in Hscreen. contradiction.
    + assert (Hge : (distsq d >=? 1) = true) by (apply Z.geb_le; exact Hdist).
      rewrite Hge. simpl. apply app_nil_r.
Qed.

(** C5 (amended).  In [do_apply] at a source key of level [n >= 1], with
    [lmax = 2^(n-1)]: a displacement whose component along the first
    periodic axis is greater than [lmax] or at most [-lmax] fails the test
    and no kernel task is scheduled for it; a displacement whose component
    [l_i] satisfies [-lmax < l_i <= lmax] along every periodic axis passes
    the test. *)
Theorem periodic_displacement_cap (key : Key) (c : Tensor T) :
  1 <= level key ->
  let lmax := lmax_of key in
  lmax = 2 ^ (level key - 1)
  /\ (forall d i,
        first_periodic bc NDIM 0 = Some i ->
        (lmax < component d i \/ component d i <= - lmax) ->
        periodic_doit d lmax = false
        /\ forall args, In args (fst (do_apply key c)) -> a_d args <> d)
  /\ (forall d,
        (forall i, (i < NDIM)%nat -> bc i 0 = 1 ->
                   (- lmax < component d i <= lmax)) ->
        periodic_doit d lmax = true).
Proof.
  clear parent.
  intros Hlevel lmax. split; [apply lmax_of_pow; exact Hlevel | ]. split.
  - intros d i Hfirst Hout.
    assert (Hfalse : periodic_doit d lmax = false).
    { unfold Apply.periodic_doit. rewrite periodic_loop_first, Hfirst.
      apply negb_false_iff, orb_true_iff.
      destruct Hout as [Hgt | Hle].
      - left. apply Z.gtb_lt. exact Hgt.
      - right. apply Z.leb_le. exact Hle. }
    split; [exact Hfalse | ].
    intros args Hin Heq. apply do_apply_loop_tasks in Hin.
    destruct Hin as (_ & Hdoit & _). fold lmax in Hdoit.
    rewrite Heq, Hfalse in Hdoit. discriminate.
  - intros d Hcap. unfold Apply.periodic_doit. rewrite periodic_loop_first.
    destruct (first_periodic bc NDIM 0) as [j | ] eqn:Hfirst; [ | reflexivity].
    apply first_periodic_range in Hfirst as [Hj Hbc].
    specialize (Hcap j ltac:(lia) Hbc).
    apply negb_true_iff, orb_false_iff. split.
    + rewrite Z.gtb_ltb. apply Z.ltb_ge. lia.
    + apply Z.leb_gt. lia.
Qed.

End WithOperator.

Lemma do_apply_screening_witness :
  let d := mkKey 1 [1] in
  let dest := ex_neighbor ex_key d in
  let tol := (1#1000)%Q in
  (In (mkArgs ex_key d dest tol 3 (ex_normf ex_c))
      (fst (ex_do_apply [mkKey 1 [0]; d] (fun _ => 1%Q)))
   <-> (tol / 3 < ex_normf ex_c * 1)%Q)
  /\ (~ (tol / 3 < ex_normf ex_c * 1)%Q -> 1 <= ex_distsq d ->
      fst (ex_do_apply [mkKey 1 [0]; d] (fun _ => 1%Q))
      = fst (do_apply_loop (ex_op [mkKey 1 [0]; d] (fun _ => 1%Q)) ex_neighbor
               ex_is_valid ex_distsq ex_bc 1 ex_settings ex_key 3
               (ex_normf ex_c) (lmax_of ex_key) [mkKey 1 [0]])).
Proof.
  intros d dest tol.
  pose proof (do_apply_screening (ex_op [mkKey 1 [0]; d] (fun _ => 1%Q))
                ex_normf ex_neighbor ex_is_valid ex_distsq ex_parent ex_bc 1
                ex_settings ex_key ex_c [mkKey 1 [0]] [] d tol
                eq_refl eq_refl eq_refl eq_refl eq_refl) as (H1 & _ & _ & H4).
  split; [exact H1 | exact H4].
Defined.

Lemma periodic_displacement_cap_witness :
  lmax_of ex_key = 2 ^ (level ex_key - 1)
  /\ periodic_doit ex_bc 1 (mkKey 1 [2]) (lmax_of ex_key) = false
  /\ periodic_doit ex_bc 1 (mkKey 1 [1]) (lmax_of ex_key) = true.
Proof.
  pose proof (periodic_displacement_cap (ex_op [] (fun _ => 1%Q)) ex_normf
                ex_neighbor ex_is_valid ex_distsq ex_bc 1 ex_settings
                ex_key ex_c ltac:(simpl; lia)) as (H1 & H2 & H3).
  split; [exact H1 | ]. split.
  - apply (H2 (mkKey 1 [2]) 0%nat eq_refl). left. vm_compute. reflexivity.
  - apply H3. intros i Hi _. assert (i = 0%nat) as -> by lia. vm_compute.
    split; [reflexivity | discriminate].
Defined.

(** C4 as stated fails where the periodic test or an earlier displacement
    ends the loop: the destination is valid and [cnorm * opnorm > tol / fac],
    and no kernel task is scheduled. *)
Lemma do_apply_screening_counterexample :
  let tol := (1#1000)%Q in
  (let d := mkKey 1 [2] in
   ex_is_valid (ex_neighbor ex_key d) = true
   /\ (tol / 3 < ex_normf ex_c * 1)%Q
   /\ fst (ex_do_apply [d] (fun _ => 1%Q)) = [])
  /\ (let far := mkKey 1 [1] in
      let d := mkKey 1 [0] in
      ex_is_valid (ex_neighbor ex_key d) = true
      /\ (tol / 3 < ex_normf ex_c * 1)%Q
      /\ fst (ex_do_apply [far; d]
                (fun x => if decide (x = far) then 0%Q else 1%Q)) = []).
Proof.
  vm_compute. repeat split; reflexivity.
Qed.

(** C5 as stated fails at a displacement of [-2^(n-1)] along the periodic
    axis: its absolute value does not exceed [2^(n-1)], and the test
    excludes it. *)
Lemma periodic_displacement_cap_counterexample :
  let d := mkKey 1 [-1] in
  Z.abs (component d 0) <= 2 ^ (level ex_key - 1)
  /\ periodic_doit ex_bc 1 d (lmax_of ex_key) = false
  /\ ex_is_valid (ex_neighbor ex_key d) = true
  /\ fst (ex_do_apply [d] (fun _ => 1%Q)) = [].
Proof.
  vm_compute. repeat split; try reflexivity. discriminate.
Qed.

End ApplyFacts.

(** ** Nodes and the compressed tree *)

Module MraFacts.
Import Tensors Mra.

Section WithScalar.
Context {T : Type} `{Scalar T}.

(** C6.  [gaxpy_inplace(alpha, other, beta)] sets [has_children] to
    [this.has_children || other.has_children] and merges the coefficients
    as [this <- alpha*this + beta*other], a missing tensor counting as
    zero: both present (and of one shape), element-wise
    [alpha*this + beta*other]; only [this], [alpha*this]; only [other],
    [beta*other]; neither, [this] stays without coefficients.  Nothing else
    of the node changes.  Multiplication of scalars is commutative. *)
Theorem gaxpy_inplace_merge (this other : FunctionNode T) (alpha beta : T) :
  (forall x y : T, mul x y = mul y x) ->
  let r := gaxpy_inplace this alpha other beta in
  has_children r = has_children this || has_children other
  /\ _norm_tree r = _norm_tree this
  /\ (has_coeff this = true -> has_coeff other = true ->
      dim (coeff this) = dim (coeff other) ->
      dim (coeff r) = dim (coeff this)
      /\ forall idx, elem (coeff r) idx
           = add (mul alpha (elem (coeff this) idx))
                 (mul beta (elem (coeff other) idx)))
  /\ (has_coeff this = true -> has_coeff other = false ->
      dim (coeff r) = dim (coeff this)
      /\ forall idx, elem (coeff r) idx = mul alpha (elem (coeff this) idx))
  /\ (has_coeff this = false -> has_coeff other = true ->
      dim (coeff r) = dim (coeff other)
      /\ forall idx, elem (coeff r) idx = mul beta (elem (coeff other) idx))
  /\ (has_coeff this = false -> has_coeff other = false ->
      coeff r = coeff this /\ has_coeff r = false).
Proof.
  intros Hcomm r. subst r. unfold gaxpy_inplace.
  assert (Hc : forall b, has_coeff (set_has_children this b) = has_coeff this)
    by reflexivity.
  destruct (has_children other) eqn:Hoc.
  - rewrite Hc. destruct (has_coeff this) eqn:Ht, (has_coeff other) eqn:Ho;
      simpl; rewrite ?orb_true_r;
      repeat split; try discriminate; try reflexivity; try (intros; apply Hcomm);
      try exact Ht.
  - destruct (has_coeff this) eqn:Ht, (has_coeff other) eqn:Ho;
      simpl; unfold has_children; rewrite ?orb_false_r;
      repeat split; try discriminate; try reflexivity; try (intros; apply Hcomm);
      try exact Ht.
Qed.

Section Compressed.
Variable cdata : CommonData.
Variable filter : Tensor T -> Tensor T.
Variable uninitialized : list Z -> T.

(** *** [standard] *)

Lemma standard_lookup (c : coeffsT T) (key : Key) :
  standard cdata c !! key = standard_node cdata key <$> (c !! key).
Proof.
  unfold standard. rewrite map_lookup_imap.
  destruct (c !! key); reflexivity.
Qed.

(** C7 (amended).  [standard()] visits every entry of the container.  At
    a key of level greater than 0 whose node has coefficients: a node with
    children has the scaling sub-block [s0] of its coefficients set to
    zero, the rest of the tensor staying as it was, and a leaf loses its
    coefficient tensor.  The root and the nodes without coefficients stay
    as they are, and [has_children] and [norm_tree] never change. *)
Theorem standard_nodes (c : coeffsT T) (key : Key) :
  standard cdata c !! key = standard_node cdata key <$> (c !! key)
  /\ forall node, c !! key = Some node ->
     let node' := standard_node cdata key node in
     _has_children node' = _has_children node
     /\ _norm_tree node' = _norm_tree node
     /\ (0 < level key -> has_coeff node = true -> has_children node = true ->
         zero_on (cd_s0 cdata) (coeff node')
         /\ dim (coeff node') = dim (coeff node)
         /\ forall idx, in_slices (cd_s0 cdata) idx = false ->
                        elem (coeff node') idx = elem (coeff node) idx)
     /\ (0 < level key -> has_coeff node = true -> has_children node = false ->
         coeff node' = empty_tensor /\ has_coeff node' = false)
     /\ (level key <= 0 \/ has_coeff node = false -> node' = node).
Proof.
  split; [apply standard_lookup | ].
  intros node _ node'. subst node'. unfold standard_node.
  destruct (level key >? 0) eqn:Hl; simpl.
  - apply Z.gtb_lt in Hl.
    destruct (has_coeff node) eqn:Hc; simpl.
    + destruct (has_children node) eqn:Hch; simpl.
      * repeat split; try discriminate; try reflexivity.
        -- intros idx Hin. simpl. rewrite Hin. reflexivity.
        -- intros idx Hin. simpl. rewrite Hin. reflexivity.
        -- intros [Hle | Hf]; [lia | discriminate].
      * repeat split; try discriminate; try reflexivity.
        intros [Hle | Hf]; [lia | discriminate].
    + repeat split; try discriminate; reflexivity.
  - assert (level key <= 0) by (rewrite Z.gtb_ltb in Hl; apply Z.ltb_ge in Hl; lia).
    repeat split; try reflexivity; intros; lia.
Qed.

(** *** [compress_op]: assembling the blocks of the children *)

Local Abbreviation step :=
  (fun (d : Tensor T) (kv : Key * Tensor T) =>
     assign_slice d (child_patch cdata (fst kv)) (snd kv)).

Lemma fold_assign_dim (l : list (Key * Tensor T)) (d0 : Tensor T) :
  dim (fold_left step l d0) = dim d0.
Proof.
  revert d0. induction l as [ | kv l IH]; intros d0; simpl; [reflexivity | ].
  rewrite IH. reflexivity.
Qed.

Lemma fold_assign_outside (l : list (Key * Tensor T)) (d0 : Tensor T)
    (idx : list Z) :
  (forall kv, In kv l -> in_slices (child_patch cdata (fst kv)) idx = false) ->
  elem (fold_left step l d0) idx = elem d0 idx.
Proof.
  revert d0. induction l as [ | kv l IH]; intros d0 Hout; simpl; [reflexivity | ].
  rewrite IH.
  - simpl. rewrite (Hout kv); [reflexivity | left; reflexivity].
  - intros kv' Hin. apply Hout. right. exact Hin.
Qed.

Lemma fold_assign_at (l : list (Key * Tensor T)) (d0 : Tensor T) (i : nat)
    (p : Key) (t : Tensor T) (idx : list Z) :
  nth_error l i = Some (p, t) ->
  in_slices (child_patch cdata p) idx = true ->
  (forall j kv, j <> i -> nth_error l j = Some kv ->
                in_slices (child_patch cdata (fst kv)) idx = false) ->
  elem (fold_left step l d0) idx = elem t (local_index (child_patch cdata p) idx).
Proof.
  revert d0 i. induction l as [ | kv l IH]; intros d0 i Hi Hin Hother.
  - destruct i; discriminate.
  - destruct i as [ | i]; simpl in Hi.
    + injection Hi as ->. simpl. rewrite fold_assign_outside.
      * simpl. rewrite Hin. reflexivity.
      * intros kv' Hkv'. apply In_nth_error in Hkv' as [j Hj].
        apply (Hother (S j)); [discriminate | exact Hj].
    + simpl. apply (IH _ i Hi Hin).
      intros j kv' Hne Hj. apply (Hother (S j)); [lia | exact Hj].
Qed.

Lemma bit_patterns_spec (n : nat) (bits : list Z) :
  In bits (bit_patterns n) -> length bits = n /\ is_bits bits.
Proof.
  revert bits. induction n as [ | n IH]; intros bits; simpl.
  - intros [<- | []]. split; [reflexivity | constructor].
  - rewrite in_flat_map. intros (p & Hp & Hin). apply IH in Hp as [Hlen Hb].
    destruct Hin as [<- | [<- | []]]; (split; [simpl; lia | constructor; auto]).
Qed.

Lemma bit_patterns_NoDup (n : nat) : List.NoDup (bit_patterns n).
Proof.
  induction n as [ | n IH]; simpl.
  - constructor; [intros [] | constructor].
  - induction IH as [ | p l Hnotin Hnd IHl]; simpl; [constructor | ].
    constructor; [ | constructor; [ | exact IHl]].
    + intros [Heq | Hin]; [discriminate | ].
      apply in_flat_map in Hin as (q & Hq & [Heq | [Heq | []]]);
        (discriminate || (injection Heq as ->; contradiction)).
    + intros Hin.
      apply in_flat_map in Hin as (q & Hq & [Heq | [Heq | []]]);
        (discriminate || (injection Heq as ->; contradiction)).
Qed.

Lemma land_child_bit (l b : Z) : b = 0 \/ b = 1 -> Z.land (2 * l + b) 1 = b.
Proof.
  intros Hb. change (Z.land (2 * l + b) 1) with (Z.land (2 * l + b) (Z.ones 1)).
  rewrite Z.land_ones by lia.
  change (2 ^ 1) with 2. destruct Hb as [-> | ->].
  - rewrite Z.add_0_r, Z.mul_comm. apply Z.mod_mul. lia.
  - rewrite Z.mul_comm, Z.add_comm, Z.mod_add by lia. reflexivity.
Qed.

Lemma child_patch_bits (key : Key) (bits : list Z) :
  length (translation key) = length bits -> is_bits bits ->
  child_patch cdata (child_of key bits) = map (cd_s cdata) bits.
Proof.
  unfold child_patch, child_of. simpl.
  generalize (translation key) as tr. intros tr. revert bits.
  induction tr as [ | l tr IH]; intros [ | b bits] Hlen Hb; simpl in *;
    try discriminate; [reflexivity | ].
  inversion Hb; subst. rewrite land_child_bit by assumption.
  f_equal. apply IH; [lia | assumption].
Qed.

Lemma slices_disjoint (bits1 bits2 : list Z) (idx : list Z) :
  is_bits bits1 -> is_bits bits2 ->
  in_slices (map (cd_s cdata) bits1) idx = true ->
  in_slices (map (cd_s cdata) bits2) idx = true ->
  bits1 = bits2.
Proof.
  revert bits2 idx.
  induction bits1 as [ | b1 bits1 IH]; intros [ | b2 bits2] [ | x idx] H1 H2;
    simpl; try discriminate; try reflexivity.
  intros Ha Hb. apply andb_true_iff in Ha as [Ha Ha'], Hb as [Hb Hb'].
  inversion H1 as [ | ? ? Hbit1 H1']; subst. inversion H2 as [ | ? ? Hbit2 H2']; subst.
  f_equal.
  - unfold in_slice, cd_s in Ha, Hb. simpl in Ha, Hb.
    apply andb_true_iff in Ha as [Ha1 Ha2], Hb as [Hb1 Hb2].
    apply Z.leb_le in Ha1, Ha2, Hb1, Hb2.
    destruct Hbit1 as [-> | ->], Hbit2 as [-> | ->]; lia.
  - apply (IH bits2 idx); assumption.
Qed.

Lemma nth_error_combine {A B : Type} (l1 : list A) (l2 : list B) (i : nat)
    (a : A) (b : B) :
  nth_error (combine l1 l2) i = Some (a, b) <->
  nth_error l1 i = Some a /\ nth_error l2 i = Some b.
Proof.
  revert l2 i. induction l1 as [ | x l1 IH]; intros [ | y l2] [ | i]; simpl;
    try (split; [discriminate | intros []; discriminate]).
  - split; [intros [= -> ->]; tauto | intros [[= ->] [= ->]]; reflexivity].
  - apply IH.
Qed.

(** The block assembled by [compress_op] has shape [(2k)^d] and holds, in
    the patch of each child, the block that child returned. *)
Lemma assemble_blocks (key : Key) (v : list (Tensor T)) :
  length (translation key) = cd_ndim cdata ->
  dim (assemble cdata uninitialized key v) = cd_v2k cdata
  /\ forall i bits vi idx,
       nth_error (bit_patterns (cd_ndim cdata)) i = Some bits ->
       nth_error v i = Some vi ->
       in_slices (child_patch cdata (child_of key bits)) idx = true ->
       elem (assemble cdata uninitialized key v) idx
         = elem vi (local_index (child_patch cdata (child_of key bits)) idx).
Proof.
  intros Hlen. unfold assemble. split; [apply fold_assign_dim | ].
  intros i bits vi idx Hbits Hvi Hin.
  apply (fold_assign_at _ _ i (child_of key bits) vi idx); [ | exact Hin | ].
  - apply nth_error_combine. split; [ | exact Hvi].
    unfold children. rewrite nth_error_map, Hbits. reflexivity.
  - intros j [c t] Hne Hj. simpl.
    apply nth_error_combine in Hj as [Hc _].
    unfold children in Hc. rewrite nth_error_map in Hc.
    destruct (nth_error (bit_patterns (cd_ndim cdata)) j) as [bits' | ] eqn:Hj;
      [ | discriminate].
    injection Hc as <-.
    destruct (in_slices (child_patch cdata (child_of key bits')) idx) eqn:Hin';
      [exfalso | reflexivity].
    pose proof (bit_patterns_spec _ _ (nth_error_In _ _ Hbits)) as [Hl1 Hb1].
    pose proof (bit_patterns_spec _ _ (nth_error_In _ _ Hj)) as [Hl2 Hb2].
    rewrite child_patch_bits in Hin, Hin' by (assumption || lia).
    pose proof (slices_disjoint _ _ _ Hb1 Hb2 Hin Hin') as Heq. subst bits'.
    apply Hne.
    pose proof (bit_patterns_NoDup (cd_ndim cdata)) as Hnd.
    rewrite NoDup_nth_error in Hnd. symmetry. apply Hnd; [ | congruence].
    apply nth_error_Some. congruence.
Qed.

(** *** [compress_op]: what is returned and what is stored *)

Lemma compress_op_stores (key : Key) (v : list (Tensor T)) (ns : bool)
    (c : coeffsT T) :
  let d := filter (assemble cdata uninitialized key v) in
  let s := fst (compress_op cdata filter uninitialized key v ns c) in
  let c' := snd (compress_op cdata filter uninitialized key v ns c) in
  (dim s = map extent (cd_s0 cdata)
   /\ forall idx, elem s idx = elem d (view_index (cd_s0 cdata) idx))
  /\ (exists node,
        c' !! key = Some node
        /\ has_children node = true
        /\ dim (coeff node) = dim d
        /\ (forall idx, in_slices (cd_s0 cdata) idx = false ->
                        elem (coeff node) idx = elem d idx)
        /\ (0 < level key -> ns = false -> zero_on (cd_s0 cdata) (coeff node))
        /\ (level key <= 0 \/ ns = true ->
            forall idx, elem (coeff node) idx = elem d idx))
  /\ (forall key', key' <> key -> c' !! key' = c !! key').
Proof.
  intros d s c'. subst s c'. unfold compress_op. fold d. simpl.
  split; [split; reflexivity | ]. split.
  - eexists. split; [apply lookup_insert_eq | ]. simpl.
    split; [reflexivity | ].
    destruct (level key >? 0) eqn:Hl; simpl.
    + apply Z.gtb_lt in Hl. destruct ns; simpl.
      * repeat split; try reflexivity. intros _ [=].
      * repeat split; try reflexivity.
        -- intros idx Hout. simpl. rewrite Hout. reflexivity.
        -- intros _ _ idx Hin. simpl. rewrite Hin. reflexivity.
        -- intros [Hle | [=]]. lia.
    + rewrite Z.gtb_ltb in Hl. apply Z.ltb_ge in Hl.
      repeat split; try reflexivity. intros Hpos. lia.
  - intros key' Hne. apply lookup_insert_ne. congruence.
Qed.

(** *** The scaling blocks after [compress] *)

Lemma compress_op_keeps_zero (key : Key) (v : list (Tensor T)) (c : coeffsT T) :
  interior_s0_zero cdata c ->
  interior_s0_zero cdata (snd (compress_op cdata filter uninitialized key v false c)).
Proof.
  intros Hinv key' node Hlook Hl Hch Hc.
  destruct (decide (key' = key)) as [-> | Hne].
  - destruct (compress_op_stores key v false c) as (_ & (node' & Hn & _ & _ & _ & Hz & _) & _).
    rewrite Hn in Hlook. injection Hlook as <-. apply Hz; [exact Hl | reflexivity].
  - destruct (compress_op_stores key v false c) as (_ & _ & Hother).
    rewrite (Hother key' Hne) in Hlook. exact (Hinv key' node Hlook Hl Hch Hc).
Qed.

Lemma clear_coeff_keeps_zero (key : Key) (node : FunctionNode T) (c : coeffsT T) :
  interior_s0_zero cdata c ->
  interior_s0_zero cdata (<[key := clear_coeff node]> c).
Proof.
  intros Hinv key' node' Hlook Hl Hch Hc.
  destruct (decide (key' = key)) as [-> | Hne].
  - rewrite lookup_insert_eq in Hlook. injection Hlook as <-. discriminate.
  - rewrite lookup_insert_ne in Hlook by congruence.
    exact (Hinv key' node' Hlook Hl Hch Hc).
Qed.

Lemma spawn_child_stuck
    (rec : Key -> coeffsT T -> option (result (Tensor T * coeffsT T)))
    (l : list Key) (acc : option (result (list (Tensor T) * coeffsT T))) :
  (forall x, acc <> Some (Ok x)) ->
  forall x, fold_left (spawn_child rec) l acc <> Some (Ok x).
Proof.
  revert acc. induction l as [ | child l IH]; intros acc Hacc; simpl; [exact Hacc | ].
  apply IH. intros x. destruct acc as [[[v c] | m e] | ]; simpl.
  - exfalso. exact (Hacc (v, c) eq_refl).
  - discriminate.
  - discriminate.
Qed.

Lemma spawn_children_keep_zero
    (rec : Key -> coeffsT T -> option (result (Tensor T * coeffsT T)))
    (l : list Key) :
  (forall k c s c', interior_s0_zero cdata c -> rec k c = Some (Ok (s, c')) ->
                    interior_s0_zero cdata c') ->
  forall v c v' c',
    interior_s0_zero cdata c ->
    fold_left (spawn_child rec) l (Some (Ok (v, c))) = Some (Ok (v', c')) ->
    interior_s0_zero cdata c'.
Proof.
  intros Hrec. induction l as [ | child l IH]; intros v c v' c' Hinv; simpl.
  - intros [= <- <-]. exact Hinv.
  - destruct (rec child c) as [[[s c1] | m e] | ] eqn:Hchild.
    + apply IH. exact (Hrec child c s c1 Hinv Hchild).
    + intros Hfold. exfalso.
      refine (spawn_child_stuck rec l _ _ _ Hfold). intros x. discriminate.
    + intros Hfold. exfalso.
      refine (spawn_child_stuck rec l _ _ _ Hfold). intros x. discriminate.
Qed.

Lemma compress_spawn_keeps_zero (fuel : nat) (key : Key) (keepleaves : bool)
    (c : coeffsT T) (s : Tensor T) (c' : coeffsT T) :
  interior_s0_zero cdata c ->
  compress_spawn cdata filter uninitialized fuel key false keepleaves c
    = Some (Ok (s, c')) ->
  interior_s0_zero cdata c'.
Proof.
  revert key c s c'. induction fuel as [ | fuel IH]; intros key c s c' Hinv;
    simpl; [discriminate | ].
  destruct (c !! key) as [node | ] eqn:Hnode; [ | discriminate].
  destruct (has_children node).
  - destruct (fold_left _ _ _) as [[[v c1] | m e] | ] eqn:Hfold; try discriminate.
    intros [= <- <-].
    apply compress_op_keeps_zero.
    apply (spawn_children_keep_zero _ _ (fun k c0 s0 c0' Hi Hr => IH k c0 s0 c0' Hi Hr)
             _ _ _ _ Hinv Hfold).
  - intros [= <- <-]. destruct keepleaves; [exact Hinv | ].
    apply clear_coeff_keeps_zero. exact Hinv.
Qed.

(** *** [compress] returns on a complete tree *)

Lemma same_shape_refl (c : coeffsT T) : same_shape c c.
Proof. intros key. reflexivity. Qed.

Lemma same_shape_trans (c1 c2 c3 : coeffsT T) :
  same_shape c1 c2 -> same_shape c2 c3 -> same_shape c1 c3.
Proof. intros H12 H23 key. rewrite (H12 key). apply H23. Qed.

Lemma same_shape_insert (key : Key) (node node' : FunctionNode T) (c : coeffsT T) :
  c !! key = Some node -> has_children node' = has_children node ->
  same_shape c (<[key := node']> c).
Proof.
  intros Hnode Hflag key'. destruct (decide (key' = key)) as [-> | Hne].
  - rewrite lookup_insert_eq, Hnode. simpl. rewrite Hflag. reflexivity.
  - rewrite lookup_insert_ne by congruence. reflexivity.
Qed.

Lemma complete_same_shape (n : nat) (key : Key) (c c' : coeffsT T) :
  same_shape c c' -> complete cdata n key c -> complete cdata n key c'.
Proof.
  intros Hshape. revert key. induction n as [ | n IH]; intros key; simpl.
  - specialize (Hshape key).
    destruct (c !! key) as [node | ]; [ | tauto].
    destruct (c' !! key) as [node' | ]; [ | discriminate].
    injection Hshape as <-. tauto.
  - specialize (Hshape key).
    destruct (c !! key) as [node | ]; [ | tauto].
    destruct (c' !! key) as [node' | ]; [ | discriminate].
    injection Hshape as <-.
    destruct (has_children node); [ | tauto].
    intros Hall. eapply List.Forall_impl; [ | exact Hall]. intros k. apply IH.
Qed.

Lemma spawn_children_same_shape
    (rec : Key -> coeffsT T -> option (result (Tensor T * coeffsT T)))
    (l : list Key) :
  (forall k c s c', rec k c = Some (Ok (s, c')) -> same_shape c c') ->
  forall v c v' c',
    fold_left (spawn_child rec) l (Some (Ok (v, c))) = Some (Ok (v', c')) ->
    same_shape c c'.
Proof.
  intros Hrec. induction l as [ | child l IH]; intros v c v' c'; simpl.
  - intros [= <- <-]. apply same_shape_refl.
  - destruct (rec child c) as [[[s c1] | m e] | ] eqn:Hchild.
    + intros Hfold. apply (same_shape_trans c c1 c').
      * exact (Hrec child c s c1 Hchild).
      * exact (IH _ _ _ _ Hfold).
    + intros Hfold. exfalso.
      refine (spawn_child_stuck rec l _ _ _ Hfold). intros x. discriminate.
    + intros Hfold. exfalso.
      refine (spawn_child_stuck rec l _ _ _ Hfold). intros x. discriminate.
Qed.

Lemma compress_spawn_same_shape (fuel : nat) (key : Key) (ns keepleaves : bool)
    (c : coeffsT T) (s : Tensor T) (c' : coeffsT T) :
  compress_spawn cdata filter uninitialized fuel key ns keepleaves c
    = Some (Ok (s, c')) ->
  same_shape c c'.
Proof.
  revert key c s c'. induction fuel as [ | fuel IH]; intros key c s c';
    simpl; [discriminate | ].
  destruct (c !! key) as [node | ] eqn:Hnode; [ | discriminate].
  destruct (has_children node) eqn:Hflag.
  - destruct (fold_left _ _ _) as [[[v c1] | m e] | ] eqn:Hfold; try discriminate.
    intros [= <- <-].
    assert (H1 : same_shape c c1)
      by exact (spawn_children_same_shape _ _ (fun k c0 s0 c0' Hr => IH k c0 s0 c0' Hr)
                  _ _ _ _ Hfold).
    apply (same_shape_trans c c1); [exact H1 | ].
    pose proof (H1 key) as Hkey. rewrite Hnode in Hkey.
    destruct (c1 !! key) as [node1 | ] eqn:Hnode1; [ | discriminate].
    injection Hkey as Hkey.
    apply (same_shape_insert key node1); [exact Hnode1 | ].
    simpl. rewrite <- Hkey. symmetry. exact Hflag.
  - intros [= <- <-]. destruct keepleaves; [apply same_shape_refl | ].
    apply (same_shape_insert key node); [exact Hnode | reflexivity].
Qed.

Lemma spawn_children_return (n : nat) (ns keepleaves : bool) (l : list Key) :
  (forall key c, complete cdata n key c ->
     exists s c', compress_spawn cdata filter uninitialized (S n) key ns keepleaves c
                  = Some (Ok (s, c'))) ->
  forall v c,
    Forall (fun k => complete cdata n k c) l ->
    exists v' c',
      fold_left
        (spawn_child
           (fun k c0 => compress_spawn cdata filter uninitialized (S n) k ns keepleaves c0))
        l (Some (Ok (v, c))) = Some (Ok (v', c')).
Proof.
  intros Hrec. induction l as [ | child l IH]; intros v c Hall.
  - exists v, c. reflexivity.
  - apply Forall_cons_iff in Hall as [Hchild Hrest].
    destruct (Hrec child c Hchild) as (s & c1 & Hs).
    destruct (IH (v ++ [s]) c1) as (v' & c' & Hfold).
    + eapply List.Forall_impl; [ | exact Hrest]. intros k.
      apply complete_same_shape. exact (compress_spawn_same_shape _ _ _ _ _ _ _ Hs).
    + exists v', c'.
      change (fold_left ?f (child :: l) ?a) with (fold_left f l (f a child)).
      unfold spawn_child at 2. rewrite Hs. exact Hfold.
Qed.

Lemma compress_spawn_returns (n : nat) (key : Key) (ns keepleaves : bool)
    (c : coeffsT T) :
  complete cdata n key c ->
  exists s c',
    compress_spawn cdata filter uninitialized (S n) key ns keepleaves c
      = Some (Ok (s, c')).
Proof.
  revert key c. induction n as [ | n IH]; intros key c Hc.
  - simpl in Hc |- *. destruct (c !! key) as [node | ]; [ | contradiction].
    destruct (has_children node); [contradiction | ].
    eexists. eexists. reflexivity.
  - change (complete cdata (S n) key c)
      with (match c !! key with
            | None => False
            | Some node =>
              if has_children node
              then Forall (fun k => complete cdata n k c) (children cdata key)
              else True
            end) in Hc.
    change (compress_spawn cdata filter uninitialized (S (S n)) key ns keepleaves c)
      with (match c !! key with
            | None => Some (Exception "MADNESS_ASSERT: coeffs.probe(key)" 0)
            | Some node =>
              if has_children node then
                match fold_left
                        (spawn_child
                           (fun k c0 => compress_spawn cdata filter uninitialized (S n)
                                          k ns keepleaves c0))
                        (children cdata key) (Some (Ok ([], c))) with
                | Some (Ok (v, c1)) =>
                  Some (Ok (compress_op cdata filter uninitialized key v ns c1))
                | Some (Exception m x) => Some (Exception m x)
                | None => None
                end
              else
                Some (Ok (coeff node,
                          if keepleaves then c
                          else <[key := clear_coeff node]> c))
            end).
    destruct (c !! key) as [node | ]; [ | contradiction].
    destruct (has_children node).
    + destruct (spawn_children_return n ns keepleaves (children cdata key) IH [] c Hc)
        as (v' & c' & Hfold).
      rewrite Hfold.
      destruct (compress_op cdata filter uninitialized key v' ns c') as [s c2].
      exists s, c2. reflexivity.
    + eexists. eexists. reflexivity.
Qed.

(** *** What [compress] leaves in the tree *)

Local Abbreviation visited ns kl := (compressed_node cdata filter uninitialized ns kl).

(** Every entry is as it was or is a node written by a visit. *)
Local Abbreviation rewritten ns kl c c' :=
  (same_shape c c'
   /\ forall k, c' !! k = c !! k
                \/ exists node', c' !! k = Some node' /\ visited ns kl k node').

Lemma rewritten_refl (ns kl : bool) (c : coeffsT T) : rewritten ns kl c c.
Proof. split; [apply same_shape_refl | ]. intros k. left. reflexivity. Qed.

Lemma rewritten_trans (ns kl : bool) (c1 c2 c3 : coeffsT T) :
  rewritten ns kl c1 c2 -> rewritten ns kl c2 c3 -> rewritten ns kl c1 c3.
Proof.
  intros [S12 H12] [S23 H23]. split; [exact (same_shape_trans _ _ _ S12 S23) | ].
  intros k. destruct (H23 k) as [Heq | Hw]; [ | right; exact Hw].
  rewrite Heq. apply H12.
Qed.

Lemma compress_op_visited (key : Key) (v : list (Tensor T)) (ns kl : bool)
    (c : coeffsT T) :
  exists node,
    snd (compress_op cdata filter uninitialized key v ns c) !! key = Some node
    /\ has_children node = true
    /\ visited ns kl key node.
Proof.
  destruct (compress_op_stores key v ns c)
    as (_ & (node & Hn & Hch & _ & _ & Hz & _) & _).
  exists node. split; [exact Hn | ]. split; [exact Hch | ].
  unfold compressed_node. rewrite Hch. split; [ | exact Hz].
  exists v, c. exact Hn.
Qed.

Lemma compress_op_rewritten (key : Key) (v : list (Tensor T)) (ns kl : bool)
    (c : coeffsT T) (node : FunctionNode T) :
  c !! key = Some node -> has_children node = true ->
  rewritten ns kl c (snd (compress_op cdata filter uninitialized key v ns c)).
Proof.
  intros Hnode Hflag.
  destruct (compress_op_visited key v ns kl c) as (node' & Hn & Hch & Hv).
  destruct (compress_op_stores key v ns c) as (_ & _ & Hother).
  split.
  - intros k. destruct (decide (k = key)) as [-> | Hne].
    + rewrite Hnode, Hn. simpl. rewrite Hflag, Hch. reflexivity.
    + rewrite (Hother k Hne). reflexivity.
  - intros k. destruct (decide (k = key)) as [-> | Hne].
    + right. exists node'. split; [exact Hn | exact Hv].
    + left. apply Hother. exact Hne.
Qed.

Lemma clear_coeff_rewritten (key : Key) (ns kl : bool) (c : coeffsT T)
    (node : FunctionNode T) :
  c !! key = Some node -> has_children node = false ->
  rewritten ns kl c (<[key := clear_coeff node]> c).
Proof.
  intros Hnode Hflag. split.
  - apply (same_shape_insert key node); [exact Hnode | reflexivity].
  - intros k. destruct (decide (k = key)) as [-> | Hne].
    + right. exists (clear_coeff node). split; [apply lookup_insert_eq | ].
      unfold compressed_node. simpl.
      change (_has_children node) with (has_children node). rewrite Hflag.
      intros _. reflexivity.
    + left. apply lookup_insert_ne. congruence.
Qed.

Lemma spawn_children_rewritten (ns kl : bool)
    (rec : Key -> coeffsT T -> option (result (Tensor T * coeffsT T)))
    (l : list Key) :
  (forall k c s c', rec k c = Some (Ok (s, c')) -> rewritten ns kl c c') ->
  forall v c v' c',
    fold_left (spawn_child rec) l (Some (Ok (v, c))) = Some (Ok (v', c')) ->
    rewritten ns kl c c'.
Proof.
  intros Hrec. induction l as [ | child l IH]; intros v c v' c'; simpl.
  - intros [= <- <-]. apply rewritten_refl.
  - destruct (rec child c) as [[[s c1] | m e] | ] eqn:Hchild.
    + intros Hfold. apply (rewritten_trans ns kl c c1 c').
      * exact (Hrec child c s c1 Hchild).
      * exact (IH _ _ _ _ Hfold).
    + intros Hfold. exfalso.
      refine (spawn_child_stuck rec l _ _ _ Hfold). intros x. discriminate.
    + intros Hfold. exfalso.
      refine (spawn_child_stuck rec l _ _ _ Hfold). intros x. discriminate.
Qed.

Lemma compress_spawn_rewritten (fuel : nat) (key : Key) (ns kl : bool)
    (c : coeffsT T) (s : Tensor T) (c' : coeffsT T) :
  compress_spawn cdata filter uninitialized fuel key ns kl c = Some (Ok (s, c')) ->
  rewritten ns kl c c'.
Proof.
  revert key c s c'. induction fuel as [ | fuel IH]; intros key c s c';
    simpl; [discriminate | ].
  destruct (c !! key) as [node | ] eqn:Hnode; [ | discriminate].
  destruct (has_children node) eqn:Hflag.
  - destruct (fold_left _ _ _) as [[[v c1] | m e] | ] eqn:Hfold; try discriminate.
    intros [= <- <-].
    assert (H1 : rewritten ns kl c c1)
      by exact (spawn_children_rewritten ns kl _ _
                  (fun k c0 s0 c0' Hr => IH k c0 s0 c0' Hr) _ _ _ _ Hfold).
    apply (rewritten_trans ns kl c c1); [exact H1 | ].
    pose proof (proj1 H1 key) as Hkey. rewrite Hnode in Hkey.
    destruct (c1 !! key) as [node1 | ] eqn:Hnode1; [ | discriminate].
    injection Hkey as Hkey.
    apply (compress_op_rewritten key v ns kl c1 node1); [exact Hnode1 | ].
    rewrite <- Hkey. exact Hflag.
  - intros [= <- <-]. destruct kl; [apply rewritten_refl | ].
    apply (clear_coeff_rewritten key ns false c node); assumption.
Qed.

(** A subtree that has been visited stays visited. *)
Lemma subtree_all_rewritten (ns kl : bool) (n : nat) :
  forall key c c',
    rewritten ns kl c c' ->
    subtree_all cdata (visited ns kl) n key c ->
    subtree_all cdata (visited ns kl) n key c'.
Proof.
  induction n as [ | n IH]; intros key c c' [Hshape Hrw]; simpl.
  - pose proof (Hshape key) as Hk. destruct (Hrw key) as [Heq | (node' & Hn' & Hv)].
    + rewrite Heq. tauto.
    + destruct (c !! key) as [node | ]; [ | tauto]. rewrite Hn' in Hk |- *.
      injection Hk as Hk. rewrite <- Hk. tauto.
  - pose proof (Hshape key) as Hk.
    assert (Hkids : forall l,
               Forall (fun k => subtree_all cdata
                                  (visited ns kl) n k c) l ->
               Forall (fun k => subtree_all cdata
                                  (visited ns kl) n k c') l).
    { intros l Hall. eapply List.Forall_impl; [ | exact Hall].
      intros k. apply IH. split; assumption. }
    destruct (Hrw key) as [Heq | (node' & Hn' & Hv)].
    + rewrite Heq. destruct (c !! key) as [node | ]; [ | tauto].
      intros [HP Hrest]. split; [exact HP | ].
      destruct (has_children node); [apply Hkids; exact Hrest | exact I].
    + destruct (c !! key) as [node | ]; [ | tauto]. rewrite Hn' in Hk |- *.
      injection Hk as Hk. rewrite <- Hk.
      intros [_ Hrest]. split; [exact Hv | ].
      destruct (has_children node); [apply Hkids; exact Hrest | exact I].
Qed.

Lemma spawn_children_visit (n : nat) (ns kl : bool) (l : list Key) :
  (forall key c, complete cdata n key c ->
     exists s c',
       compress_spawn cdata filter uninitialized (S n) key ns kl c = Some (Ok (s, c'))
       /\ subtree_all cdata (visited ns kl) n key c') ->
  forall v c,
    Forall (fun k => complete cdata n k c) l ->
    exists v' c',
      fold_left
        (spawn_child
           (fun k c0 => compress_spawn cdata filter uninitialized (S n) k ns kl c0))
        l (Some (Ok (v, c))) = Some (Ok (v', c'))
      /\ rewritten ns kl c c'
      /\ Forall (fun k => subtree_all cdata
                            (visited ns kl) n k c') l.
Proof.
  intros Hrec. induction l as [ | child l IH]; intros v c Hall.
  - exists v, c. split; [reflexivity | ]. split; [apply rewritten_refl | constructor].
  - apply Forall_cons_iff in Hall as [Hchild Hrest].
    destruct (Hrec child c Hchild) as (s & c1 & Hs & Hsub).
    pose proof (compress_spawn_rewritten _ _ _ _ _ _ _ Hs) as Hrw1.
    destruct (IH (v ++ [s]) c1) as (v' & c' & Hfold & Hrw & Hsubs).
    + eapply List.Forall_impl; [ | exact Hrest]. intros k.
      apply complete_same_shape. exact (proj1 Hrw1).
    + exists v', c'. split; [ | split].
      * change (fold_left ?f (child :: l) ?a) with (fold_left f l (f a child)).
        unfold spawn_child at 2. rewrite Hs. exact Hfold.
      * exact (rewritten_trans ns kl c c1 c' Hrw1 Hrw).
      * constructor; [ | exact Hsubs].
        exact (subtree_all_rewritten ns kl n child c1 c' Hrw Hsub).
Qed.

Lemma compress_spawn_visits (n : nat) (key : Key) (ns kl : bool) (c : coeffsT T) :
  complete cdata n key c ->
  exists s c',
    compress_spawn cdata filter uninitialized (S n) key ns kl c = Some (Ok (s, c'))
    /\ subtree_all cdata (visited ns kl) n key c'.
Proof.
  revert key c. induction n as [ | n IH]; intros key c Hc.
  - simpl in Hc |- *. destruct (c !! key) as [node | ] eqn:Hnode; [ | contradiction].
    destruct (has_children node) eqn:Hflag; [contradiction | ].
    eexists. eexists. split; [reflexivity | ].
    destruct kl.
    + rewrite Hnode. unfold compressed_node. rewrite Hflag.
      split; [discriminate | exact I].
    + rewrite lookup_insert_eq. unfold compressed_node. simpl.
      change (_has_children node) with (has_children node). rewrite Hflag.
      split; [reflexivity | exact I].
  - change (complete cdata (S n) key c)
      with (match c !! key with
            | None => False
            | Some node =>
              if has_children node
              then Forall (fun k => complete cdata n k c) (children cdata key)
              else True
            end) in Hc.
    change (compress_spawn cdata filter uninitialized (S (S n)) key ns kl c)
      with (match c !! key with
            | None => Some (Exception "MADNESS_ASSERT: coeffs.probe(key)" 0)
            | Some node =>
              if has_children node then
                match fold_left
                        (spawn_child
                           (fun k c0 => compress_spawn cdata filter uninitialized (S n)
                                          k ns kl c0))
                        (children cdata key) (Some (Ok ([], c))) with
                | Some (Ok (v, c1)) =>
                  Some (Ok (compress_op cdata filter uninitialized key v ns c1))
                | Some (Exception m x) => Some (Exception m x)
                | None => None
                end
              else
                Some (Ok (coeff node,
                          if kl then c
                          else <[key := clear_coeff node]> c))
            end).
    destruct (c !! key) as [node | ] eqn:Hnode; [ | contradiction].
    destruct (has_children node) eqn:Hflag.
    + destruct (spawn_children_visit n ns kl (children cdata key) IH [] c Hc)
        as (v' & c1 & Hfold & Hrw & Hsubs).
      rewrite Hfold.
      pose proof (proj1 Hrw key) as Hkey. rewrite Hnode in Hkey.
      destruct (c1 !! key) as [node1 | ] eqn:Hnode1; [ | discriminate].
      injection Hkey as Hkey.
      pose proof (compress_op_rewritten key v' ns kl c1 node1 Hnode1
                    ltac:(rewrite <- Hkey; exact Hflag)) as Hrw2.
      destruct (compress_op_visited key v' ns kl c1) as (node2 & Hn2 & Hch2 & Hv2).
      destruct (compress_op cdata filter uninitialized key v' ns c1) as [s c2] eqn:Hop.
      simpl in Hrw2, Hn2.
      exists s, c2. split; [reflexivity | ].
      change (subtree_all cdata (visited ns kl) (S n) key c2)
        with (match c2 !! key with
              | None => False
              | Some node =>
                visited ns kl key node
                /\ (if has_children node
                    then Forall (fun k => subtree_all cdata
                                            (visited ns kl) n k c2)
                                (children cdata key)
                    else True)
              end).
      rewrite Hn2, Hch2. split; [exact Hv2 | ].
      eapply List.Forall_impl; [ | exact Hsubs].
      intros k. apply (subtree_all_rewritten ns kl n k c1 c2 Hrw2).
    + eexists. eexists. split; [reflexivity | ].
      change (subtree_all cdata (visited ns kl) (S n) key
                (if kl then c else <[key := clear_coeff node]> c))
        with (match (if kl then c else <[key := clear_coeff node]> c) !! key with
              | None => False
              | Some node0 =>
                visited ns kl key node0
                /\ (if has_children node0
                    then Forall (fun k => subtree_all cdata
                                            (visited ns kl) n k
                                            (if kl then c else <[key := clear_coeff node]> c))
                                (children cdata key)
                    else True)
              end).
      destruct kl.
      * rewrite Hnode, Hflag. unfold compressed_node. rewrite Hflag.
        split; [discriminate | exact I].
      * rewrite lookup_insert_eq. simpl.
        change (_has_children node) with (has_children node). rewrite Hflag.
        unfold compressed_node. simpl.
        change (_has_children node) with (has_children node). rewrite Hflag.
        split; [reflexivity | exact I].
Qed.

(** With [keepleaves], no leaf is written. *)
Lemma spawn_children_keep_leaves
    (rec : Key -> coeffsT T -> option (result (Tensor T * coeffsT T)))
    (l : list Key) :
  (forall k c s c', rec k c = Some (Ok (s, c')) ->
     same_shape c c'
     /\ forall k' node, c !! k' = Some node -> has_children node = false ->
                        c' !! k' = Some node) ->
  forall v c v' c',
    fold_left (spawn_child rec) l (Some (Ok (v, c))) = Some (Ok (v', c')) ->
    forall k' node, c !! k' = Some node -> has_children node = false ->
                    c' !! k' = Some node.
Proof.
  intros Hrec. induction l as [ | child l IH]; intros v c v' c'; simpl.
  - intros [= <- <-] k' node Hn _. exact Hn.
  - destruct (rec child c) as [[[s c1] | m e] | ] eqn:Hchild.
    + intros Hfold k' node Hn Hleaf.
      destruct (Hrec child c s c1 Hchild) as [_ Hkeep].
      exact (IH _ _ _ _ Hfold k' node (Hkeep k' node Hn Hleaf) Hleaf).
    + intros Hfold. exfalso.
      refine (spawn_child_stuck rec l _ _ _ Hfold). intros x. discriminate.
    + intros Hfold. exfalso.
      refine (spawn_child_stuck rec l _ _ _ Hfold). intros x. discriminate.
Qed.

Lemma compress_spawn_keeps_leaves (fuel : nat) (key : Key) (ns : bool)
    (c : coeffsT T) (s : Tensor T) (c' : coeffsT T) :
  compress_spawn cdata filter uninitialized fuel key ns true c = Some (Ok (s, c')) ->
  forall k' node, c !! k' = Some node -> has_children node = false ->
                  c' !! k' = Some node.
Proof.
  revert key c s c'. induction fuel as [ | fuel IH]; intros key c s c';
    simpl; [discriminate | ].
  destruct (c !! key) as [node | ] eqn:Hnode; [ | discriminate].
  destruct (has_children node) eqn:Hflag.
  - destruct (fold_left _ _ _) as [[[v c1] | m e] | ] eqn:Hfold; try discriminate.
    intros [= <- <-] k' node' Hn' Hleaf.
    pose proof (spawn_children_keep_leaves _ _
                  (fun k c0 s0 c0' Hr =>
                     conj (compress_spawn_same_shape _ _ _ _ _ _ _ Hr)
                          (IH k c0 s0 c0' Hr))
                  _ _ _ _ Hfold k' node' Hn' Hleaf) as Hc1.
    destruct (compress_op_stores key v ns c1) as (_ & _ & Hother).
    rewrite Hother; [exact Hc1 | ].
    intros ->. rewrite Hnode in Hn'. injection Hn' as <-. congruence.
  - intros [= <- <-] k' node' Hn' _. exact Hn'.
Qed.

(** C2 (amended).  [compress_op] assembles the blocks of the 2^d children
    into a tensor of shape [(2k)^d], with each block in the patch of its
    child, and applies [filter]; it returns a copy of the scaling sub-block
    [s0] of the filtered tensor as it is before any zeroing; it stores the
    filtered tensor as the coefficients of the node, with
    [has_children = true]; the stored [s0] sub-block is zero when the key
    is below the root and [nonstandard] is false, and the stored tensor is
    the filtered one untouched exactly when the key is the root or
    [nonstandard] is true.  Consequently [compress] with
    [nonstandard = false] returns on every tree that is complete below the
    root, keeps the keys and the [has_children] flags, and leaves at every
    interior node of the tree the node that [compress_op] stores there,
    with a zero [s0] sub-block below the root; a leaf keeps its
    coefficients when [keepleaves] is true and has none afterwards when it
    is false.  Nodes that the recursion does not reach are not written:
    if no interior node below the root carried a nonzero scaling block
    before, none does afterwards. *)
Theorem compress_scaling_blocks (key : Key) (v : list (Tensor T)) (ns : bool)
    (c : coeffsT T) :
  let a := assemble cdata uninitialized key v in
  let d := filter a in
  let s := fst (compress_op cdata filter uninitialized key v ns c) in
  let c' := snd (compress_op cdata filter uninitialized key v ns c) in
  (length (translation key) = cd_ndim cdata ->
   dim a = cd_v2k cdata
   /\ forall i bits vi idx,
        nth_error (bit_patterns (cd_ndim cdata)) i = Some bits ->
        nth_error v i = Some vi ->
        in_slices (child_patch cdata (child_of key bits)) idx = true ->
        elem a idx
          = elem vi (local_index (child_patch cdata (child_of key bits)) idx))
  /\ (dim s = map extent (cd_s0 cdata)
      /\ forall idx, elem s idx = elem d (view_index (cd_s0 cdata) idx))
  /\ (exists node,
        c' !! key = Some node
        /\ has_children node = true
        /\ dim (coeff node) = dim d
        /\ (forall idx, in_slices (cd_s0 cdata) idx = false ->
                        elem (coeff node) idx = elem d idx)
        /\ (0 < level key -> ns = false -> zero_on (cd_s0 cdata) (coeff node))
        /\ (level key <= 0 \/ ns = true ->
            forall idx, elem (coeff node) idx = elem d idx))
  /\ (forall key', key' <> key -> c' !! key' = c !! key')
  /\ (forall fuel keepleaves f f',
        interior_s0_zero cdata (coeffs f) ->
        compress cdata filter uninitialized fuel false keepleaves f = Some (Ok f') ->
        interior_s0_zero cdata (coeffs f')
        /\ nonstandard f' = false /\ compressed f' = true)
  /\ (forall n keepleaves f,
        complete cdata n (cd_key0 cdata) (coeffs f) ->
        exists f',
          compress cdata filter uninitialized (S n) false keepleaves f
            = Some (Ok f')
          /\ nonstandard f' = false /\ compressed f' = true
          /\ same_shape (coeffs f) (coeffs f')
          /\ subtree_all cdata
               (compressed_node cdata filter uninitialized false keepleaves)
               n (cd_key0 cdata) (coeffs f')
          /\ (keepleaves = true ->
              forall k node, coeffs f !! k = Some node ->
                             has_children node = false ->
                             coeffs f' !! k = Some node)).
Proof.
  intros a d s c'.
  split; [intros Hlen; apply assemble_blocks; exact Hlen | ].
  destruct (compress_op_stores key v ns c) as (Hs & Hnode & Hother).
  split; [exact Hs | ]. split; [exact Hnode | ]. split; [exact Hother | ].
  split.
  - intros fuel keepleaves f f' Hinv. unfold compress.
    destruct (compress_spawn _ _ _ _ _ _ _ _) as [[[s1 c1] | m e] | ] eqn:Hspawn;
      try discriminate.
    intros [= <-]. simpl. split; [ | split; reflexivity].
    exact (compress_spawn_keeps_zero _ _ _ _ _ _ Hinv Hspawn).
  - intros n keepleaves f Hc. unfold compress.
    destruct (compress_spawn_visits n (cd_key0 cdata) false keepleaves (coeffs f) Hc)
      as (s1 & c1 & Hspawn & Hsub).
    rewrite Hspawn. eexists. split; [reflexivity | ]. simpl.
    split; [reflexivity | ]. split; [reflexivity | ].
    split; [exact (compress_spawn_same_shape _ _ _ _ _ _ _ Hspawn) | ].
    split; [exact Hsub | ].
    intros ->. exact (compress_spawn_keeps_leaves _ _ _ _ _ _ Hspawn).
Qed.

End Compressed.
End WithScalar.

(** C2 as stated fails at the leaves when [keepleaves] is true: after
    [compress] with [nonstandard = false] the leaf at level 1 still carries
    its scaling coefficients, and its [s0] sub-block is not zero. *)
Lemma compress_scaling_blocks_counterexample :
  exists f' node,
    ex_compress false true = Some (Ok f')
    /\ coeffs f' !! mkKey 1 [0] = Some node
    /\ has_coeff node = true
    /\ in_slices (cd_s0 ex_cdata) [0] = true
    /\ elem (coeff node) [0] = 3.
Proof.
  eexists. eexists. split; [vm_compute; reflexivity | ].
  split; [vm_compute; reflexivity | ].
  vm_compute. repeat split; reflexivity.
Qed.

(** C7 as stated fails at the root: [standard] leaves the scaling
    sub-block of a root that has children and coefficients as it is. *)
Lemma standard_nodes_counterexample :
  exists node node',
    ex_root_only !! mkKey 0 [0] = Some node
    /\ has_coeff node = true /\ has_children node = true
    /\ standard ex_cdata ex_root_only !! mkKey 0 [0] = Some node'
    /\ in_slices (cd_s0 ex_cdata) [0] = true
    /\ elem (coeff node') [0] = 7.
Proof.
  eexists. eexists. split; [vm_compute; reflexivity | ].
  split; [vm_compute; reflexivity | ]. split; [vm_compute; reflexivity | ].
  split; [vm_compute; reflexivity | ].
  vm_compute. split; reflexivity.
Qed.

Lemma gaxpy_inplace_merge_witness :
  let this := node_of (mkTensor [1] (fun _ => 2)) false in
  let other := node_of (mkTensor [1] (fun _ => 5)) true in
  let r := gaxpy_inplace this 3 other 4 in
  has_children r = true /\ elem (coeff r) [0] = 3 * 2 + 4 * 5.
Proof.
  intros this other r.
  pose proof (gaxpy_inplace_merge this other 3 4 Z.mul_comm)
    as (Hch & _ & Hboth & _).
  split; [exact Hch | ].
  exact (proj2 (Hboth eq_refl eq_refl eq_refl) [0]).
Defined.

End MraFacts.

(** ** The RMI server and sender *)

Module RmiFacts.
Import Rmi.

(** *** The error monad *)

Lemma bind_Ok {A B : Type} (r : result A) (k : A -> result B) (b : B) :
  r ≫= k = Ok b -> exists a, r = Ok a /\ k a = Ok b.
Proof.
  destruct r as [a | m x]; simpl; [ | discriminate].
  intros Hk. exists a. split; [reflexivity | exact Hk].
Qed.

Lemma bind_Exception {A B : Type} (r : result A) (k : A -> result B)
    (m : string) (x : Z) :
  r = Exception m x -> r ≫= k = Exception m x.
Proof. intros ->. reflexivity. Qed.

Lemma bind_Ok_l {A B : Type} (a : A) (k : A -> result B) : Ok a ≫= k = k a.
Proof. reflexivity. Qed.

Lemma invoked_app (t1 t2 : list event) :
  invoked (t1 ++ t2) = invoked t1 ++ invoked t2.
Proof. unfold invoked. apply omap_app. Qed.

Section Server.
Variable K : Constants.
Variable P : Params.
Variable memalign_ok : Z -> Z -> bool.
Variable sort : list qmsg -> list qmsg.

Local Abbreviation is_ordered := (is_ordered K).
Local Abbreviation post_pending_huge_msg := (post_pending_huge_msg K P memalign_ok).
Local Abbreviation post_recv_buf := (post_recv_buf K P memalign_ok).
Local Abbreviation huge_msg_handler := (huge_msg_handler K P memalign_ok).
Local Abbreviation invoke := (invoke K P memalign_ok).
Local Abbreviation arrive := (arrive K P memalign_ok).
Local Abbreviation arrive_all := (arrive_all K P memalign_ok).
Local Abbreviation drain := (drain K P memalign_ok).
Local Abbreviation wakeup := (wakeup K P memalign_ok sort).
Local Abbreviation run_loop := (run_loop K P memalign_ok sort).
Local Abbreviation run := (run K P memalign_ok sort).

(** *** Exceptions leave the loop *)

Lemma arrive_all_app (pre post : list arrival) (sq : RMI * list qmsg) :
  arrive_all (pre ++ post) sq = arrive_all pre sq ≫= arrive_all post.
Proof.
  revert sq. induction pre as [ | a pre IH]; intros sq; simpl; [reflexivity | ].
  destruct (arrive a sq) as [sq' | m x]; simpl; [apply IH | reflexivity].
Qed.

Lemma run_loop_app (b1 b2 : list (list arrival)) (sq : RMI * list qmsg) :
  run_loop (b1 ++ b2) sq = run_loop b1 sq ≫= run_loop b2.
Proof.
  revert sq. induction b1 as [ | b b1 IH]; intros sq; simpl; [reflexivity | ].
  destruct (wakeup b sq) as [sq' | m x]; simpl; [apply IH | reflexivity].
Qed.

Lemma drain_app (q1 q2 : list qmsg) :
  forall st left,
    drain (q1 ++ q2) st left
    = drain q1 st left ≫= (fun sq => drain q2 (fst sq) (snd sq)).
Proof.
  induction q1 as [ | m q1 IH]; intros st left; simpl; [reflexivity | ].
  destruct (count m =? counter (recv_counters st) (src m)); [ | apply IH].
  destruct (invoke m (advance (src m) st)) as [st1 | e x]; simpl; [ | reflexivity].
  destruct (post_recv_buf (i m) st1) as [st2 | e x]; simpl; [apply IH | reflexivity].
Qed.

(** C9.  When an ordered message that is not next in sequence arrives and
    the queue already holds [maxq_] messages, the server raises the fatal
    exception "overflowed out-of-order message q"; when the buffer for a
    pending huge message cannot be allocated, [post_pending_huge_msg]
    raises "failed allocating huge message".  Nothing catches either
    exception or tries again.  The failed allocation surfaces from the
    handler of a control record and from the release of the huge buffer;
    an exception raised while a message is handed to its handler or its
    buffer is posted again ends the loop over the arrivals and the pass
    over the queue; and an exception raised in the loop over the
    arrivals, in the pass over the queue or by the call of
    [post_pending_huge_msg] that ends a round is the result of [run],
    whatever arrives later. *)
Theorem overflow_and_allocation_failure_are_fatal :
  (forall a st q,
     is_ordered (attr (qmsg_of a)) = true ->
     count (qmsg_of a) <> counter (recv_counters st) (ar_src a) ->
     maxq_ P <= Z.of_nat (length q) ->
     arrive a (st, q)
       = Exception ("RMI:server: overflowed out-of-order message q" ++ newline)
                   (Z.of_nat (length q)))
  /\ (forall st src nbyte rest,
        huge_pending st = false ->
        hugeq st = (src, nbyte) :: rest ->
        memalign_ok (ALIGNMENT K) nbyte = false ->
        post_pending_huge_msg st
          = Exception "RMI: failed allocating huge message" 1)
  /\ (forall msg st src nbyte rest,
        func msg = huge_msg_handler_ptr ->
        huge_pending st = false ->
        (let buf := default (mkBuffer (func msg) (attr msg) [])
                            (recv_buf st !! i msg) in
         hugeq st ++ [(nth 0 (b_words buf) 0, nth 1 (b_words buf) 0)]
         = (src, nbyte) :: rest) ->
        memalign_ok (ALIGNMENT K) nbyte = false ->
        invoke msg st = Exception "RMI: failed allocating huge message" 1)
  /\ (forall st src nbyte rest,
        hugeq st = (src, nbyte) :: rest ->
        memalign_ok (ALIGNMENT K) nbyte = false ->
        post_recv_buf (nrecv_ P) st
          = Exception "RMI: failed allocating huge message" 1)
  /\ (forall a st q m x,
        let msg := qmsg_of a in
        let st1 := set_stats (mkStats (nmsg_sent (stats st)) (nbyte_sent (stats st))
                                      (nmsg_recv (stats st) + 1)
                                      (nbyte_recv (stats st) + ar_len a)) st in
        let st2 := if is_ordered (attr msg) then advance (src msg) st1 else st1 in
        is_ordered (attr msg) = false
        \/ count msg = counter (recv_counters st) (src msg) ->
        invoke msg st2 ≫= post_recv_buf (i msg) = Exception m x ->
        arrive a (st, q) = Exception m x)
  /\ (forall before msg after st left st1 left1 m x,
        drain before st left = Ok (st1, left1) ->
        count msg = counter (recv_counters st1) (src msg) ->
        invoke msg (advance (src msg) st1) ≫= post_recv_buf (i msg)
          = Exception m x ->
        drain (before ++ msg :: after) st left = Exception m x)
  /\ (forall batches1 pre a post batches2 st0 st q st' q' m x,
        run batches1 st0 = Ok (st, q) ->
        arrive_all pre (receive_into (pre ++ a :: post) st, q) = Ok (st', q') ->
        arrive a (st', q') = Exception m x ->
        run (batches1 ++ (pre ++ a :: post) :: batches2) st0 = Exception m x)
  /\ (forall batches1 b batches2 st0 st q st1 q1 m x,
        run batches1 st0 = Ok (st, q) ->
        arrive_all b (receive_into b st, q) = Ok (st1, q1) ->
        drain (sort q1) st1 [] = Exception m x ->
        run (batches1 ++ b :: batches2) st0 = Exception m x)
  /\ (forall batches1 b batches2 st0 st q st1 q1 st2 q2 m x,
        run batches1 st0 = Ok (st, q) ->
        arrive_all b (receive_into b st, q) = Ok (st1, q1) ->
        drain (sort q1) st1 [] = Ok (st2, q2) ->
        post_pending_huge_msg st2 = Exception m x ->
        run (batches1 ++ b :: batches2) st0 = Exception m x).
Proof.
  split; [ | split; [ | split; [ | split; [ | split; [ | split; [ | split; [ | split]]]]]]].
  - intros a st q Hord Hcount Hfull. unfold Rmi.arrive.
    apply Z.eqb_neq in Hcount. simpl in Hord, Hcount |- *.
    rewrite Hord, Hcount. simpl.
    assert (Hge : (Z.of_nat (length q) >=? maxq_ P) = true) by (apply Z.geb_le; exact Hfull).
    rewrite Hge. reflexivity.
  - intros st src nbyte rest Hfree Hq Hfail. unfold Rmi.post_pending_huge_msg.
    rewrite Hfree, Hq, Hfail. reflexivity.
  - intros msg st src nbyte rest Hfunc Hfree Hq Hfail.
    unfold Rmi.invoke. rewrite Hfunc. rewrite Hfunc in Hq.
    unfold Rmi.huge_msg_handler, Rmi.post_pending_huge_msg. simpl in Hq |- *.
    rewrite Hfree, Hq, Hfail. reflexivity.
  - intros st src nbyte rest Hq Hfail. unfold Rmi.post_recv_buf.
    rewrite Z.ltb_irrefl, Z.eqb_refl.
    unfold Rmi.post_pending_huge_msg. simpl. rewrite Hq, Hfail. reflexivity.
  - intros a st q m x msg st1 st2 Hnow Hraise. unfold Rmi.arrive.
    fold msg. fold st1.
    assert (Hcond : negb (is_ordered (attr msg))
                    || (count msg =? counter (recv_counters st1) (src msg)) = true).
    { destruct Hnow as [Hun | Hseq].
      - rewrite Hun. reflexivity.
      - apply orb_true_iff. right. apply Z.eqb_eq. exact Hseq. }
    rewrite Hcond. fold st2.
    destruct (invoke msg st2) as [st3 | e y]; simpl in Hraise |- *;
      [rewrite Hraise; reflexivity | injection Hraise as -> ->; reflexivity].
  - intros before msg after st left st1 left1 m x Hbefore Hseq Hraise.
    rewrite drain_app, Hbefore. simpl.
    apply Z.eqb_eq in Hseq. rewrite Hseq.
    destruct (invoke msg (advance (src msg) st1)) as [st3 | e y]; simpl in Hraise |- *;
      [rewrite Hraise; reflexivity | injection Hraise as -> ->; reflexivity].
  - intros batches1 pre a post batches2 st0 st q st' q' m x Hrun Hpre Ha.
    unfold Rmi.run in *. rewrite run_loop_app, Hrun, bind_Ok_l.
    change (run_loop ((pre ++ a :: post) :: batches2) (st, q))
      with (wakeup (pre ++ a :: post) (st, q) ≫= run_loop batches2).
    unfold Rmi.wakeup. rewrite arrive_all_app, Hpre, bind_Ok_l.
    change (arrive_all (a :: post) (st', q'))
      with (arrive a (st', q') ≫= arrive_all post).
    rewrite Ha. reflexivity.
  - intros batches1 b batches2 st0 st q st1 q1 m x Hrun Hb Hdrain.
    unfold Rmi.run in *. rewrite run_loop_app, Hrun, bind_Ok_l.
    change (run_loop (b :: batches2) (st, q))
      with (wakeup b (st, q) ≫= run_loop batches2).
    unfold Rmi.wakeup. rewrite Hb, bind_Ok_l, Hdrain. reflexivity.
  - intros batches1 b batches2 st0 st q st1 q1 st2 q2 m x Hrun Hb Hdrain Hpost.
    unfold Rmi.run in *. rewrite run_loop_app, Hrun, bind_Ok_l.
    change (run_loop (b :: batches2) (st, q))
      with (wakeup b (st, q) ≫= run_loop batches2).
    unfold Rmi.wakeup. rewrite Hb, bind_Ok_l, Hdrain, bind_Ok_l, Hpost.
    reflexivity.
Qed.

(** *** Eager and rendezvous sends *)

Local Abbreviation private_isend := (private_isend K P).

Local Abbreviation stamped := (stamp K).

Lemma is_ordered_unordered :
  constants_ok K -> is_ordered (ATTR_UNORDERED K) = false.
Proof.
  intros (_ & _ & Hland & _). unfold Rmi.is_ordered. rewrite Hland. reflexivity.
Qed.

Lemma sizeof_info_holds_header :
  constants_ok K ->
  HEADER_LEN K <= (HEADER_LEN K / sizeof_size_t K + 2) * sizeof_size_t K.
Proof.
  intros (_ & _ & _ & Hh & Hs & _).
  pose proof (Z.div_mod (HEADER_LEN K) (sizeof_size_t K) ltac:(lia)) as Hdm.
  pose proof (Z.mod_pos_bound (HEADER_LEN K) (sizeof_size_t K) Hs) as Hb.
  nia.
Qed.

Lemma private_isend_eager (fuel : nat) (words : list Z) (nbyte : Z)
    (dest : ProcessID) (func : rmi_handlerT) (attr : Z) (st : RMI) :
  HEADER_LEN K <= nbyte <= max_msg_len_ P ->
  exists st',
    private_isend (S fuel) words nbyte dest func attr st = Some (Ok st')
    /\ trace st' = trace st ++
         [EvLock;
          EvIsend (mkBuffer func (stamped attr (counter (send_counters st) dest)) words)
                  nbyte dest RMI_TAG;
          EvUnlock]
    /\ send_counters st' =
       (if is_ordered attr
        then <[dest := wrap16 (counter (send_counters st) dest + 1)]> (send_counters st)
        else send_counters st)
    /\ recv_counters st' = recv_counters st
    /\ hugeq st' = hugeq st /\ huge_pending st' = huge_pending st.
Proof.
  intros [Hlo Hhi]. simpl.
  assert (Hnothuge : (max_msg_len_ P <? nbyte) = false) by (apply Z.ltb_ge; lia).
  assert (Hfits : (nbyte <? HEADER_LEN K) = false) by (apply Z.ltb_ge; lia).
  rewrite Hnothuge, Hfits. eexists. split; [reflexivity | ].
  destruct (is_ordered attr); simpl; rewrite <- app_assoc; repeat split; reflexivity.
Qed.

(** C8 (amended).  A payload of at least [HEADER_LEN] and at most
    [MAX_MSG_LEN] bytes goes out eagerly, in one non-blocking send on the
    RMI tag; a payload of at most [MAX_MSG_LEN] bytes that is shorter than
    [HEADER_LEN] raises a fatal exception and nothing is sent.  A payload
    longer than [MAX_MSG_LEN] follows the rendezvous: the sender posts the
    receive of the acknowledgement, sends to the huge-message handler of
    the destination an unordered control record with its rank and the byte
    count, waits for that send and then for the acknowledgement, and only
    then sends the payload on the HUGE_DAT tag.  The destination enqueues
    [(src, nbyte)]; if the spare slot is busy nothing else happens until it
    is freed; if it is free the request at the head of the queue gets an
    aligned buffer of its [nbyte] bytes, a receive on the HUGE_DAT tag and
    an acknowledgement of [sizeof(int)] bytes on the HUGE_ACK tag. *)
Theorem isend_eager_or_rendezvous :
  constants_ok K ->
  (forall fuel words nbyte dest func attr st,
     HEADER_LEN K <= nbyte <= max_msg_len_ P ->
     exists st',
       private_isend (S fuel) words nbyte dest func attr st = Some (Ok st')
       /\ trace st' = trace st ++
            [EvLock;
             EvIsend (mkBuffer func (stamped attr (counter (send_counters st) dest)) words)
                     nbyte dest RMI_TAG;
             EvUnlock])
  /\ (forall fuel words nbyte dest func attr st,
        nbyte <= max_msg_len_ P -> nbyte < HEADER_LEN K ->
        private_isend (S fuel) words nbyte dest func attr st
          = Some (Exception
                    "RMI::isend --- your buffer is too small to hold the header"
                    nbyte))
  /\ (forall fuel words nbyte dest func attr st,
        let sizeof_info := (HEADER_LEN K / sizeof_size_t K + 2) * sizeof_size_t K in
        max_msg_len_ P < nbyte ->
        sizeof_info <= max_msg_len_ P ->
        exists st',
          private_isend (S (S fuel)) words nbyte dest func attr st = Some (Ok st')
          /\ trace st' = trace st ++
               [EvIrecv ack_variable (sizeof_int K) (from_rank dest) RMI_HUGE_ACK_TAG;
                EvLock;
                EvIsend (mkBuffer huge_msg_handler_ptr (ATTR_UNORDERED K)
                                  [rank P; nbyte])
                        sizeof_info dest RMI_TAG;
                EvUnlock;
                EvWait req_send;
                EvWait req_ack;
                EvLock;
                EvIsend (mkBuffer func (stamped attr (counter (send_counters st) dest)) words)
                        nbyte dest RMI_HUGE_DAT_TAG;
                EvUnlock])
  /\ (forall buf st src nbyte,
        b_words buf = [src; nbyte] ->
        (huge_pending st = true ->
         huge_msg_handler buf st
           = Ok (set_hugeq (hugeq st ++ [(src, nbyte)]) st))
        /\ (huge_pending st = false -> hugeq st = [] ->
            memalign_ok (ALIGNMENT K) nbyte = true ->
            exists st',
              huge_msg_handler buf st = Ok st'
              /\ hugeq st' = [] /\ huge_pending st' = true
              /\ trace st' = trace st ++
                   [EvMemalign (ALIGNMENT K) nbyte;
                    EvIrecv (recv_slot (nrecv_ P)) nbyte (from_rank src)
                            RMI_HUGE_DAT_TAG;
                    EvSend (sizeof_int K) src RMI_HUGE_ACK_TAG]
              /\ 0 < sizeof_int K))
  /\ (forall st src nbyte rest,
        hugeq st = (src, nbyte) :: rest ->
        memalign_ok (ALIGNMENT K) nbyte = true ->
        exists st',
          post_recv_buf (nrecv_ P) st = Ok st'
          /\ hugeq st' = rest /\ huge_pending st' = true
          /\ trace st' = trace st ++
               [EvFree (nrecv_ P);
                EvMemalign (ALIGNMENT K) nbyte;
                EvIrecv (recv_slot (nrecv_ P)) nbyte (from_rank src)
                        RMI_HUGE_DAT_TAG;
                EvSend (sizeof_int K) src RMI_HUGE_ACK_TAG]).
Proof.
  intros HK. split; [ | split; [ | split ; [ | split]]].
  - intros fuel words nbyte dest func attr st Hrange.
    destruct (private_isend_eager fuel words nbyte dest func attr st Hrange)
      as (st' & Hsend & Htrace & _).
    exists st'. split; assumption.
  - intros fuel words nbyte dest func attr st Hhi Hlo. simpl.
    assert (Hnothuge : (max_msg_len_ P <? nbyte) = false) by (apply Z.ltb_ge; lia).
    assert (Hsmall : (nbyte <? HEADER_LEN K) = true) by (apply Z.ltb_lt; lia).
    rewrite Hnothuge, Hsmall. reflexivity.
  - intros fuel words nbyte dest func attr st sizeof_info Hhuge Hinfo.
    pose proof (sizeof_info_holds_header HK) as Hheader. fold sizeof_info in Hheader.
    destruct (private_isend_eager fuel [rank P; nbyte] sizeof_info dest
                huge_msg_handler_ptr (ATTR_UNORDERED K)
                (log [EvIrecv ack_variable (sizeof_int K) (from_rank dest)
                              RMI_HUGE_ACK_TAG] st)
                (conj Hheader Hinfo))
      as (st1 & Hctl & Htrace1 & Hsc1 & _).
    unfold Rmi.stamp in Htrace1. rewrite (is_ordered_unordered HK) in Htrace1, Hsc1.
    assert (Hhuge' : (max_msg_len_ P <? nbyte) = true) by (apply Z.ltb_lt; lia).
    change (private_isend (S (S fuel)) words nbyte dest func attr st)
      with (match
              (if max_msg_len_ P <? nbyte then
                 match private_isend (S fuel) [rank P; nbyte] sizeof_info dest
                         huge_msg_handler_ptr (ATTR_UNORDERED K)
                         (log [EvIrecv ack_variable (sizeof_int K) (from_rank dest)
                                       RMI_HUGE_ACK_TAG] st) with
                 | Some (Ok st) =>
                   Some (Ok (log [EvWait req_send; EvWait req_ack] st, RMI_HUGE_DAT_TAG))
                 | Some (Exception m x) => Some (Exception m x)
                 | None => None
                 end
               else if nbyte <? HEADER_LEN K then
                 Some (Exception
                         "RMI::isend --- your buffer is too small to hold the header"
                         nbyte)
               else Some (Ok (st, RMI_TAG)))
            with
            | Some (Ok (st, tg)) =>
              let st := log [EvLock] st in
              let c := counter (send_counters st) dest in
              let attr' := stamp K attr c in
              let st :=
                if is_ordered attr
                then set_send_counters (<[dest := wrap16 (c + 1)]> (send_counters st)) st
                else st in
              let st := set_stats (mkStats (nmsg_sent (stats st) + 1)
                                           (nbyte_sent (stats st) + nbyte)
                                           (nmsg_recv (stats st))
                                           (nbyte_recv (stats st))) st in
              Some (Ok (log [EvIsend (mkBuffer func attr' words) nbyte dest tg;
                             EvUnlock] st))
            | Some (Exception m x) => Some (Exception m x)
            | None => None
            end).
    rewrite Hhuge', Hctl. cbv zeta. eexists. split; [reflexivity | ].
    simpl in Hsc1. simpl send_counters. rewrite Hsc1.
    destruct (is_ordered attr); simpl; rewrite Htrace1; simpl;
      rewrite <- !app_assoc; reflexivity.
  - intros buf st src nbyte Hwords. unfold Rmi.huge_msg_handler. rewrite Hwords.
    simpl nth. split.
    + intros Hbusy. unfold Rmi.post_pending_huge_msg. simpl. rewrite Hbusy.
      reflexivity.
    + intros Hfree Hempty Halloc. unfold Rmi.post_pending_huge_msg. simpl.
      rewrite Hfree, Hempty. simpl. rewrite Halloc. simpl.
      eexists. split; [reflexivity | ]. simpl.
      rewrite <- app_assoc. repeat split; try reflexivity.
      destruct HK as (_ & _ & _ & _ & _ & Hint). exact Hint.
  - intros st src nbyte rest Hq Halloc. unfold Rmi.post_recv_buf.
    rewrite Z.ltb_irrefl, Z.eqb_refl. unfold Rmi.post_pending_huge_msg. simpl.
    rewrite Hq, Halloc. simpl. eexists. split; [reflexivity | ]. simpl.
    rewrite <- !app_assoc. repeat split; reflexivity.
Qed.

(** *** What a dispatch changes *)

Lemma post_pending_frame (st st' : RMI) :
  post_pending_huge_msg st = Ok st' ->
  recv_counters st' = recv_counters st
  /\ invoked (trace st') = invoked (trace st).
Proof.
  unfold Rmi.post_pending_huge_msg.
  destruct (huge_pending st); [intros [= <-]; tauto | ].
  destruct (hugeq st) as [ | [p nbyte] rest]; [intros [= <-]; tauto | ].
  simpl. destruct (memalign_ok (ALIGNMENT K) nbyte); simpl; [ | discriminate].
  intros [= <-]. simpl. rewrite !invoked_app. simpl. rewrite !app_nil_r. tauto.
Qed.

Lemma post_recv_buf_frame (j : Z) (st st' : RMI) :
  post_recv_buf j st = Ok st' ->
  recv_counters st' = recv_counters st
  /\ invoked (trace st') = invoked (trace st).
Proof.
  unfold Rmi.post_recv_buf. destruct (j <? nrecv_ P).
  - intros [= <-]. simpl. rewrite invoked_app. simpl. rewrite app_nil_r. tauto.
  - destruct (j =? nrecv_ P); [ | discriminate].
    intros Hpost. apply post_pending_frame in Hpost as [Hc Ht].
    simpl in Hc, Ht. rewrite invoked_app in Ht. simpl in Ht.
    rewrite app_nil_r in Ht. tauto.
Qed.

Lemma invoke_frame (m : qmsg) (st st' : RMI) :
  invoke m st = Ok st' ->
  recv_counters st' = recv_counters st
  /\ invoked (trace st') = invoked (trace st) ++ [m].
Proof.
  unfold Rmi.invoke. destruct (func m).
  - unfold Rmi.huge_msg_handler. intros Hpost.
    apply post_pending_frame in Hpost as [Hc Ht].
    simpl in Hc, Ht. rewrite invoked_app in Ht. simpl in Ht. tauto.
  - intros [= <-]. simpl. rewrite invoked_app. simpl. tauto.
Qed.

Lemma dispatch_frame (m : qmsg) (st st' : RMI) :
  invoke m st ≫= post_recv_buf (i m) = Ok st' ->
  recv_counters st' = recv_counters st
  /\ invoked (trace st') = invoked (trace st) ++ [m].
Proof.
  intros Hd. apply bind_Ok in Hd as (st1 & Hinv & Hpost).
  apply invoke_frame in Hinv as [Hc1 Ht1].
  apply post_recv_buf_frame in Hpost as [Hc2 Ht2].
  rewrite Hc2, Hc1, Ht2, Ht1. tauto.
Qed.

(** The body of the loop over the arrivals either dispatches the message
    at once, which it does when the message is unordered or next in
    sequence, advancing the counter of the source for an ordered one, or
    it parks the message at the end of the queue. *)
Lemma arrive_cases (a : arrival) (st : RMI) (q : list qmsg) (st' : RMI)
    (q' : list qmsg) :
  arrive a (st, q) = Ok (st', q') ->
  let m := qmsg_of a in
  let rc := recv_counters st in
  ((is_ordered (attr m) = false \/ count m = counter rc (src m))
   /\ q' = q
   /\ invoked (trace st') = invoked (trace st) ++ [m]
   /\ recv_counters st' =
      (if is_ordered (attr m)
       then <[src m := wrap16 (counter rc (src m) + 1)]> rc else rc))
  \/ (is_ordered (attr m) = true /\ count m <> counter rc (src m)
      /\ q' = q ++ [m]
      /\ invoked (trace st') = invoked (trace st)
      /\ recv_counters st' = rc).
Proof.
  clear sort. intros Harr m rc. unfold Rmi.arrive in Harr. fold m in Harr.
  cbv zeta in Harr. simpl recv_counters in Harr. fold rc in Harr.
  destruct (negb (is_ordered (attr m)) || (count m =? counter rc (src m)))
    eqn:Hnow.
  - left. apply bind_Ok in Harr as (st1 & Hinv & Harr).
    apply bind_Ok in Harr as (st2 & Hpost & Harr). injection Harr as <- <-.
    assert (Hd : invoke m
                   (if is_ordered (attr m)
                    then advance (src m)
                           (set_stats (mkStats (nmsg_sent (stats st))
                              (nbyte_sent (stats st)) (nmsg_recv (stats st) + 1)
                              (nbyte_recv (stats st) + ar_len a)) st)
                    else set_stats (mkStats (nmsg_sent (stats st))
                              (nbyte_sent (stats st)) (nmsg_recv (stats st) + 1)
                              (nbyte_recv (stats st) + ar_len a)) st)
                 ≫= post_recv_buf (i m) = Ok st2)
      by (rewrite Hinv; exact Hpost).
    apply dispatch_frame in Hd as [Hc Ht].
    split; [ | split; [reflexivity | split]].
    + apply orb_true_iff in Hnow as [Hn | Hn].
      * left. apply negb_true_iff. exact Hn.
      * right. apply Z.eqb_eq. exact Hn.
    + rewrite Ht. destruct (is_ordered (attr m)); reflexivity.
    + rewrite Hc. destruct (is_ordered (attr m)); reflexivity.
  - right. apply orb_false_iff in Hnow as [Hord Hne].
    apply negb_false_iff in Hord. apply Z.eqb_neq in Hne.
    destruct (Z.of_nat (length q) >=? maxq_ P); [discriminate | ].
    injection Harr as <- <-. simpl. tauto.
Qed.

End Server.

(** *** Lists *)

Lemma NoDup_app_disjoint {A : Type} (l1 l2 : list A) (x : A) :
  List.NoDup (l1 ++ l2) -> In x l1 -> In x l2 -> False.
Proof.
  induction l1 as [ | a l1 IH]; simpl; [tauto | ].
  intros Hnd [-> | Hin] Hin2.
  - apply NoDup_cons_iff in Hnd as [Hnotin _]. apply Hnotin, in_or_app. tauto.
  - apply NoDup_cons_iff in Hnd as [_ Hnd]. exact (IH Hnd Hin Hin2).
Qed.

Lemma Permutation_filter {A : Type} (f : A -> bool) (l1 l2 : list A) :
  Permutation l1 l2 -> Permutation (List.filter f l1) (List.filter f l2).
Proof.
  induction 1 as [ | x l1 l2 _ IH | x y l | l1 l2 l3 _ IH1 _ IH2]; simpl.
  - constructor.
  - destruct (f x); [constructor | ]; exact IH.
  - destruct (f x), (f y); try reflexivity. constructor.
  - etransitivity; eassumption.
Qed.

Lemma not_in_seqZ (c D : Z) : 0 <= c -> ~ In c (seqZ 0 D) -> D <= c.
Proof.
  intros Hc Hnotin. destruct (Z_lt_le_dec c D) as [Hlt | Hle]; [ | exact Hle].
  exfalso. apply Hnotin. apply list_elem_of_In, elem_of_seqZ. lia.
Qed.

(** Two lists with the same elements and the same keys, the keys being
    pairwise different, are the same list. *)
Lemma Permutation_same_keys {A B : Type} (key : A -> B) (l1 l2 : list A) :
  Permutation l1 l2 -> map key l1 = map key l2 -> List.NoDup (map key l2) ->
  l1 = l2.
Proof.
  revert l2. induction l1 as [ | a l1 IH]; intros l2 Hperm Hkeys Hnd.
  - apply Permutation_nil in Hperm. subst. reflexivity.
  - destruct l2 as [ | b l2]; [discriminate | ].
    simpl in Hkeys. injection Hkeys as Hkey Hkeys.
    assert (Hab : a = b).
    { assert (Hin : In a (b :: l2))
        by (apply (Permutation_in _ Hperm); left; reflexivity).
      destruct Hin as [Hb | Hin]; [symmetry; exact Hb | ].
      exfalso. simpl in Hnd. apply NoDup_cons_iff in Hnd as [Hnotin _].
      apply Hnotin. rewrite <- Hkey. apply in_map. exact Hin. }
    subst b. f_equal. apply IH.
    + apply Permutation_cons_inv in Hperm. exact Hperm.
    + exact Hkeys.
    + simpl in Hnd. apply NoDup_cons_iff in Hnd as [_ Hnd]. exact Hnd.
Qed.

(** *** Counters *)

Lemma counter_insert_same (rc : gmap ProcessID Z) (p : ProcessID) (v : Z) :
  counter (<[p := v]> rc) p = v.
Proof. unfold counter. rewrite lookup_insert_eq. reflexivity. Qed.

Lemma counter_insert_other (rc : gmap ProcessID Z) (p q : ProcessID) (v : Z) :
  p <> q -> counter (<[p := v]> rc) q = counter rc q.
Proof. intros Hne. unfold counter. rewrite lookup_insert_ne by exact Hne. reflexivity. Qed.

Lemma wrap16_small (x : Z) : 0 <= x < 2 ^ 16 -> wrap16 x = x.
Proof. intros Hx. unfold wrap16. apply Z.mod_small. exact Hx. Qed.

(** *** Sorting by count *)

#[global] Instance count_le_transitive : Transitive count_le.
Proof. intros a b c. unfold count_le. lia. Qed.

#[global] Instance count_le_total : Total count_le.
Proof. intros a b. unfold count_le. lia. Qed.

Lemma sort_by_count_perm (l : list qmsg) : Permutation (sort_by_count l) l.
Proof. apply merge_sort_Permutation. Qed.

Lemma sort_by_count_sorted (l : list qmsg) : Sorted count_le (sort_by_count l).
Proof. apply Sorted_merge_sort. apply _. Qed.

(** *** The order of delivery for one source *)

Section Order.
Variable K : Constants.
Variable P : Params.
Variable memalign_ok : Z -> Z -> bool.
Variable sort : list qmsg -> list qmsg.
Variable s : ProcessID.
Hypothesis sort_perm : forall l, Permutation (sort l) l.
Hypothesis sort_sorted : forall l, Sorted count_le (sort l).

Local Abbreviation delivered := (delivered K s).
Local Abbreviation parked := (parked s).
Local Abbreviation expected := (expected K s).
Local Abbreviation in_sequence := (in_sequence K s).
Local Abbreviation fifo_inv := (fifo_inv K s).
Local Abbreviation settled := (settled K s).
Local Abbreviation pass_inv := (pass_inv K s).
Local Abbreviation arrivals l :=
  (List.filter (ordered_from K s) (map qmsg_of l)).

Lemma delivered_snoc (st st' : RMI) (m : qmsg) :
  invoked (trace st') = invoked (trace st) ++ [m] ->
  delivered st' = delivered st ++ (if ordered_from K s m then [m] else []).
Proof.
  intros Ht. unfold Rmi.delivered. rewrite Ht, List.filter_app. simpl.
  destruct (ordered_from K s m); reflexivity.
Qed.

Lemma delivered_same (st st' : RMI) :
  invoked (trace st') = invoked (trace st) -> delivered st' = delivered st.
Proof. intros Ht. unfold Rmi.delivered. rewrite Ht. reflexivity. Qed.

Lemma parked_app (q1 q2 : list qmsg) : parked (q1 ++ q2) = parked q1 ++ parked q2.
Proof. apply List.filter_app. Qed.

Lemma ordered_from_source (m : qmsg) :
  ordered_from K s m = true -> is_ordered K (attr m) = true /\ src m = s.
Proof.
  unfold ordered_from. intros Hm. apply andb_true_iff in Hm as [Ho Hs].
  apply bool_decide_eq_true in Hs. tauto.
Qed.

Lemma not_from_source (m : qmsg) : src m <> s -> ordered_from K s m = false.
Proof.
  intros Hne. unfold ordered_from. apply andb_false_iff. right.
  apply bool_decide_eq_false. exact Hne.
Qed.

Lemma expected_prefix (A B : list qmsg) : expected (A ++ B) -> expected A.
Proof.
  intros [Hnd Hall]. split.
  - rewrite map_app in Hnd. exact (NoDup_app_remove_r _ _ Hnd).
  - apply Forall_app in Hall. tauto.
Qed.

Lemma expected_In (A : list qmsg) (m : qmsg) :
  expected A -> In m A -> 0 <= count m < 2 ^ 16 /\ ordered_from K s m = true.
Proof.
  intros [_ Hall] Hin. rewrite List.Forall_forall in Hall. exact (Hall m Hin).
Qed.

Lemma expected_Permutation (A B : list qmsg) :
  Permutation A B -> expected B -> expected A.
Proof.
  intros Hperm [Hnd Hall]. split.
  - apply (Permutation_NoDup (l := map count B)); [ | exact Hnd].
    apply Permutation_map. symmetry. exact Hperm.
  - rewrite List.Forall_forall in *. intros m Hin. apply Hall.
    exact (Permutation_in _ Hperm Hin).
Qed.

(** A message of the source that is not yet delivered carries a stamp that
    is not below the number delivered, and it matches the receive counter
    exactly when it is the next one. *)
Lemma next_in_sequence (st : RMI) (X : list qmsg) (m : qmsg) :
  in_sequence st ->
  expected (delivered st ++ X) ->
  In m X ->
  Z.of_nat (length (delivered st)) <= count m < 2 ^ 16
  /\ (count m = counter (recv_counters st) s
      <-> count m = Z.of_nat (length (delivered st))).
Proof.
  intros [Hseq Hcnt] Hexp Hin.
  destruct (expected_In _ m Hexp ltac:(apply in_or_app; tauto)) as [Hrange _].
  destruct Hexp as [Hnd _]. rewrite map_app in Hnd.
  assert (Hlow : Z.of_nat (length (delivered st)) <= count m).
  { apply not_in_seqZ; [lia | ]. rewrite <- Hseq. intros Hdel.
    exact (NoDup_app_disjoint _ _ _ Hnd Hdel (in_map count _ _ Hin)). }
  split; [lia | ]. rewrite Hcnt, wrap16_small by lia. tauto.
Qed.

Lemma in_sequence_next (st st' : RMI) (m : qmsg) :
  in_sequence st ->
  delivered st' = delivered st ++ [m] ->
  count m = Z.of_nat (length (delivered st)) -> count m < 2 ^ 16 ->
  counter (recv_counters st') s = wrap16 (counter (recv_counters st) s + 1) ->
  in_sequence st'.
Proof.
  intros [Hseq Hcnt] Hd Hm Hlt Hc. split.
  - rewrite Hd, map_app, length_app, Hseq. simpl.
    replace (length (delivered st) + 1)%nat with (S (length (delivered st))) by lia.
    rewrite seqZ_S, Hm. reflexivity.
  - rewrite Hc, Hcnt, Hd, length_app. simpl.
    rewrite (wrap16_small (Z.of_nat (length (delivered st)))) by lia.
    f_equal. lia.
Qed.

Lemma in_sequence_same (st st' : RMI) :
  in_sequence st ->
  delivered st' = delivered st ->
  counter (recv_counters st') s = counter (recv_counters st) s ->
  in_sequence st'.
Proof.
  intros [Hseq Hcnt] Hd Hc. split; rewrite ?Hd, ?Hc; assumption.
Qed.

Lemma arrive_keeps_inv (a : arrival) (st : RMI) (q A : list qmsg) (st' : RMI)
    (q' : list qmsg) :
  expected (A ++ arrivals [a]) ->
  fifo_inv st q A ->
  arrive K P memalign_ok a (st, q) = Ok (st', q') ->
  fifo_inv st' q' (A ++ arrivals [a]).
Proof.
  intros Hexp [Hseq Hperm] Harr. simpl in Hexp |- *.
  apply arrive_cases in Harr. cbv zeta in Harr.
  set (m := qmsg_of a) in *.
  destruct (ordered_from K s m) eqn:Hm.
  - (* an ordered message of the source *)
    destruct (ordered_from_source m Hm) as [Hord Hsrc].
    assert (Hexp' : expected (delivered st ++ (parked q ++ [m]))).
    { apply (expected_Permutation _ (A ++ [m])); [ | exact Hexp].
      rewrite app_assoc. apply Permutation_app_tail. exact Hperm. }
    destruct (next_in_sequence st (parked q ++ [m]) m Hseq Hexp'
                ltac:(apply in_or_app; right; left; reflexivity))
      as [Hrange Hnext].
    destruct Harr as [(Hnow & -> & Ht & Hc) | (_ & Hne & -> & Ht & Hc)].
    + destruct Hnow as [Hno | Heq]; [congruence | ].
      rewrite Hsrc in Heq. apply Hnext in Heq.
      pose proof (delivered_snoc st st' m Ht) as Hd. rewrite Hm in Hd.
      split.
      * apply (in_sequence_next st st' m Hseq Hd Heq); [lia | ].
        rewrite Hc, Hord, Hsrc. apply counter_insert_same.
      * rewrite Hd, <- app_assoc.
        etransitivity; [apply Permutation_app_head, Permutation_app_comm | ].
        rewrite app_assoc. apply Permutation_app_tail. exact Hperm.
    + split.
      * apply (in_sequence_same st st' Hseq (delivered_same st st' Ht)).
        rewrite Hc. reflexivity.
      * rewrite (delivered_same st st' Ht), parked_app. simpl.
        unfold from_source. rewrite bool_decide_eq_true_2 by exact Hsrc.
        rewrite app_assoc. apply Permutation_app_tail. exact Hperm.
  - (* any other message *)
    rewrite app_nil_r.
    destruct Harr as [(_ & -> & Ht & Hc) | (Hord & _ & -> & Ht & Hc)].
    + pose proof (delivered_snoc st st' m Ht) as Hd. rewrite Hm, app_nil_r in Hd.
      split; [ | rewrite Hd; exact Hperm].
      apply (in_sequence_same st st' Hseq Hd). rewrite Hc.
      destruct (is_ordered K (attr m)) eqn:Hord; [ | reflexivity].
      apply counter_insert_other. intros Hsrc.
      unfold ordered_from in Hm. rewrite Hord in Hm. simpl in Hm.
      apply bool_decide_eq_false in Hm. contradiction.
    + assert (Hsrc : src m <> s).
      { intros Hsrc. unfold ordered_from in Hm. rewrite Hord in Hm. simpl in Hm.
        apply bool_decide_eq_false in Hm. contradiction. }
      split.
      * apply (in_sequence_same st st' Hseq (delivered_same st st' Ht)).
        rewrite Hc. reflexivity.
      * rewrite (delivered_same st st' Ht), parked_app. simpl.
        unfold from_source. rewrite bool_decide_eq_false_2 by exact Hsrc.
        rewrite app_nil_r. exact Hperm.
Qed.

Lemma arrivals_cons (a : arrival) (l : list arrival) :
  arrivals (a :: l) = arrivals [a] ++ arrivals l.
Proof. simpl. destruct (ordered_from K s (qmsg_of a)); reflexivity. Qed.

Lemma arrivals_app (l1 l2 : list arrival) :
  arrivals (l1 ++ l2) = arrivals l1 ++ arrivals l2.
Proof. rewrite map_app. apply List.filter_app. Qed.

Lemma arrive_all_keeps_inv (b : list arrival) (st : RMI) (q A : list qmsg)
    (st' : RMI) (q' : list qmsg) :
  expected (A ++ arrivals b) ->
  fifo_inv st q A ->
  arrive_all K P memalign_ok b (st, q) = Ok (st', q') ->
  fifo_inv st' q' (A ++ arrivals b).
Proof.
  revert st q A. induction b as [ | a b IH]; intros st q A Hexp Hinv Hall.
  - simpl in Hall |- *. injection Hall as <- <-. rewrite app_nil_r. exact Hinv.
  - change (arrive_all K P memalign_ok (a :: b) (st, q))
      with (arrive K P memalign_ok a (st, q) ≫= arrive_all K P memalign_ok b) in Hall.
    apply bind_Ok in Hall as ([st1 q1] & Ha & Hall).
    rewrite arrivals_cons, app_assoc in Hexp |- *.
    apply (IH st1 q1 _ Hexp); [ | exact Hall].
    apply (arrive_keeps_inv a st q A st1 q1); [ | exact Hinv | exact Ha].
    exact (expected_prefix _ _ Hexp).
Qed.

Lemma parked_cons_same (m : qmsg) (l : list qmsg) :
  src m = s -> parked (m :: l) = m :: parked l.
Proof.
  intros Hsrc. unfold Rmi.parked. simpl. unfold from_source at 1.
  rewrite bool_decide_eq_true_2 by exact Hsrc. reflexivity.
Qed.

Lemma parked_cons_other (m : qmsg) (l : list qmsg) :
  src m <> s -> parked (m :: l) = parked l.
Proof.
  intros Hsrc. unfold Rmi.parked. simpl. unfold from_source at 1.
  rewrite bool_decide_eq_false_2 by exact Hsrc. reflexivity.
Qed.

Lemma parked_In (m : qmsg) (l : list qmsg) : In m (parked l) -> In m l.
Proof. unfold Rmi.parked. intros Hin. apply filter_In in Hin. tauto. Qed.

(** The pass over the sorted queue keeps the invariant and leaves no
    message of the source that is next in sequence. *)
Lemma drain_keeps_inv (rest : list qmsg) :
  forall (st : RMI) (left A : list qmsg) (st' : RMI) (q' : list qmsg),
    expected A ->
    StronglySorted count_le rest ->
    pass_inv st left rest A ->
    drain K P memalign_ok rest st left = Ok (st', q') ->
    fifo_inv st' q' A /\ settled st' q'.
Proof.
  induction rest as [ | m rest IH];
    intros st left A st' q' Hexp Hsorted (Hseq & Hperm & Hleft & Hlt) Hdrain.
  - simpl in Hdrain. injection Hdrain as <- <-.
    simpl in Hperm. rewrite app_nil_r in Hperm.
    split; [split; assumption | exact Hleft].
  - apply StronglySorted_inv in Hsorted as [Hsorted Hhead].
    assert (Hexp' : expected (delivered st ++ (parked left ++ parked (m :: rest))))
      by exact (expected_Permutation _ _ Hperm Hexp).
    change (drain K P memalign_ok (m :: rest) st left)
      with (if count m =? counter (recv_counters st) (src m)
            then invoke K P memalign_ok m (advance (src m) st)
                 ≫= (fun st1 => post_recv_buf K P memalign_ok (i m) st1
                 ≫= (fun st2 => drain K P memalign_ok rest st2 left))
            else drain K P memalign_ok rest st (left ++ [m])) in Hdrain.
    destruct (decide (src m = s)) as [Hsrc | Hsrc].
    + (* a message of the source *)
      rewrite (parked_cons_same m rest Hsrc) in Hexp', Hperm, Hlt.
      destruct (next_in_sequence st _ m Hseq Hexp'
                  ltac:(apply in_or_app; right; left; reflexivity))
        as [Hrange Hnext].
      destruct (expected_In _ m Hexp'
                  ltac:(apply in_or_app; right; apply in_or_app; right; left; reflexivity))
        as [_ Hm].
      rewrite Hsrc in Hdrain.
      destruct (Z.eqb_spec (count m) (counter (recv_counters st) s)) as [Heq | Hne].
      * apply Hnext in Heq.
        apply bind_Ok in Hdrain as (st1 & Hinvoke & Hdrain).
        apply bind_Ok in Hdrain as (st2 & Hpost & Hdrain).
        apply invoke_frame in Hinvoke as [Hc1 Ht1].
        apply post_recv_buf_frame in Hpost as [Hc2 Ht2].
        assert (Hnoleft : parked left = []).
        { destruct (parked left) as [ | x l] eqn:Hpl; [reflexivity | exfalso].
          pose proof (Hleft x ltac:(left; reflexivity)).
          pose proof (Hlt x m ltac:(left; reflexivity) ltac:(left; reflexivity)).
          lia. }
        assert (Hd : delivered st2 = delivered st ++ [m]).
        { rewrite (delivered_snoc (advance s st) st2 m), Hm; [reflexivity | ].
          rewrite Ht2, Ht1. reflexivity. }
        apply (IH st2 left A st' q' Hexp Hsorted); [ | exact Hdrain].
        unfold Rmi.pass_inv. rewrite Hnoleft in Hperm |- *.
        split; [ | split; [ | split]].
        -- apply (in_sequence_next st st2 m Hseq Hd Heq); [lia | ].
           rewrite Hc2, Hc1. apply counter_insert_same.
        -- rewrite Hd, <- app_assoc. exact Hperm.
        -- intros x [].
        -- intros x y [].
      * assert (Hbelow : Z.of_nat (length (delivered st)) < count m).
        { destruct (Z.eq_dec (count m) (Z.of_nat (length (delivered st)))) as [He | He];
            [apply Hnext in He; contradiction | lia]. }
        apply (IH st (left ++ [m]) A st' q' Hexp Hsorted); [ | exact Hdrain].
        unfold Rmi.pass_inv. rewrite parked_app, (parked_cons_same m [] Hsrc).
        change (parked []) with (@nil qmsg).
        split; [exact Hseq | split; [ | split]].
        -- rewrite <- app_assoc. exact Hperm.
        -- intros x Hx. apply in_app_or in Hx as [Hx | [<- | []]];
             [exact (Hleft x Hx) | exact Hbelow].
        -- intros x y Hx Hy. apply in_app_or in Hx as [Hx | [<- | []]].
           ++ apply (Hlt x y Hx). right. exact Hy.
           ++ rewrite List.Forall_forall in Hhead.
              pose proof (Hhead y (parked_In y rest Hy)) as Hle.
              unfold count_le in Hle.
              destruct Hexp' as [Hnd _]. rewrite !map_app in Hnd.
              apply NoDup_app_remove_l, NoDup_app_remove_l in Hnd.
              simpl in Hnd. apply NoDup_cons_iff in Hnd as [Hnotin _].
              destruct (Z.eq_dec (count m) (count y)) as [He | He]; [ | lia].
              exfalso. apply Hnotin. rewrite He. apply in_map. exact Hy.
    + (* a message of another source *)
      rewrite (parked_cons_other m rest Hsrc) in Hperm, Hlt.
      destruct (count m =? counter (recv_counters st) (src m)).
      * apply bind_Ok in Hdrain as (st1 & Hinvoke & Hdrain).
        apply bind_Ok in Hdrain as (st2 & Hpost & Hdrain).
        apply invoke_frame in Hinvoke as [Hc1 Ht1].
        apply post_recv_buf_frame in Hpost as [Hc2 Ht2].
        assert (Hd : delivered st2 = delivered st).
        { rewrite (delivered_snoc (advance (src m) st) st2 m),
            (not_from_source m Hsrc); [apply app_nil_r | ].
          rewrite Ht2, Ht1. reflexivity. }
        apply (IH st2 left A st' q' Hexp Hsorted); [ | exact Hdrain].
        unfold Rmi.pass_inv. rewrite Hd.
        split; [ | split; [exact Hperm | split; assumption]].
        apply (in_sequence_same st st2 Hseq Hd).
        rewrite Hc2, Hc1. apply counter_insert_other. exact Hsrc.
      * apply (IH st (left ++ [m]) A st' q' Hexp Hsorted); [ | exact Hdrain].
        unfold Rmi.pass_inv.
        rewrite parked_app, (parked_cons_other m [] Hsrc).
        change (parked []) with (@nil qmsg). rewrite app_nil_r.
        split; [exact Hseq | split; [exact Hperm | split; assumption]].
Qed.

Lemma wakeup_keeps_inv (b : list arrival) (st : RMI) (q A : list qmsg)
    (st' : RMI) (q' : list qmsg) :
  expected (A ++ arrivals b) ->
  fifo_inv st q A ->
  wakeup K P memalign_ok sort b (st, q) = Ok (st', q') ->
  fifo_inv st' q' (A ++ arrivals b) /\ settled st' q'.
Proof.
  intros Hexp Hinv Hw. unfold Rmi.wakeup in Hw.
  apply bind_Ok in Hw as ([st1 q1] & Hall & Hw).
  apply bind_Ok in Hw as ([st2 q2] & Hdrain & Hw).
  apply bind_Ok in Hw as (st3 & Hpost & Hw). injection Hw as <- <-.
  assert (Hinv1 : fifo_inv st1 q1 (A ++ arrivals b)).
  { apply (arrive_all_keeps_inv b (receive_into b st) q A st1 q1 Hexp);
      [exact Hinv | exact Hall]. }
  destruct Hinv1 as [Hseq1 Hperm1].
  destruct (drain_keeps_inv (sort q1) st1 [] (A ++ arrivals b) st2 q2 Hexp)
    as [[Hseq2 Hperm2] Hsettled2].
  - apply Sorted_StronglySorted; [apply _ | apply sort_sorted].
  - split; [exact Hseq1 | split; [ | split]].
    + simpl. etransitivity; [ | exact Hperm1].
      apply Permutation_app_head, Permutation_filter, sort_perm.
    + intros x [].
    + intros x y [].
  - exact Hdrain.
  - apply post_pending_frame in Hpost as [Hc Ht].
    pose proof (delivered_same st2 st3 Ht) as Hd.
    split; [split | ].
    + apply (in_sequence_same st2 st3 Hseq2 Hd). rewrite Hc. reflexivity.
    + rewrite Hd. exact Hperm2.
    + unfold Rmi.settled. rewrite Hd. exact Hsettled2.
Qed.

Lemma run_loop_keeps_inv (batches : list (list arrival)) :
  forall (st : RMI) (q A : list qmsg) (st' : RMI) (q' : list qmsg),
    expected (A ++ arrivals (concat batches)) ->
    fifo_inv st q A -> settled st q ->
    run_loop K P memalign_ok sort batches (st, q) = Ok (st', q') ->
    fifo_inv st' q' (A ++ arrivals (concat batches)) /\ settled st' q'.
Proof.
  induction batches as [ | b batches IH]; intros st q A st' q' Hexp Hinv Hset Hrun.
  - simpl in Hrun |- *. injection Hrun as <- <-. rewrite app_nil_r. tauto.
  - change (run_loop K P memalign_ok sort (b :: batches) (st, q))
      with (wakeup K P memalign_ok sort b (st, q)
            ≫= run_loop K P memalign_ok sort batches) in Hrun.
    apply bind_Ok in Hrun as ([st1 q1] & Hw & Hrun).
    change (concat (b :: batches)) with (b ++ concat batches) in Hexp |- *.
    rewrite arrivals_app, app_assoc in Hexp |- *.
    destruct (wakeup_keeps_inv b st q A st1 q1 (expected_prefix _ _ Hexp) Hinv Hw)
      as [Hinv1 Hset1].
    exact (IH st1 q1 _ st' q' Hexp Hinv1 Hset1 Hrun).
Qed.

(** Once every message of the source has arrived and a pass over the queue
    has been made, all of them have been delivered, in the order of their
    stamps. *)
Lemma all_delivered (st : RMI) (q U : list qmsg) (N : Z) :
  fifo_inv st q U -> settled st q ->
  Permutation (map count U) (seqZ 0 N) ->
  parked q = []
  /\ Permutation (delivered st) U
  /\ map count (delivered st) = seqZ 0 N.
Proof.
  intros [[Hseq Hcnt] Hperm] Hset Hcounts.
  set (D := Z.of_nat (length (delivered st))) in *.
  assert (HlenU : length U = Z.to_nat N).
  { rewrite <- (length_map count U), (Permutation_length Hcounts).
    apply length_seqZ. }
  assert (Hlen : (length (delivered st) + length (parked q))%nat = length U)
    by (rewrite <- length_app; exact (Permutation_length Hperm)).
  assert (HD : N <= D).
  { destruct (Z_lt_le_dec D N) as [Hlt | Hle]; [exfalso | exact Hle].
    assert (HinD : In D (map count U)).
    { apply (Permutation_in _ (Permutation_sym Hcounts)).
      apply list_elem_of_In, elem_of_seqZ. lia. }
    apply in_map_iff in HinD as (m & Hm & Hin).
    apply (Permutation_in _ (Permutation_sym Hperm)) in Hin.
    apply in_app_or in Hin as [Hin | Hin].
    - apply (in_map count) in Hin. rewrite Hseq in Hin.
      apply list_elem_of_In, elem_of_seqZ in Hin. lia.
    - apply Hset in Hin. fold D in Hin. lia. }
  assert (Hnone : parked q = []).
  { destruct (parked q); [reflexivity | simpl in Hlen; lia]. }
  rewrite Hnone, app_nil_r in Hperm.
  split; [exact Hnone | split; [exact Hperm | ]].
  rewrite Hseq. fold D.
  rewrite Hnone in Hlen. simpl in Hlen.
  destruct (Z_lt_le_dec N 0) as [Hneg | Hpos].
  - assert (D = 0) by lia. rewrite (seqZ_nil 0 N) by lia.
    rewrite H. reflexivity.
  - f_equal. lia.
Qed.

End Order.

(** *** Stamps *)

Lemma shifted_counter_small (c : Z) :
  0 <= c < 2 ^ 16 -> wrap32 (Z.shiftl c 16) = Z.shiftl c 16.
Proof.
  intros Hc. unfold wrap32. apply Z.mod_small.
  rewrite Z.shiftl_mul_pow2 by lia. lia.
Qed.

(** The stamp sits above the low 16 bits: it leaves a flag of the low bits
    as it is, and it is what the receiver reads back. *)
Lemma stamp_keeps_flag (a c M : Z) :
  0 <= c < 2 ^ 16 -> 0 <= M < 2 ^ 16 ->
  Z.land (Z.lor a (wrap32 (Z.shiftl c 16))) M = Z.land a M.
Proof.
  intros Hc HM. rewrite shifted_counter_small by exact Hc.
  rewrite Z.land_lor_distr_l.
  assert (Hzero : Z.land (Z.shiftl c 16) M = 0).
  { apply Z.bits_inj'. intros n Hn. rewrite Z.land_spec, Z.bits_0.
    destruct (Z_lt_le_dec n 16) as [Hlow | Hhigh].
    - rewrite Z.shiftl_spec_low by lia. reflexivity.
    - rewrite <- (Z.mod_small M (2 ^ 16)) by lia.
      rewrite Z.mod_pow2_bits_high by lia. apply andb_false_r. }
  rewrite Hzero. apply Z.lor_0_r.
Qed.

Lemma stamp_read_back (a c : Z) :
  0 <= a < 2 ^ 16 -> 0 <= c < 2 ^ 16 ->
  wrap16 (Z.shiftr (Z.lor a (wrap32 (Z.shiftl c 16))) 16) = c.
Proof.
  intros Ha Hc. rewrite shifted_counter_small by exact Hc.
  rewrite Z.shiftr_lor.
  rewrite (Z.shiftr_div_pow2 a) by lia. rewrite (Z.div_small a) by lia.
  rewrite Z.shiftr_shiftl_l by lia. rewrite Z.sub_diag, Z.shiftl_0_r.
  rewrite Z.lor_0_l. apply wrap16_small. exact Hc.
Qed.

Lemma wrap16_range (x : Z) : 0 <= wrap16 x < 2 ^ 16.
Proof. unfold wrap16. apply Z.mod_pos_bound. lia. Qed.

Section Sender.
Variable K : Constants.
Variable P : Params.
Variable dest : ProcessID.
Hypothesis K_ok : constants_ok K.

Local Abbreviation is_ordered := (is_ordered K).
Local Abbreviation sent_ordered := (sent_ordered K dest).

Lemma is_ordered_stamp (attr c : Z) :
  0 <= c < 2 ^ 16 -> is_ordered (stamp K attr c) = is_ordered attr.
Proof.
  intros Hc. unfold stamp. destruct (is_ordered attr) eqn:Hord; [ | exact Hord].
  unfold Rmi.is_ordered in *. rewrite stamp_keeps_flag; [exact Hord | exact Hc | ].
  destruct K_ok as (HM & _). lia.
Qed.

Lemma sent_ordered_app (t1 t2 : list event) :
  sent_ordered (t1 ++ t2) = sent_ordered t1 ++ sent_ordered t2.
Proof. unfold Rmi.sent_ordered. apply omap_app. Qed.

(** One call of [private_isend]: an ordered message carries the value of
    the send counter of its destination as its stamp, and the counter is
    advanced; an unordered message leaves the counters as they are. *)
Lemma private_isend_stamps (fuel : nat) :
  forall words nbyte d func attr st st',
    (forall p, 0 <= counter (send_counters st) p < 2 ^ 16) ->
    private_isend K P fuel words nbyte d func attr st = Some (Ok st') ->
    sent_ordered (trace st') =
      sent_ordered (trace st) ++
        (if is_ordered attr && bool_decide (d = dest)
         then [(func, stamp K attr (counter (send_counters st) d), nbyte)]
         else [])
    /\ send_counters st' =
       (if is_ordered attr
        then <[d := wrap16 (counter (send_counters st) d + 1)]> (send_counters st)
        else send_counters st).
Proof.
  induction fuel as [ | fuel IH]; intros words nbyte d func attr st st' Hrange;
    [discriminate | ].
  simpl. destruct (max_msg_len_ P <? nbyte).
  - (* a huge message: the control record goes first *)
    destruct (private_isend K P fuel _ _ d huge_msg_handler_ptr (ATTR_UNORDERED K) _)
      as [[st1 | m x] | ] eqn:Hctl; try discriminate.
    apply IH in Hctl; [ | exact Hrange].
    rewrite (is_ordered_unordered K K_ok) in Hctl. simpl in Hctl.
    destruct Hctl as [Ht1 Hc1]. rewrite app_nil_r in Ht1.
    rewrite sent_ordered_app in Ht1. simpl in Ht1. rewrite app_nil_r in Ht1.
    intros [= <-]. simpl. rewrite Hc1.
    pose proof (is_ordered_stamp attr (counter (send_counters st) d) (Hrange d))
      as Hstamp.
    destruct (is_ordered attr) eqn:Hord; simpl;
      rewrite !sent_ordered_app, Ht1; simpl; rewrite Hstamp; simpl;
      [destruct (bool_decide (d = dest)); simpl | ];
      rewrite ?app_nil_r, ?Hc1; split; reflexivity.
  - destruct (nbyte <? HEADER_LEN K); [discriminate | ].
    intros [= <-]. simpl.
    pose proof (is_ordered_stamp attr (counter (send_counters st) d) (Hrange d))
      as Hstamp.
    destruct (is_ordered attr) eqn:Hord; simpl;
      rewrite !sent_ordered_app; simpl; rewrite Hstamp; simpl;
      [destruct (bool_decide (d = dest)); simpl | ];
      rewrite ?app_nil_r; split; reflexivity.
Qed.

Lemma counters_in_range_insert (rc : gmap ProcessID Z) (d : ProcessID) (x : Z) :
  (forall p, 0 <= counter rc p < 2 ^ 16) ->
  forall p, 0 <= counter (<[d := wrap16 x]> rc) p < 2 ^ 16.
Proof.
  intros Hrange p. destruct (decide (d = p)) as [-> | Hne].
  - rewrite counter_insert_same. apply wrap16_range.
  - rewrite counter_insert_other by exact Hne. apply Hrange.
Qed.

Lemma wrap16_succ (G : Z) : wrap16 (wrap16 G + 1) = wrap16 (G + 1).
Proof. unfold wrap16. apply Zplus_mod_idemp_l. Qed.

Lemma sig_count_stamp (func : rmi_handlerT) (attr c nbyte : Z) :
  is_ordered attr = true -> 0 <= attr < 2 ^ 16 -> 0 <= c < 2 ^ 16 ->
  sig_count (func, stamp K attr c, nbyte) = c.
Proof.
  intros Hord Ha Hc. unfold sig_count, stamp. simpl. rewrite Hord.
  apply stamp_read_back; assumption.
Qed.

(** A sequence of calls of [isend]: the ordered messages for [dest] carry
    consecutive stamps, as 16-bit numbers, in the order of the calls. *)
Lemma isend_all_stamps (fuel : nat) (rs : list send_request) :
  forall (G : Z) (st st' : RMI),
    Forall (fun r => 0 <= rq_attr r < 2 ^ 16) rs ->
    (forall p, 0 <= counter (send_counters st) p < 2 ^ 16) ->
    counter (send_counters st) dest = wrap16 G ->
    isend_all K P fuel rs st = Some (Ok st') ->
    exists new,
      sent_ordered (trace st') = sent_ordered (trace st) ++ new
      /\ map sig_count new = map wrap16 (seqZ G (Z.of_nat (length new))).
Proof.
  induction rs as [ | r rs IH]; intros G st st' Hattrs Hrange Hc Hall.
  - injection Hall as <-. exists []. rewrite app_nil_r. split; reflexivity.
  - simpl in Hall. unfold isend in Hall.
    destruct (private_isend K P fuel _ _ _ _ _ st) as [[st1 | m x] | ] eqn:Hsend;
      try discriminate.
    apply private_isend_stamps in Hsend as [Ht1 Hc1]; [ | exact Hrange].
    apply Forall_cons in Hattrs as [Hattr Hattrs].
    assert (Hrange1 : forall p, 0 <= counter (send_counters st1) p < 2 ^ 16).
    { rewrite Hc1. destruct (is_ordered (rq_attr r)); [ | exact Hrange].
      apply counters_in_range_insert. exact Hrange. }
    destruct (is_ordered (rq_attr r)) eqn:Hord; simpl in Ht1.
    + destruct (bool_decide (rq_dest r = dest)) eqn:Hdest.
      * apply bool_decide_eq_true in Hdest.
        destruct (IH (G + 1) st1 st' Hattrs Hrange1) as (new & Hnew & Hcounts);
          [ | exact Hall | ].
        { rewrite Hc1, Hdest, counter_insert_same, Hc. apply wrap16_succ. }
        eexists (_ :: new). split.
        -- rewrite Hnew, Ht1, <- app_assoc. reflexivity.
        -- simpl length. rewrite (seqZ_cons G) by lia. simpl.
           rewrite sig_count_stamp; [ | exact Hord | exact Hattr | apply Hrange].
           rewrite Hdest, Hc. f_equal. rewrite Hcounts. f_equal. f_equal; lia.
      * apply bool_decide_eq_false in Hdest. rewrite app_nil_r in Ht1.
        destruct (IH G st1 st' Hattrs Hrange1) as (new & Hnew & Hcounts);
          [ | exact Hall | ].
        { rewrite Hc1, counter_insert_other by exact Hdest. exact Hc. }
        exists new. rewrite Hnew, Ht1. split; [reflexivity | exact Hcounts].
    + rewrite app_nil_r in Ht1.
      destruct (IH G st1 st' Hattrs Hrange1) as (new & Hnew & Hcounts);
        [ | exact Hall | ].
      { rewrite Hc1. exact Hc. }
      exists new. rewrite Hnew, Ht1. split; [reflexivity | exact Hcounts].
Qed.

(** A run of eager ordered messages to [dest]: every call succeeds and the
    signatures that go out are the stamped ones. *)
Lemma isend_all_eager (fuel : nat) (rs : list send_request) :
  forall (G : Z) (st : RMI),
    Forall (fun r => is_ordered (rq_attr r) = true /\ rq_dest r = dest
                     /\ HEADER_LEN K <= rq_nbyte r <= max_msg_len_ P) rs ->
    (forall p, 0 <= counter (send_counters st) p < 2 ^ 16) ->
    counter (send_counters st) dest = wrap16 G ->
    exists st',
      isend_all K P (S fuel) rs st = Some (Ok st')
      /\ sent_ordered (trace st') = sent_ordered (trace st) ++ stamped K G rs.
Proof.
  induction rs as [ | r rs IH]; intros G st Hall Hrange Hc.
  - exists st. rewrite app_nil_r. split; reflexivity.
  - apply Forall_cons in Hall as [(Hord & Hdest & Hsize) Hall].
    destruct (private_isend_eager K P fuel (rq_words r) (rq_nbyte r) (rq_dest r)
                (rq_func r) (rq_attr r) st Hsize)
      as (st1 & Hsend & _ & Hc1 & _).
    pose proof (private_isend_stamps (S fuel) _ _ _ _ _ _ _ Hrange Hsend) as [Ht1 _].
    rewrite Hord in Hc1, Ht1. rewrite Hdest in *.
    rewrite bool_decide_eq_true_2 in Ht1 by reflexivity. simpl in Ht1.
    destruct (IH (G + 1) st1 Hall) as (st' & Hrest & Ht').
    + rewrite Hc1. apply counters_in_range_insert. exact Hrange.
    + rewrite Hc1, counter_insert_same, Hc. apply wrap16_succ.
    + exists st'. split.
      * change (isend_all K P (S fuel) (r :: rs) st)
          with (match isend K P (S fuel) r st with
                | Some (Ok st) => isend_all K P (S fuel) rs st
                | other => other
                end).
        unfold isend. rewrite Hdest, Hsend. exact Hrest.
      * rewrite Ht', Ht1, <- app_assoc. simpl. rewrite Hc. reflexivity.
Qed.

End Sender.

(** *** Delivery in the order of sending *)

Lemma count_of_signature (a : arrival) :
  count (qmsg_of a) = sig_count (signature_of (qmsg_of a)).
Proof. reflexivity. Qed.

Lemma counts_of_arrivals (K : Constants) (s : ProcessID) (l : list arrival)
    (U : list qmsg) :
  (forall m, In m U ->
             In m (List.filter (ordered_from K s) (map qmsg_of l))) ->
  map sig_count (map signature_of U) = map count U.
Proof.
  intros Hsub. rewrite map_map. apply map_ext_in. intros m Hin.
  apply Hsub, filter_In in Hin as [Hin _].
  apply in_map_iff in Hin as (a & <- & _). symmetry. apply count_of_signature.
Qed.

Lemma wrap16_seqZ (N : Z) : N <= 2 ^ 16 -> map wrap16 (seqZ 0 N) = seqZ 0 N.
Proof.
  intros HN. rewrite <- (map_id (seqZ 0 N)) at 2. apply map_ext_in.
  intros x Hx. apply list_elem_of_In, elem_of_seqZ in Hx.
  apply wrap16_small. lia.
Qed.

(** C1 (amended).  Two processes start with their counters at 0.  The
    sender makes any sequence of calls of [isend], of which at most 2^16
    are ordered messages for the receiver; the transport hands these
    messages to the receiver in any order and in any grouping, among any
    other traffic, and the server loop raises no fatal exception.  Then
    the handlers of these messages are invoked in exactly the order in
    which they were sent, all of them, and none is left in the queue.
    The mechanism: the sender, holding its mutex, writes
    [send_counters[dest]] into the high 16 bits of [attr] and increments the
    counter; the receiver dispatches a message at once if and only if it
    is unordered or its stamp equals [recv_counters[src]], advancing that
    counter for an ordered message, and parks every other ordered message
    at the end of the out-of-order queue, which is sorted by ascending
    stamp and passed over once at each wakeup. *)
Theorem ordered_messages_delivered_in_send_order
    (K : Constants) (Ps Pr : Params) (memalign_ok : Z -> Z -> bool)
    (sort : list qmsg -> list qmsg) (fuel : nat) (rs : list send_request)
    (receiver sender : ProcessID) (batches : list (list arrival))
    (sender' receiver' : RMI) (q' : list qmsg) :
  constants_ok K ->
  (forall l, Permutation (sort l) l) ->
  (forall l, Sorted count_le (sort l)) ->
  Forall (fun r => 0 <= rq_attr r < 2 ^ 16) rs ->
  isend_all K Ps fuel rs RMI_init = Some (Ok sender') ->
  Z.of_nat (length (sent_ordered K receiver (trace sender'))) <= 2 ^ 16 ->
  Permutation (arrived_ordered K sender batches)
              (sent_ordered K receiver (trace sender')) ->
  run K Pr memalign_ok sort batches RMI_init = Ok (receiver', q') ->
  invoked_ordered K sender (trace receiver') = sent_ordered K receiver (trace sender')
  /\ parked sender q' = []
  /\ (forall fuel' words nbyte d func attr st,
        HEADER_LEN K <= nbyte <= max_msg_len_ Ps ->
        is_ordered K attr = true -> 0 <= attr < 2 ^ 16 ->
        0 <= counter (send_counters st) d < 2 ^ 16 ->
        let c := counter (send_counters st) d in
        exists st',
          private_isend K Ps (S fuel') words nbyte d func attr st = Some (Ok st')
          /\ trace st' = trace st ++
               [EvLock;
                EvIsend (mkBuffer func (Z.lor attr (Z.shiftl c 16)) words)
                        nbyte d RMI_TAG;
                EvUnlock]
          /\ send_counters st' = <[d := wrap16 (c + 1)]> (send_counters st)
          /\ wrap16 (Z.shiftr (Z.lor attr (Z.shiftl c 16)) 16) = c)
  /\ (forall a st q st1 q1,
        arrive K Pr memalign_ok a (st, q) = Ok (st1, q1) ->
        let m := qmsg_of a in
        let rc := recv_counters st in
        ((is_ordered K (attr m) = false \/ count m = counter rc (src m))
         /\ q1 = q
         /\ invoked (trace st1) = invoked (trace st) ++ [m]
         /\ recv_counters st1 =
            (if is_ordered K (attr m)
             then <[src m := wrap16 (counter rc (src m) + 1)]> rc else rc))
        \/ (is_ordered K (attr m) = true /\ count m <> counter rc (src m)
            /\ q1 = q ++ [m]
            /\ invoked (trace st1) = invoked (trace st)
            /\ recv_counters st1 = rc)).
Proof.
  intros HK Hsort_perm Hsort_sorted Hattrs Hsend Hbound Harrived Hrun.
  split; [ | split; [ | split]].
  3: { intros fuel' words nbyte d func attr st Hsize Hord Hattr Hc c.
       destruct (private_isend_eager K Ps fuel' words nbyte d func attr st Hsize)
         as (st' & Hs & Ht & Hsc & _).
       exists st'. unfold stamp in Ht. rewrite Hord in Ht, Hsc.
       rewrite shifted_counter_small in Ht by exact Hc.
       repeat split; try assumption.
       rewrite <- (shifted_counter_small c) by exact Hc.
       apply stamp_read_back; assumption. }
  3: { intros a st q st1 q1 Ha. exact (arrive_cases K Pr memalign_ok a st q st1 q1 Ha). }
  all: set (sigs := sent_ordered K receiver (trace sender')) in *;
    set (N := Z.of_nat (length sigs)) in *;
    set (U := List.filter (ordered_from K sender) (map qmsg_of (concat batches))).
  all: assert (Hstamps : map sig_count sigs = seqZ 0 N)
    by (destruct (isend_all_stamps K Ps receiver HK fuel rs 0 RMI_init sender' Hattrs)
          as (new & Hnew & Hcounts);
        [ intros p; unfold counter; simpl; rewrite lookup_empty; simpl; lia
        | reflexivity | exact Hsend | ];
        simpl in Hnew; subst N; fold sigs in Hnew; rewrite Hnew, Hcounts;
        apply wrap16_seqZ; rewrite <- Hnew; exact Hbound).
  all: assert (HcountsU : map sig_count (map signature_of U) = map count U)
    by (apply (counts_of_arrivals K sender (concat batches)); intros m Hm; exact Hm).
  all: assert (Hperm_counts : Permutation (map count U) (seqZ 0 N))
    by (rewrite <- HcountsU, <- Hstamps; apply Permutation_map; exact Harrived).
  all: assert (Hexpected : expected K sender U)
    by (split;
        [ apply (Permutation_NoDup (l := seqZ 0 N));
          [symmetry; exact Hperm_counts | apply NoDup_ListNoDup, NoDup_seqZ]
        | apply List.Forall_forall; intros m Hm;
          apply filter_In in Hm as [Hm Hord];
          apply in_map_iff in Hm as (a & <- & _);
          split; [apply wrap16_range | exact Hord] ]).
  all: destruct (run_loop_keeps_inv K Pr memalign_ok sort sender Hsort_perm Hsort_sorted
                   batches RMI_init [] [] receiver' q' Hexpected)
    as [Hinv Hsettled];
    [ split; [split; reflexivity | constructor]
    | intros m []
    | exact Hrun
    | ].
  all: destruct (all_delivered K sender receiver' q' U N Hinv Hsettled Hperm_counts)
    as (Hnone & Hdelivered & Hcounts).
  - unfold invoked_ordered. fold (delivered K sender receiver').
    apply (Permutation_same_keys sig_count).
    + etransitivity; [apply Permutation_map; exact Hdelivered | exact Harrived].
    + rewrite Hstamps, <- Hcounts.
      apply (counts_of_arrivals K sender (concat batches)).
      intros m Hm. exact (Permutation_in _ Hdelivered Hm).
    + rewrite Hstamps. apply NoDup_ListNoDup, NoDup_seqZ.
  - exact Hnone.
Qed.

Lemma ex_constants_ok : constants_ok ex_constants.
Proof. unfold constants_ok. simpl. repeat split; (lia || reflexivity). Qed.

Lemma ordered_messages_delivered_in_send_order_witness :
  invoked_ordered ex_constants 0 (trace (fst ex_received))
    = sent_ordered ex_constants 1 (trace ex_sent)
  /\ parked 0 (snd ex_received) = [].
Proof.
  pose proof (ordered_messages_delivered_in_send_order
                ex_constants ex_params ex_server ex_memalign_ok sort_by_count
                1 ex_requests 1 0 ex_batches ex_sent (fst ex_received)
                (snd ex_received) ex_constants_ok
                sort_by_count_perm sort_by_count_sorted) as Hthm.
  destruct Hthm as (Horder & Hqueue & _).
  - repeat constructor; simpl; lia.
  - vm_compute. reflexivity.
  - vm_compute. discriminate.
  - vm_compute.
    apply (Permutation_cons_app
             [(user_handler 10, 1, 64); (user_handler 11, 65537, 64)] []).
    reflexivity.
  - vm_compute. reflexivity.
  - split; [exact Horder | exact Hqueue].
Defined.

Lemma stamped_app (K : Constants) (G : Z) (l1 l2 : list send_request) :
  stamped K G (l1 ++ l2)
    = stamped K G l1 ++ stamped K (G + Z.of_nat (length l1)) l2.
Proof.
  revert G. induction l1 as [ | r l1 IH]; intros G.
  - simpl. rewrite Z.add_0_r. reflexivity.
  - change (stamped K G ((r :: l1) ++ l2))
      with ((rq_func r, stamp K (rq_attr r) (wrap16 G), rq_nbyte r)
              :: stamped K (G + 1) (l1 ++ l2)).
    rewrite IH. simpl length. rewrite Nat2Z.inj_succ.
    replace (G + 1 + Z.of_nat (length l1)) with (G + Z.succ (Z.of_nat (length l1)))
      by lia.
    reflexivity.
Qed.

(** C1 as stated fails in two ways.  The pass over the queue does not stop
    at a head that is not next in sequence: with a message of process 5
    waiting for an earlier one at the head of the sorted queue, the message
    of process 6 behind it is dispatched, which a pass that goes on only
    while the head matches would leave in the queue.  And the stamps are
    16-bit numbers: of 2^16 + 1 ordered messages the last carries the stamp
    of the first, and when the server (here with 2^17 buffers posted) sees
    it first its handler runs first, the message sent first then staying in
    the queue. *)
Lemma ordered_messages_delivered_in_send_order_counterexample :
  (exists st1 st2,
     arrive_all ex_constants ex_server ex_memalign_ok ex_two_sources
                (receive_into ex_two_sources RMI_init, [])
       = Ok (st1, [ex_qmsg 5 0 20 1; ex_qmsg 6 1 32 2])
     /\ sort_by_count [ex_qmsg 5 0 20 1; ex_qmsg 6 1 32 2]
        = [ex_qmsg 5 0 20 1; ex_qmsg 6 1 32 2]
     /\ drain ex_constants ex_server ex_memalign_ok
              [ex_qmsg 5 0 20 1; ex_qmsg 6 1 32 2] st1 []
        = Ok (st2, [ex_qmsg 5 0 20 1])
     /\ invoked (trace st2)
        = [ex_qmsg 6 2 30 0; ex_qmsg 6 3 31 1; ex_qmsg 6 1 32 2]
     /\ drain_while_head_matches ex_constants ex_server ex_memalign_ok
                                 [ex_qmsg 5 0 20 1; ex_qmsg 6 1 32 2] st1
        = Ok (st1, [ex_qmsg 5 0 20 1; ex_qmsg 6 1 32 2]))
  /\ (exists sender' middle receiver',
        isend_all ex_constants ex_params 1 ex_many RMI_init = Some (Ok sender')
        /\ sent_ordered ex_constants 1 (trace sender')
           = (user_handler 0, 1, 64) :: middle ++ [(user_handler 2, 1, 64)]
        /\ run ex_constants ex_wide_server ex_memalign_ok sort_by_count
               [[ex_arrival 0 65536 2 0]; [ex_arrival 0 0 0 0]] RMI_init
           = Ok (receiver', [ex_qmsg 0 0 0 0])
        /\ signature_of (qmsg_of (ex_arrival 0 65536 2 0)) = (user_handler 2, 1, 64)
        /\ signature_of (qmsg_of (ex_arrival 0 0 0 0)) = (user_handler 0, 1, 64)
        /\ invoked_ordered ex_constants 0 (trace receiver')
           = [(user_handler 2, 1, 64)]).
Proof.
  split.
  - eexists. eexists. split; [vm_compute; reflexivity | ].
    split; [vm_compute; reflexivity | ].
    split; [vm_compute; reflexivity | ].
    split; vm_compute; reflexivity.
  - unfold ex_many. remember (Z.to_nat 65535) as n eqn:Hn.
    destruct (isend_all_eager ex_constants ex_params 1 ex_constants_ok 0
                (ex_request 0 :: repeat (ex_request 1) n ++ [ex_request 2])
                0 RMI_init) as (sender' & Hsend & Hsent).
    + assert (Hone : forall h,
                is_ordered ex_constants (rq_attr (ex_request h)) = true
                /\ rq_dest (ex_request h) = 1
                /\ HEADER_LEN ex_constants <= rq_nbyte (ex_request h)
                   <= max_msg_len_ ex_params)
        by (intros h; vm_compute; repeat split; discriminate).
      constructor; [apply Hone | ]. apply Forall_app. split.
      * apply List.Forall_forall. intros r Hr. apply repeat_spec in Hr as ->.
        apply Hone.
      * constructor; [apply Hone | constructor].
    + intros p. unfold counter. simpl. rewrite lookup_empty. simpl. lia.
    + reflexivity.
    + exists sender', (stamped ex_constants 1 (repeat (ex_request 1) n)).
      eexists. split; [exact Hsend | ]. split.
      * rewrite Hsent.
        change (sent_ordered ex_constants 1 (trace RMI_init)) with (@nil signature).
        change (stamped ex_constants 0
                  (ex_request 0 :: repeat (ex_request 1) n ++ [ex_request 2]))
          with ((user_handler 0, 1, 64)
                  :: stamped ex_constants 1 (repeat (ex_request 1) n ++ [ex_request 2])).
        rewrite stamped_app, repeat_length, Hn, Z2Nat.id by lia.
        reflexivity.
      * split; [vm_compute; reflexivity | ].
        split; [reflexivity | ]. split; [reflexivity | ].
        vm_compute. reflexivity.
Qed.

Lemma isend_eager_or_rendezvous_witness :
  exists st',
    private_isend ex_constants ex_params 1 [] 100 1 (user_handler 0) 1 RMI_init
      = Some (Ok st')
    /\ trace st' = trace RMI_init ++
         [EvLock;
          EvIsend (mkBuffer (user_handler 0)
                            (stamp ex_constants 1 (counter (send_counters RMI_init) 1)) [])
                  100 1 RMI_TAG;
          EvUnlock].
Proof.
  apply (isend_eager_or_rendezvous ex_constants ex_params ex_memalign_ok
           ex_constants_ok).
  simpl. lia.
Defined.

(** C8 as stated fails for a payload shorter than the header, which is not
    sent at all, and the acknowledgement is not a zero-byte message. *)
Lemma isend_eager_or_rendezvous_counterexample :
  10 <= max_msg_len_ ex_params
  /\ private_isend ex_constants ex_params 2 [] 10 1 (user_handler 0) 0 RMI_init
     = Some (Exception
               "RMI::isend --- your buffer is too small to hold the header" 10)
  /\ (exists st',
        huge_msg_handler ex_constants ex_params ex_memalign_ok
          (mkBuffer huge_msg_handler_ptr 0 [7; 5000]) RMI_init = Ok st'
        /\ trace st' =
           [EvMemalign 64 5000;
            EvIrecv (recv_slot 2) 5000 (from_rank 7) RMI_HUGE_DAT_TAG;
            EvSend 4 7 RMI_HUGE_ACK_TAG]
        /\ 4 <> 0).
Proof.
  split; [simpl; lia | ]. split; [reflexivity | ].
  eexists. split; [reflexivity | ]. split; [reflexivity | lia].
Qed.

End RmiFacts.

(** ** Loops over the container *)

Module ImplFacts.
Import Tensors Mra Impl.

Section WithScalar.
Context {T : Type} `{Scalar T}.

Local Abbreviation entriesT := (list (Key * FunctionNode T)).
Local Abbreviation updateT :=
  (Key -> FunctionNode T -> option (FunctionNode T) -> FunctionNode T).

Lemma loop_lookup_out body (g : updateT) (entries : entriesT) (c : coeffsT T)
    (k : Key) :
  writes_own_key body g -> k ∉ entries.*1 ->
  fold_left body entries c !! k = c !! k.
Proof.
  intros Hbody. revert c. induction entries as [ | [k' n'] entries IH]; intros c Hk.
  - reflexivity.
  - simpl. rewrite IH.
    + rewrite Hbody. simpl. apply lookup_insert_ne. intros ->. apply Hk. left.
    + intros Hin. apply Hk. right. exact Hin.
Qed.

Lemma loop_lookup_in body (g : updateT) (entries : entriesT) (c : coeffsT T)
    (k : Key) (n : FunctionNode T) :
  writes_own_key body g -> NoDup entries.*1 -> (k, n) ∈ entries ->
  fold_left body entries c !! k = Some (g k n (c !! k)).
Proof.
  intros Hbody. revert c. induction entries as [ | [k' n'] entries IH];
    intros c Hnodup Hin.
  - inversion Hin.
  - apply NoDup_cons in Hnodup as [Hfresh Hnodup]. simpl.
    apply elem_of_cons in Hin as [[= -> ->] | Hin].
    + rewrite (loop_lookup_out body g) by assumption.
      rewrite Hbody. simpl. apply lookup_insert_eq.
    + rewrite IH by assumption. rewrite Hbody. simpl.
      assert (Hne : k' <> k).
      { intros ->. apply Hfresh. apply list_elem_of_fmap. exists (k, n). auto. }
      rewrite lookup_insert_ne by exact Hne. reflexivity.
Qed.

Lemma loop_lookup body (g : updateT) (other c : coeffsT T) (k : Key) :
  writes_own_key body g ->
  fold_left body (map_to_list other) c !! k
    = match other !! k with
      | Some n => Some (g k n (c !! k))
      | None => c !! k
      end.
Proof.
  intros Hbody. destruct (other !! k) as [n | ] eqn:Hk.
  - apply (loop_lookup_in body g); [exact Hbody | apply NoDup_fst_map_to_list | ].
    apply elem_of_map_to_list. exact Hk.
  - apply (loop_lookup_out body g); [exact Hbody | ].
    intros Hin. apply list_elem_of_fmap in Hin as ([k' n'] & -> & Hin).
    apply elem_of_map_to_list in Hin. simpl in Hk. congruence.
Qed.

(** The order in which the iterator visits the entries does not matter. *)
Lemma loop_any_order body (g : updateT) (other c : coeffsT T)
    (entries : entriesT) :
  writes_own_key body g -> entries ≡ₚ map_to_list other ->
  fold_left body entries c = fold_left body (map_to_list other) c.
Proof.
  intros Hbody Hperm. apply map_eq. intros k.
  rewrite (loop_lookup body g) by exact Hbody.
  destruct (other !! k) as [n | ] eqn:Hk.
  - apply (loop_lookup_in body g); [exact Hbody | | ].
    + rewrite Hperm. apply NoDup_fst_map_to_list.
    + rewrite Hperm. apply elem_of_map_to_list. exact Hk.
  - apply (loop_lookup_out body g); [exact Hbody | ].
    rewrite Hperm. intros Hin.
    apply list_elem_of_fmap in Hin as ([k' n'] & -> & Hin).
    apply elem_of_map_to_list in Hin. simpl in Hk. congruence.
Qed.


(** *** [copy_coeffs] *)

Lemma copy_coeffs_writes :
  writes_own_key (fun (c : coeffsT T) kn => replace (fst kn) (convert (snd kn)) c)
                 (fun _ n _ => convert n).
Proof. intros c kn. reflexivity. Qed.

(** [copy_coeffs] leaves at every key of [other] a node with the
    coefficients and the [has_children] flag of the node of [other] and
    with [norm_tree] unset (the value [1e300] of a fresh node), whatever the
    entry was before; the entries at keys that [other] does not hold stay as
    they are.  Copying twice is copying once, and the order of the
    iteration over [other] does not matter. *)
Theorem copy_coeffs_nodes (other c : coeffsT T) :
  (forall k, copy_coeffs other c !! k
             = match other !! k with
               | Some n => Some (mkNode (coeff n) norm_tree_unset (has_children n))
               | None => c !! k
               end)
  /\ copy_coeffs other (copy_coeffs other c) = copy_coeffs other c
  /\ (forall entries, entries ≡ₚ map_to_list other ->
                      copy_coeffs_loop entries c = copy_coeffs other c).
Proof.
  assert (Hlook : forall c0 k, copy_coeffs other c0 !! k
             = match other !! k with
               | Some n => Some (mkNode (coeff n) norm_tree_unset (has_children n))
               | None => c0 !! k
               end).
  { intros c0 k. unfold copy_coeffs, copy_coeffs_loop.
    rewrite (loop_lookup _ _ other c0 k copy_coeffs_writes).
    destruct (other !! k); reflexivity. }
  split; [apply Hlook | ]. split.
  - apply map_eq. intros k. rewrite !Hlook. destruct (other !! k); reflexivity.
  - intros entries Hperm.
    exact (loop_any_order _ _ other c entries copy_coeffs_writes Hperm).
Qed.

(** *** [FunctionImpl::gaxpy_inplace] *)

Lemma gaxpy_inplace_writes (alpha beta : T) :
  writes_own_key
    (fun (c : coeffsT T) kn =>
       send (fst kn) (fun this => Mra.gaxpy_inplace this alpha (snd kn) beta) c)
    (fun _ n cur => Mra.gaxpy_inplace (default node_default cur) alpha n beta).
Proof. intros c kn. reflexivity. Qed.

Lemma gaxpy_inplace_lookup (alpha beta : T) (other c : coeffsT T) (k : Key) :
  gaxpy_inplace alpha other beta c !! k
    = match other !! k with
      | Some n =>
        Some (Mra.gaxpy_inplace (default node_default (c !! k)) alpha n beta)
      | None => c !! k
      end.
Proof.
  unfold gaxpy_inplace, gaxpy_inplace_loop.
  exact (loop_lookup _ _ other c k (gaxpy_inplace_writes alpha beta)).
Qed.

(** [gaxpy_inplace(alpha, other, beta)] on functions merges node by node
    over the keys of [other]: the entry of such a key, constructed first
    when it is missing, receives [nodeT::gaxpy_inplace].  A missing entry
    becomes [other*beta] with the [has_children] flag of [other].  The
    entries of keys that [other] does not hold are not visited: they are
    not scaled by [alpha].  The order of the iteration does not matter. *)
Theorem gaxpy_inplace_by_key (alpha beta : T) (other c : coeffsT T) :
  (forall k n, other !! k = Some n ->
     gaxpy_inplace alpha other beta c !! k
       = Some (Mra.gaxpy_inplace (default node_default (c !! k)) alpha n beta))
  /\ (forall k n, other !! k = Some n -> c !! k = None -> has_coeff n = true ->
        exists r,
          gaxpy_inplace alpha other beta c !! k = Some r
          /\ has_children r = has_children n
          /\ dim (coeff r) = dim (coeff n)
          /\ forall idx, elem (coeff r) idx = mul (elem (coeff n) idx) beta)
  /\ (forall k, other !! k = None ->
        gaxpy_inplace alpha other beta c !! k = c !! k)
  /\ (forall entries, entries ≡ₚ map_to_list other ->
        gaxpy_inplace_loop alpha entries beta c = gaxpy_inplace alpha other beta c).
Proof.
  split; [ | split; [ | split]].
  - intros k n Hk. rewrite gaxpy_inplace_lookup, Hk. reflexivity.
  - intros k n Hk Hc Hn. rewrite gaxpy_inplace_lookup, Hk, Hc. eexists.
    split; [reflexivity | ]. unfold Mra.gaxpy_inplace. simpl.
    destruct (has_children n) eqn:Hch; simpl;
      rewrite Hn; simpl; repeat split; try reflexivity; symmetry; exact Hch.
  - intros k Hk. rewrite gaxpy_inplace_lookup, Hk. reflexivity.
  - intros entries Hperm.
    exact (loop_any_order _ _ other c entries (gaxpy_inplace_writes alpha beta) Hperm).
Qed.

(** *** [gaxpy] *)

Lemma node_gaxpy_coeff (this o : FunctionNode T) (a b : T) :
  coeff (Mra.gaxpy_inplace this a o b)
    = if has_coeff this then
        if has_coeff o then Tensors.gaxpy a (coeff this) (coeff o) b
        else scale (coeff this) a
      else if has_coeff o then times (coeff o) b
      else coeff this.
Proof.
  unfold Mra.gaxpy_inplace.
  assert (Hc : forall f, has_coeff (set_has_children this f) = has_coeff this)
    by reflexivity.
  destruct (has_children o); rewrite ?Hc;
    destruct (has_coeff this), (has_coeff o); reflexivity.
Qed.

Lemma node_gaxpy_flag (this o : FunctionNode T) (a b : T) :
  has_children (Mra.gaxpy_inplace this a o b)
    = has_children this || has_children o.
Proof.
  unfold Mra.gaxpy_inplace.
  assert (Hc : forall f, has_coeff (set_has_children this f) = has_coeff this)
    by reflexivity.
  destruct (has_children o) eqn:Ho; rewrite ?Hc;
    destruct (has_coeff this), (has_coeff o); simpl;
    unfold has_children; simpl; rewrite ?orb_true_r, ?orb_false_r; reflexivity.
Qed.

Lemma has_coeff_dim (a b : FunctionNode T) :
  dim (coeff a) = dim (coeff b) -> has_coeff a = has_coeff b.
Proof.
  unfold has_coeff, size, coeff. intros ->. reflexivity.
Qed.

Lemma gaxpy_lookup (one alpha beta : T) (left right c : coeffsT T) (k : Key) :
  gaxpy one alpha left beta right c !! k
    = match right !! k with
      | Some rn =>
        Some (Mra.gaxpy_inplace
                (default node_default (gaxpy_inplace one left alpha c !! k))
                one rn beta)
      | None => gaxpy_inplace one left alpha c !! k
      end.
Proof.
  unfold gaxpy.
  exact (loop_lookup _ _ right _ k (gaxpy_inplace_writes one beta)).
Qed.

(** [gaxpy(alpha, left, beta, right)] into an empty result, for scalars
    with a commutative product of which [1.0] is the unit: a key that both
    functions hold with coefficients (of one shape) gets
    [alpha*left + beta*right]; a key that only [left] holds gets
    [alpha*left], one that only [right] holds [beta*right]; a key that
    neither holds stays absent; and [has_children] of a result node is the
    disjunction of the flags of the nodes it came from. *)
Theorem gaxpy_into_empty (one alpha beta : T) (left right : coeffsT T) :
  (forall x, mul one x = x) ->
  (forall x y : T, mul x y = mul y x) ->
  let r := gaxpy one alpha left beta right ∅ in
  (forall k l rn,
     left !! k = Some l -> right !! k = Some rn ->
     has_coeff l = true -> has_coeff rn = true ->
     exists node,
       r !! k = Some node
       /\ dim (coeff node) = dim (coeff l)
       /\ forall idx, elem (coeff node) idx
            = add (mul alpha (elem (coeff l) idx)) (mul beta (elem (coeff rn) idx)))
  /\ (forall k l,
        left !! k = Some l -> right !! k = None -> has_coeff l = true ->
        exists node,
          r !! k = Some node
          /\ dim (coeff node) = dim (coeff l)
          /\ forall idx, elem (coeff node) idx = mul alpha (elem (coeff l) idx))
  /\ (forall k rn,
        left !! k = None -> right !! k = Some rn -> has_coeff rn = true ->
        exists node,
          r !! k = Some node
          /\ dim (coeff node) = dim (coeff rn)
          /\ forall idx, elem (coeff node) idx = mul beta (elem (coeff rn) idx))
  /\ (forall k, left !! k = None -> right !! k = None -> r !! k = None)
  /\ (forall k node,
        r !! k = Some node ->
        has_children node
          = default false (has_children <$> left !! k)
            || default false (has_children <$> right !! k)).
Proof.
  intros Hone Hcomm r.
  assert (Hr : forall k, r !! k
            = match right !! k with
              | Some rn =>
                Some (Mra.gaxpy_inplace
                        (default node_default
                           (match left !! k with
                            | Some l => Some (Mra.gaxpy_inplace node_default one l alpha)
                            | None => None
                            end))
                        one rn beta)
              | None =>
                match left !! k with
                | Some l => Some (Mra.gaxpy_inplace node_default one l alpha)
                | None => None
                end
              end).
  { intros k. unfold r. rewrite gaxpy_lookup, gaxpy_inplace_lookup, lookup_empty.
    reflexivity. }
  split; [ | split; [ | split; [ | split]]].
  - intros k l rn Hk Hkr Hl Hrn. rewrite Hr, Hkr, Hk. simpl.
    set (n1 := Mra.gaxpy_inplace node_default one l alpha).
    assert (Hn1 : coeff n1 = times (coeff l) alpha)
      by (unfold n1; rewrite node_gaxpy_coeff, Hl; reflexivity).
    assert (Hc1 : has_coeff n1 = true).
    { rewrite <- Hl. apply has_coeff_dim. rewrite Hn1. reflexivity. }
    eexists. split; [reflexivity | ].
    rewrite node_gaxpy_coeff, Hc1, Hrn, Hn1. simpl. split; [reflexivity | ].
    intros idx. rewrite Hone, (Hcomm (elem (coeff l) idx)). reflexivity.
  - intros k l Hk Hkr Hl. rewrite Hr, Hkr, Hk.
    eexists. split; [reflexivity | ].
    rewrite node_gaxpy_coeff, Hl. simpl. split; [reflexivity | ].
    intros idx. apply Hcomm.
  - intros k rn Hk Hkr Hrn. rewrite Hr, Hkr, Hk. simpl.
    eexists. split; [reflexivity | ].
    rewrite node_gaxpy_coeff, Hrn. simpl. split; [reflexivity | ].
    intros idx. apply Hcomm.
  - intros k Hk Hkr. rewrite Hr, Hkr, Hk. reflexivity.
  - intros k node. rewrite Hr.
    destruct (right !! k) as [rn | ], (left !! k) as [l | ]; simpl;
      intros [= <-]; rewrite ?node_gaxpy_flag; simpl; rewrite ?orb_false_r;
      reflexivity.
Qed.

(** *** [scale_oop] *)

Lemma scale_oop_writes (q : T) :
  writes_own_key
    (fun (c : coeffsT T) kn =>
       let node := snd kn in
       if has_coeff node
       then replace (fst kn) (node_of (times (coeff node) q) (has_children node)) c
       else replace (fst kn) (node_of empty_tensor (has_children node)) c)
    (fun _ n _ =>
       if has_coeff n then node_of (times (coeff n) q) (has_children n)
       else node_of empty_tensor (has_children n)).
Proof. intros c [k n]. simpl. destruct (has_coeff n); reflexivity. Qed.

Lemma scale_oop_lookup (q : T) (f c : coeffsT T) (k : Key) :
  scale_oop q f c !! k
    = match f !! k with
      | Some n =>
        Some (if has_coeff n then node_of (times (coeff n) q) (has_children n)
              else node_of empty_tensor (has_children n))
      | None => c !! k
      end.
Proof.
  unfold scale_oop, scale_oop_loop.
  exact (loop_lookup _ _ f c k (scale_oop_writes q)).
Qed.

(** [scale_oop(q, f)] writes, at every key of [f], a fresh node with the
    [has_children] flag of the node of [f] and with its coefficients
    multiplied by [q] element by element (none if it has none); the other
    entries of the result stay as they are, and the order of the iteration
    over [f] does not matter.  Scaling by [q1] into an empty function and
    scaling the result by [q2] gives the keys and flags of [f] with every
    coefficient multiplied by [q1] and then by [q2]. *)
Theorem scale_oop_scales (q1 q2 : T) (f c : coeffsT T) :
  (forall k n, f !! k = Some n ->
     exists r,
       scale_oop q1 f c !! k = Some r
       /\ has_children r = has_children n
       /\ _norm_tree r = norm_tree_unset
       /\ has_coeff r = has_coeff n
       /\ (has_coeff n = true ->
           dim (coeff r) = dim (coeff n)
           /\ forall idx, elem (coeff r) idx = mul (elem (coeff n) idx) q1)
       /\ (has_coeff n = false -> coeff r = empty_tensor))
  /\ (forall k, f !! k = None -> scale_oop q1 f c !! k = c !! k)
  /\ (forall entries, entries ≡ₚ map_to_list f ->
        scale_oop_loop q1 entries c = scale_oop q1 f c)
  /\ (forall k n, f !! k = Some n ->
        exists r,
          scale_oop q2 (scale_oop q1 f ∅) ∅ !! k = Some r
          /\ has_children r = has_children n
          /\ has_coeff r = has_coeff n
          /\ (has_coeff n = true ->
              dim (coeff r) = dim (coeff n)
              /\ forall idx,
                   elem (coeff r) idx = mul (mul (elem (coeff n) idx) q1) q2))
  /\ (forall k, f !! k = None -> scale_oop q2 (scale_oop q1 f ∅) ∅ !! k = None).
Proof.
  split; [ | split; [ | split; [ | split]]].
  - intros k n Hk. rewrite scale_oop_lookup, Hk. eexists. split; [reflexivity | ].
    destruct (has_coeff n) eqn:Hn; simpl.
    + split; [reflexivity | ]. split; [reflexivity | ].
      split; [rewrite <- Hn; apply has_coeff_dim; reflexivity | ].
      split; [intros _; split; reflexivity | discriminate].
    + split; [reflexivity | ]. split; [reflexivity | ].
      split; [reflexivity | ]. split; [discriminate | reflexivity].
  - intros k Hk. rewrite scale_oop_lookup, Hk. reflexivity.
  - intros entries Hperm. unfold scale_oop, scale_oop_loop.
    exact (loop_any_order _ _ f c entries (scale_oop_writes q1) Hperm).
  - intros k n Hk. rewrite !scale_oop_lookup, Hk. eexists. split; [reflexivity | ].
    destruct (has_coeff n) eqn:Hn.
    + assert (Hn' : has_coeff (node_of (times (coeff n) q1) (has_children n)) = true)
        by (rewrite <- Hn; apply has_coeff_dim; reflexivity).
      rewrite Hn'. simpl. split; [reflexivity | ].
      split; [ | intros _; split; reflexivity].
      rewrite <- Hn'. apply has_coeff_dim. reflexivity.
    + simpl. split; [reflexivity | ]. split; [reflexivity | discriminate].
  - intros k Hk. rewrite !scale_oop_lookup, Hk, lookup_empty. reflexivity.
Qed.

(** *** [project] *)

Lemma local_index_corner (e : Z) (n : nat) (idx : list Z) :
  in_slices (repeat (mkSlice 0 e) n) idx = true ->
  local_index (repeat (mkSlice 0 e) n) idx = idx.
Proof.
  unfold local_index. revert idx. induction n as [ | n IH]; intros idx; simpl.
  - destruct idx; [reflexivity | discriminate].
  - destruct idx as [ | x idx]; [discriminate | ].
    intros Hin. apply andb_true_iff in Hin as [_ Hin].
    simpl. rewrite Z.sub_0_r. f_equal. apply IH. exact Hin.
Qed.

Lemma project_writes (cdata : CommonData) (old_k : Z) :
  writes_own_key
    (fun (c : coeffsT T) kn =>
       let node := snd kn in
       if has_coeff node
       then replace (fst kn)
              (node_of (assign_slice (zeros (cd_vk cdata))
                          (repeat (mkSlice 0 (old_k - 1)) (cd_ndim cdata))
                          (coeff node)) false) c
       else replace (fst kn) (node_of empty_tensor true) c)
    (fun _ n _ =>
       if has_coeff n
       then node_of (assign_slice (zeros (cd_vk cdata))
                       (repeat (mkSlice 0 (old_k - 1)) (cd_ndim cdata))
                       (coeff n)) false
       else node_of empty_tensor true).
Proof. intros c [k n]. simpl. destruct (has_coeff n); reflexivity. Qed.

(** [project(old)] writes at every key of [old] whose node has
    coefficients a leaf (whatever the [has_children] flag of the old node)
    holding a tensor of the new shape [(k,...)] that carries the old
    coefficients at the multi-indices below the old order and zero
    elsewhere; at every key of [old] whose node has no coefficients it
    writes an interior node without coefficients; the other entries of the
    result stay as they are. *)
Theorem project_pads_with_zero (cdata : CommonData) (old_k : Z)
    (old c : coeffsT T) :
  let s := repeat (mkSlice 0 (old_k - 1)) (cd_ndim cdata) in
  (forall k n, old !! k = Some n -> has_coeff n = true ->
     exists r,
       project cdata old_k old c !! k = Some r
       /\ has_children r = false
       /\ dim (coeff r) = cd_vk cdata
       /\ (forall idx, in_slices s idx = true ->
                       elem (coeff r) idx = elem (coeff n) idx)
       /\ (forall idx, in_slices s idx = false -> elem (coeff r) idx = zero))
  /\ (forall k n, old !! k = Some n -> has_coeff n = false ->
        project cdata old_k old c !! k = Some (node_of empty_tensor true))
  /\ (forall k, old !! k = None -> project cdata old_k old c !! k = c !! k).
Proof.
  intros s.
  assert (Hlook : forall k, project cdata old_k old c !! k
            = match old !! k with
              | Some n =>
                Some (if has_coeff n
                      then node_of (assign_slice (zeros (cd_vk cdata)) s (coeff n)) false
                      else node_of empty_tensor true)
              | None => c !! k
              end).
  { intros k. unfold project, project_loop.
    exact (loop_lookup _ _ old c k (project_writes cdata old_k)). }
  split; [ | split].
  - intros k n Hk Hn. rewrite Hlook, Hk, Hn. eexists. split; [reflexivity | ].
    simpl. repeat split.
    + intros idx Hin. rewrite Hin. unfold s in Hin |- *.
      rewrite local_index_corner by exact Hin. reflexivity.
    + intros idx Hout. rewrite Hout. reflexivity.
  - intros k n Hk Hn. rewrite Hlook, Hk, Hn. reflexivity.
  - intros k Hk. rewrite Hlook, Hk. reflexivity.
Qed.
End WithScalar.
(** *** [accumulate] and [set_has_children_recursive] *)

Section Connect.
Context {T : Type} `{Scalar T}.
Variable parent : Key -> Key.
Hypothesis parent_level : forall k, level (parent k) = level k - 1.

Lemma parent_other (k : Key) : parent k <> k.
Proof. intros Heq. pose proof (parent_level k) as Hl. rewrite Heq in Hl. lia. Qed.

Lemma raised_refl (c : coeffsT T) : raised c c.
Proof. intros key. destruct (c !! key); [tauto | exact I]. Qed.

Lemma raised_trans (c1 c2 c3 : coeffsT T) :
  raised c1 c2 -> raised c2 c3 -> raised c1 c3.
Proof.
  intros H12 H23 key. specialize (H12 key). specialize (H23 key).
  destruct (c1 !! key) as [a | ], (c2 !! key) as [b | ], (c3 !! key) as [d | ];
    try tauto.
  - destruct H12 as (Hc & Hn & Hf), H23 as (Hc' & Hn' & Hf').
    split; [congruence | ]. split; [congruence | auto].
  - destruct H12 as (Hc & Hf), H23 as (Hc' & Hn' & Hf').
    split; [ | auto]. rewrite <- Hc. apply has_coeff_dim. rewrite Hc'. reflexivity.
Qed.

Lemma raised_flag (c : coeffsT T) (p : Key) :
  raised c (<[p := set_has_children (default node_default (c !! p)) true]> c).
Proof.
  intros key. destruct (decide (key = p)) as [-> | Hne].
  - rewrite lookup_insert_eq. destruct (c !! p); simpl; auto.
  - rewrite lookup_insert_ne by congruence. destruct (c !! key); [tauto | exact I].
Qed.

(** The chain of [set_has_children_recursive] tasks that starts at the
    parent [p] of a node [k] not yet known to it ends, and leaves every
    node known to its parent. *)
Lemma chain_connects (n : nat) :
  forall (p k : Key) (c : coeffsT T),
    Z.of_nat n = level p -> parent k = p -> wired_but parent k c ->
    exists c',
      run_node_tasks parent (S n) [SetHasChildrenRecursive p] c = Some c'
      /\ wired parent c' /\ raised c c'.
Proof.
  induction n as [ | n IH]; intros p k c Hn Hpk Hw.
  - (* the root *)
    assert (Hroot : (level p =? 0) = true) by (apply Z.eqb_eq; lia).
    simpl. rewrite Hroot, !orb_true_r. simpl.
    eexists. split; [reflexivity | ]. split; [ | apply raised_flag].
    intros key node Hkey Hst Hl.
    destruct (decide (key = p)) as [-> | Hne]; [lia | ].
    rewrite lookup_insert_ne in Hkey by congruence.
    destruct (decide (parent key = p)) as [Hpp | Hpp].
    + rewrite Hpp, lookup_insert_eq. eexists. split; reflexivity.
    + rewrite lookup_insert_ne by congruence.
      apply (Hw key node); try assumption. intros ->. contradiction.
  - assert (Hnot : (level p =? 0) = false) by (apply Z.eqb_neq; lia).
    change (run_node_tasks parent (S (S n)) [SetHasChildrenRecursive p] c)
      with (let node := default node_default (c !! p) in
            let '(node', more) := set_has_children_recursive parent node p in
            run_node_tasks parent (S n) ([] ++ more) (<[p := node']> c)).
    cbv zeta. unfold set_has_children_recursive. rewrite Hnot, orb_false_r.
    set (node := default node_default (c !! p)).
    set (c1 := <[p := set_has_children node true]> c).
    assert (Hpk' : p <> k) by (rewrite <- Hpk; apply parent_other).
    destruct (_has_children node || has_coeff node) eqn:Hst; simpl.
    + (* the node is known to its parent already *)
      eexists. split; [reflexivity | ]. split; [ | apply raised_flag].
      assert (Hp : c !! p = Some node).
      { unfold node in Hst |- *. destruct (c !! p); [reflexivity | ].
        simpl in Hst. discriminate. }
      intros key nk Hkey Hstk Hl. fold c1.
      destruct (decide (parent key = p)) as [Hpp | Hpp].
      * rewrite Hpp. unfold c1. rewrite lookup_insert_eq.
        eexists. split; reflexivity.
      * unfold c1. rewrite lookup_insert_ne by congruence.
        destruct (decide (key = p)) as [-> | Hne].
        -- apply (Hw p node); assumption.
        -- unfold c1 in Hkey. rewrite lookup_insert_ne in Hkey by congruence.
           apply (Hw key nk); try assumption. intros ->. contradiction.
    + (* the node was just made: go on with its parent *)
      destruct (IH (parent p) p c1) as (c' & Hrun & Hwired & Hraised).
      * rewrite parent_level. lia.
      * reflexivity.
      * intros key nk Hne Hkey Hstk Hl.
        unfold c1 in Hkey. rewrite lookup_insert_ne in Hkey by congruence.
        destruct (decide (parent key = p)) as [Hpp | Hpp].
        -- rewrite Hpp. unfold c1. rewrite lookup_insert_eq.
           eexists. split; reflexivity.
        -- unfold c1. rewrite lookup_insert_ne by congruence.
           apply (Hw key nk); try assumption. intros ->. contradiction.
      * exists c'. split; [exact Hrun | ]. split; [exact Hwired | ].
        apply (raised_trans c c1 c'); [apply raised_flag | exact Hraised].
Qed.

Lemma wired_update (c : coeffsT T) (dest : Key) (node' : FunctionNode T) :
  wired parent c ->
  has_children node' = has_children (default node_default (c !! dest)) ->
  (_has_children node' || has_coeff node' = true -> 0 < level dest ->
   exists p, c !! parent dest = Some p /\ has_children p = true) ->
  wired parent (<[dest := node']> c).
Proof.
  intros Hw Hflag Hdest key node Hkey Hst Hl.
  assert (Hup : forall key', (exists p, c !! parent key' = Some p /\ has_children p = true) ->
            exists p, <[dest := node']> c !! parent key' = Some p /\ has_children p = true).
  { intros key' (p & Hp & Hpf). destruct (decide (parent key' = dest)) as [Heq | Hne].
    - rewrite Heq, lookup_insert_eq. exists node'. split; [reflexivity | ].
      rewrite Hflag, <- Heq, Hp. exact Hpf.
    - rewrite lookup_insert_ne by congruence. exists p. auto. }
  apply Hup. destruct (decide (key = dest)) as [-> | Hne].
  - rewrite lookup_insert_eq in Hkey. injection Hkey as <-. auto.
  - rewrite lookup_insert_ne in Hkey by congruence. apply (Hw key node); assumption.
Qed.

(** [accumulate] on a node that the message constructs, or that has
    neither coefficients nor children yet, tells the parent, and
    [set_has_children_recursive] passes the word up until it meets a node
    that has children or coefficients, or the root.  In a tree in which
    every node below the root with coefficients or children is known to its
    parent, delivering an [accumulate] message and running the tasks it
    starts ends within [level(dest)] tasks and leaves such a tree again; the
    tasks only raise [has_children] flags and construct empty interior
    nodes, and a node that was missing holds exactly the tensor sent. *)
Theorem accumulate_keeps_tree_connected (t : Tensor T) (dest : Key)
    (c : coeffsT T) :
  0 <= level dest ->
  wired parent c ->
  let c1 := fst (Apply.deliver parent (Apply.SendAccumulate dest t) c) in
  let tasks := snd (Apply.deliver parent (Apply.SendAccumulate dest t) c) in
  exists c',
    run_node_tasks parent (Z.to_nat (level dest)) tasks c1 = Some c'
    /\ wired parent c'
    /\ raised c1 c'
    /\ (c !! dest = None ->
        exists node, c' !! dest = Some node /\ coeff node = t).
Proof.
  intros Hlevel Hw c1 tasks. subst c1 tasks. unfold Apply.deliver, accumulate.
  set (node := default node_default (c !! dest)).
  destruct (has_coeff node) eqn:Hcoeff.
  - (* the tensor is added to the coefficients of the node *)
    assert (Hnode : c !! dest = Some node).
    { unfold node in Hcoeff |- *. destruct (c !! dest); [reflexivity | discriminate]. }
    simpl. exists (<[dest := set_coeff_of node (plus_assign (coeff node) t)]> c).
    split; [destruct (Z.to_nat (level dest)); reflexivity | ].
    split; [ | split; [apply raised_refl | congruence]].
    apply wired_update; [exact Hw | reflexivity | ].
    intros _ Hl. apply (Hw dest node); try assumption.
    rewrite Hcoeff. apply orb_true_r.
  - destruct (negb (_has_children node) && (level dest >? 0)) eqn:Htell; simpl.
    + (* the parent is told *)
      apply andb_true_iff in Htell as [Hleaf Hl].
      apply negb_true_iff in Hleaf. apply Z.gtb_lt in Hl.
      set (c1 := <[dest := set_coeff_of node t]> c).
      destruct (chain_connects (Z.to_nat (level dest - 1)) (parent dest) dest c1)
        as (c' & Hrun & Hwired & Hraised).
      * rewrite parent_level. lia.
      * reflexivity.
      * intros key nk Hne Hkey Hst Hlk.
        unfold c1 in Hkey |- *. rewrite lookup_insert_ne in Hkey by congruence.
        destruct (Hw key nk Hkey Hst Hlk) as (p & Hp & Hpf).
        destruct (decide (parent key = dest)) as [Heq | Hne'].
        -- exfalso. rewrite Heq in Hp. unfold node in Hleaf. rewrite Hp in Hleaf.
           simpl in Hleaf. unfold has_children in Hpf. congruence.
        -- rewrite lookup_insert_ne by congruence. exists p. auto.
      * exists c'. replace (Z.to_nat (level dest)) with (S (Z.to_nat (level dest - 1)))
          by lia.
        split; [exact Hrun | ]. split; [exact Hwired | ]. split; [exact Hraised | ].
        intros _. specialize (Hraised dest). unfold c1 in Hraised.
        rewrite lookup_insert_eq in Hraised.
        destruct (c' !! dest) as [b | ]; [ | contradiction].
        exists b. split; [reflexivity | ]. apply Hraised.
    + (* the node has children, or it is the root *)
      exists (<[dest := set_coeff_of node t]> c).
      split; [destruct (Z.to_nat (level dest)); reflexivity | ].
      split; [ | split; [apply raised_refl | ]].
      * apply wired_update; [exact Hw | reflexivity | ].
        intros _ Hl. apply andb_false_iff in Htell as [Hch | Hroot].
        -- apply negb_false_iff in Hch.
           assert (Hnode : c !! dest = Some node).
           { unfold node in Hch |- *. destruct (c !! dest); [reflexivity | discriminate]. }
           apply (Hw dest node); try assumption. rewrite Hch. reflexivity.
        -- rewrite Z.gtb_ltb in Hroot. apply Z.ltb_ge in Hroot. lia.
      * intros _. rewrite lookup_insert_eq. eexists. split; reflexivity.
Qed.

End Connect.

(** *** The patches of the children *)

Section Patches.
Context {T : Type} `{Scalar T}.
Variable cdata : CommonData.

(** The whole block [(2k)^d]: [Slice(0, 2k-1)] in every dimension. *)
Local Abbreviation block := (repeat (mkSlice 0 (2 * cd_k cdata - 1)) (cd_ndim cdata)).

Lemma bit_patterns_complete (n : nat) (bits : list Z) :
  length bits = n -> is_bits bits -> In bits (bit_patterns n).
Proof.
  revert bits. induction n as [ | n IH]; intros [ | b bits] Hlen Hb;
    simpl in Hlen; try discriminate.
  - left. reflexivity.
  - inversion Hb as [ | ? ? Hb0 Hb']; subst. simpl. apply in_flat_map.
    exists bits. split; [apply IH; [lia | exact Hb'] | ].
    destruct Hb0 as [-> | ->]; simpl; auto.
Qed.

Lemma block_to_bits (n : nat) (idx : list Z) :
  0 < cd_k cdata ->
  in_slices (repeat (mkSlice 0 (2 * cd_k cdata - 1)) n) idx = true ->
  exists bits, length bits = n /\ is_bits bits
               /\ in_slices (map (cd_s cdata) bits) idx = true.
Proof.
  intros Hk. revert idx. induction n as [ | n IH]; intros [ | x idx]; simpl;
    try discriminate.
  - intros _. exists []. repeat split. constructor.
  - intros Hin. apply andb_true_iff in Hin as [Hx Hin].
    destruct (IH idx Hin) as (bits & Hlen & Hb & Hbits).
    unfold in_slice in Hx. simpl in Hx. apply andb_true_iff in Hx as [Hx1 Hx2].
    apply Z.leb_le in Hx1, Hx2.
    exists ((if x <? cd_k cdata then 0 else 1) :: bits).
    split; [simpl; lia | ]. split.
    + constructor; [destruct (x <? cd_k cdata); auto | exact Hb].
    + simpl. rewrite Hbits, andb_true_r. unfold in_slice, cd_s. simpl.
      destruct (x <? cd_k cdata) eqn:Hlt;
        [apply Z.ltb_lt in Hlt | apply Z.ltb_ge in Hlt];
        apply andb_true_iff; split; apply Z.leb_le; lia.
Qed.

Lemma bits_to_block (bits : list Z) (idx : list Z) :
  0 < cd_k cdata -> is_bits bits ->
  in_slices (map (cd_s cdata) bits) idx = true ->
  in_slices (repeat (mkSlice 0 (2 * cd_k cdata - 1)) (length bits)) idx = true.
Proof.
  intros Hk. revert idx. induction bits as [ | b bits IH]; intros [ | x idx] Hb;
    simpl; try discriminate; [reflexivity | ].
  inversion Hb as [ | ? ? Hb0 Hb']; subst.
  intros Hin. apply andb_true_iff in Hin as [Hx Hin].
  rewrite (IH idx Hb' Hin), andb_true_r.
  unfold in_slice, cd_s in Hx |- *. simpl in Hx |- *.
  apply andb_true_iff in Hx as [Hx1 Hx2]. apply Z.leb_le in Hx1, Hx2.
  apply andb_true_iff. split; apply Z.leb_le; destruct Hb0 as [-> | ->]; lia.
Qed.

(** The patches of the 2^d children of a key tile the block [(2k)^d]: a
    multi-index lies in the block exactly when it lies in the patch of
    some child, and then in the patch of no other child. *)
Theorem child_patches_tile_the_block (key : Key) (idx : list Z) :
  0 < cd_k cdata ->
  length (translation key) = cd_ndim cdata ->
  (in_slices block idx = true <->
   exists bits, In bits (bit_patterns (cd_ndim cdata))
                /\ in_slices (child_patch cdata (child_of key bits)) idx = true)
  /\ (forall bits1 bits2,
        In bits1 (bit_patterns (cd_ndim cdata)) ->
        In bits2 (bit_patterns (cd_ndim cdata)) ->
        in_slices (child_patch cdata (child_of key bits1)) idx = true ->
        in_slices (child_patch cdata (child_of key bits2)) idx = true ->
        bits1 = bits2).
Proof.
  intros Hk Hlen. split; [split | ].
  - intros Hin. destruct (block_to_bits _ idx Hk Hin) as (bits & Hl & Hb & Hbits).
    exists bits. split; [apply bit_patterns_complete; assumption | ].
    rewrite MraFacts.child_patch_bits by (assumption || lia). exact Hbits.
  - intros (bits & Hbits & Hin).
    apply MraFacts.bit_patterns_spec in Hbits as [Hl Hb].
    rewrite MraFacts.child_patch_bits in Hin by (assumption || lia).
    rewrite <- Hl. apply bits_to_block; assumption.
  - intros bits1 bits2 H1 H2 Hin1 Hin2.
    apply MraFacts.bit_patterns_spec in H1 as [Hl1 Hb1], H2 as [Hl2 Hb2].
    rewrite MraFacts.child_patch_bits in Hin1, Hin2 by (assumption || lia).
    exact (MraFacts.slices_disjoint cdata bits1 bits2 idx Hb1 Hb2 Hin1 Hin2).
Qed.

Lemma view_of_local_index (sl : list Slice) (idx : list Z) :
  in_slices sl idx = true -> view_index sl (local_index sl idx) = idx.
Proof.
  unfold view_index, local_index. revert idx.
  induction sl as [ | s sl IH]; intros [ | x idx]; simpl; try discriminate;
    [reflexivity | ].
  intros Hin. apply andb_true_iff in Hin as [_ Hin].
  rewrite (IH idx Hin). f_equal. lia.
Qed.

(** Carving a tensor into the patches of the children of a key, as
    [refine_op] does, and assembling these blocks, as [compress_op] does,
    gives back the tensor on the whole block [(2k)^d]. *)
Theorem assemble_of_carved_blocks (uninitialized : list Z -> T) (key : Key)
    (d : Tensor T) (idx : list Z) :
  0 < cd_k cdata ->
  length (translation key) = cd_ndim cdata ->
  let v := map (fun child => copy_slice d (child_patch cdata child))
               (children cdata key) in
  dim (assemble cdata uninitialized key v) = cd_v2k cdata
  /\ (in_slices block idx = true ->
      elem (assemble cdata uninitialized key v) idx = elem d idx).
Proof.
  intros Hk Hlen v.
  destruct (MraFacts.assemble_blocks cdata uninitialized key v Hlen) as [Hdim Hblocks].
  split; [exact Hdim | ]. intros Hin.
  destruct (block_to_bits _ idx Hk Hin) as (bits & Hl & Hb & Hpatch).
  rewrite <- (MraFacts.child_patch_bits cdata key bits) in Hpatch
    by (assumption || lia).
  assert (Hbits : In bits (bit_patterns (cd_ndim cdata)))
    by (apply bit_patterns_complete; assumption).
  apply In_nth_error in Hbits as [i Hi].
  rewrite (Hblocks i bits (copy_slice d (child_patch cdata (child_of key bits))) idx
             Hi); [ | | exact Hpatch].
  - simpl. rewrite view_of_local_index by exact Hpatch. reflexivity.
  - unfold v, children. rewrite !nth_error_map, Hi. reflexivity.
Qed.

End Patches.

(** *** [refine_op] *)

Section Refine.
Context {T : Type} `{Scalar T}.
Variable cdata : CommonData.
Variable unfilter : Tensor T -> Tensor T.
Variable tnorm : Tensor T -> Q * Q.
Variable max_refine_level : Z.
Variable f : Threshold.Settings.

Local Abbreviation refine_op := (refine_op cdata unfilter tnorm max_refine_level f).
Local Abbreviation autorefine_square_test := (autorefine_square_test tnorm f).

Lemma fold_replace_lookup (g : Key -> FunctionNode T) (l : list Key)
    (c : coeffsT T) (k : Key) :
  fold_left (fun c child => replace child (g child) c) l c !! k
    = if decide (k ∈ l) then Some (g k) else c !! k.
Proof.
  revert c. induction l as [ | x l IH]; intros c; simpl.
  - destruct (decide (k ∈ [])) as [Hin | _]; [inversion Hin | reflexivity].
  - rewrite IH. destruct (decide (k ∈ l)) as [Hin | Hout].
    + rewrite decide_True by (right; exact Hin). reflexivity.
    + unfold replace. destruct (decide (k = x)) as [-> | Hne].
      * rewrite decide_True by left. apply lookup_insert_eq.
      * rewrite decide_False by (intros Hin; apply elem_of_cons in Hin as [ | ]; tauto).
        apply lookup_insert_ne. congruence.
Qed.

Lemma children_level (key child : Key) :
  child ∈ children cdata key -> level child = level key + 1.
Proof.
  unfold children. intros Hin. apply list_elem_of_In, in_map_iff in Hin
    as (bits & <- & _). reflexivity.
Qed.

Lemma positive_size (dims : list Z) :
  dims <> [] -> Forall (fun x => 0 < x) dims -> 0 < fold_right Z.mul 1 dims.
Proof.
  intros _ Hpos. induction Hpos as [ | x dims Hx Hpos IH]; simpl; [lia | nia].
Qed.

Lemma carved_block_has_coeff (key : Key) (bits : list Z) (d : Tensor T) :
  0 < cd_k cdata -> cd_ndim cdata <> O ->
  length (translation key) = cd_ndim cdata ->
  In bits (bit_patterns (cd_ndim cdata)) ->
  has_coeff (node_of (copy_slice d (child_patch cdata (child_of key bits))) false)
    = true.
Proof.
  intros Hk Hd Hlen Hbits. apply MraFacts.bit_patterns_spec in Hbits as [Hl Hb].
  unfold has_coeff, size. simpl.
  rewrite MraFacts.child_patch_bits by (assumption || lia).
  rewrite map_map.
  assert (Hext : map (fun b => extent (cd_s cdata b)) bits
                 = repeat (cd_k cdata) (length bits)).
  { clear. induction bits as [ | b bits IH]; simpl; [reflexivity | ].
    rewrite IH. f_equal. unfold extent, cd_s. simpl. lia. }
  rewrite Hext, Hl. destruct (cd_ndim cdata) as [ | n]; [contradiction | ].
  apply Z.ltb_lt.
  apply (positive_size (cd_k cdata :: repeat (cd_k cdata) n)); [discriminate | ].
  apply List.Forall_forall. intros x Hx.
  change (In x (repeat (cd_k cdata) (S n))) in Hx.
  apply repeat_spec in Hx as ->. exact Hk.
Qed.

(** [refine_op(key)] fails when the container has no node at [key].  It
    leaves the container as it is when the node has no coefficients, when
    the key is at [max_refine_level] or deeper, and when the test says no.
    Otherwise the node loses its coefficients and gets [has_children], and
    each of the 2^d children becomes a leaf holding its patch of the
    unfiltered block, every other entry staying as it is.  For [k > 0] and
    at least one dimension, a tree in reconstructed form (coefficients at
    the leaves and only there) is in reconstructed form afterwards. *)
Theorem refine_op_keeps_reconstructed_form (key : Key) (c : coeffsT T) :
  0 < cd_k cdata -> cd_ndim cdata <> O ->
  length (translation key) = cd_ndim cdata ->
  (c !! key = None ->
   refine_op key c = Exception "MADNESS_ASSERT: coeffs.find(acc,key)" 0)
  /\ (forall node, c !! key = Some node ->
        has_coeff node = false \/ max_refine_level <= level key
        \/ autorefine_square_test key (coeff node) = Ok false ->
        refine_op key c = Ok c)
  /\ (forall node, c !! key = Some node ->
        has_coeff node = true -> level key < max_refine_level ->
        autorefine_square_test key (coeff node) = Ok true ->
        let d := unfilter (assign_slice (zeros (cd_v2k cdata)) (cd_s0 cdata)
                             (coeff node)) in
        exists c',
          refine_op key c = Ok c'
          /\ c' !! key = Some (mkNode empty_tensor (_norm_tree node) true)
          /\ (forall bits, In bits (bit_patterns (cd_ndim cdata)) ->
                c' !! child_of key bits
                  = Some (node_of (copy_slice d (child_patch cdata (child_of key bits)))
                                  false))
          /\ (forall key', key' <> key -> key' ∉ children cdata key ->
                c' !! key' = c !! key'))
  /\ (forall c', reconstructed c -> refine_op key c = Ok c' -> reconstructed c').
Proof.
  intros Hk Hd Hlen.
  assert (Hrefined : forall node, c !! key = Some node ->
            has_coeff node = true -> level key < max_refine_level ->
            autorefine_square_test key (coeff node) = Ok true ->
            let d := unfilter (assign_slice (zeros (cd_v2k cdata)) (cd_s0 cdata)
                                 (coeff node)) in
            let c' := fold_left
                        (fun c child =>
                           replace child
                             (node_of (copy_slice d (child_patch cdata child)) false) c)
                        (children cdata key)
                        (<[key := set_has_children (clear_coeff node) true]> c) in
            refine_op key c = Ok c').
  { intros node Hnode Hc Hl Htest d c'. unfold Impl.refine_op.
    apply Z.ltb_lt in Hl. rewrite Hnode, Hc, Hl. simpl. rewrite Htest. reflexivity. }
  split; [ | split; [ | split]].
  - intros Hnone. unfold Impl.refine_op. rewrite Hnone. reflexivity.
  - intros node Hnode Hcase. unfold Impl.refine_op. rewrite Hnode.
    destruct (has_coeff node) eqn:Hc; simpl; [ | reflexivity].
    destruct (level key <? max_refine_level) eqn:Hl; [ | reflexivity].
    apply Z.ltb_lt in Hl.
    destruct Hcase as [Hcase | [Hcase | Hcase]]; [discriminate | lia | ].
    rewrite Hcase. reflexivity.
  - intros node Hnode Hc Hl Htest d. eexists.
    split; [exact (Hrefined node Hnode Hc Hl Htest) | ]. fold d.
    split; [ | split].
    + rewrite fold_replace_lookup. rewrite decide_False.
      * rewrite lookup_insert_eq. reflexivity.
      * intros Hin. apply children_level in Hin. lia.
    + intros bits Hbits. rewrite fold_replace_lookup. rewrite decide_True; [reflexivity | ].
      apply list_elem_of_In. unfold children. apply in_map. exact Hbits.
    + intros key' Hne Hout. rewrite fold_replace_lookup. rewrite decide_False by exact Hout.
      apply lookup_insert_ne. congruence.
  - intros c' Hrec Hop.
    destruct (c !! key) as [node | ] eqn:Hnode;
      [ | unfold Impl.refine_op in Hop; rewrite Hnode in Hop; discriminate].
    destruct (has_coeff node) eqn:Hc;
      [ | unfold Impl.refine_op in Hop; rewrite Hnode, Hc in Hop;
          injection Hop as <-; exact Hrec].
    destruct (level key <? max_refine_level) eqn:Hl;
      [ | unfold Impl.refine_op in Hop; rewrite Hnode, Hc, Hl in Hop;
          injection Hop as <-; exact Hrec].
    destruct (autorefine_square_test key (coeff node)) as [[ | ] | m x] eqn:Htest;
      [ | unfold Impl.refine_op in Hop; rewrite Hnode, Hc, Hl in Hop; simpl in Hop;
          rewrite Htest in Hop; injection Hop as <-; exact Hrec
        | unfold Impl.refine_op in Hop; rewrite Hnode, Hc, Hl in Hop; simpl in Hop;
          rewrite Htest in Hop; discriminate].
    apply Z.ltb_lt in Hl. rewrite (Hrefined node eq_refl Hc Hl Htest) in Hop.
    injection Hop as <-. intros key' node'. rewrite fold_replace_lookup.
    destruct (decide (key' ∈ children cdata key)) as [Hin | Hout].
    + intros [= <-]. apply list_elem_of_In, in_map_iff in Hin as (bits & <- & Hbits).
      rewrite carved_block_has_coeff by assumption. reflexivity.
    + destruct (decide (key' = key)) as [-> | Hne].
      * rewrite lookup_insert_eq. intros [= <-]. reflexivity.
      * rewrite lookup_insert_ne by congruence. apply Hrec.
Qed.

End Refine.

(** *** [accumulate] in any order, [standard] *)

Section Nodes.
Context {T : Type} `{Scalar T}.

(** Two [accumulate] calls on one node, with non-empty tensors of one
    shape, in either order: the node ends with the same flag, the same
    [norm_tree] and coefficients of the same shape, and the parent is sent
    the same tasks; each coefficient is the sum of the contributions in
    the order in which they arrived, [(c + t1) + t2] against [(c + t2) + t1]
    on a node that had coefficients [c], and [t1 + t2] against [t2 + t1]
    on a node that had none.  On a node without coefficients the two
    orders therefore give the same node as soon as the sum of two scalars
    is commutative. *)
Theorem accumulate_in_any_order (parent : Key -> Key) (this : FunctionNode T)
    (t1 t2 : Tensor T) (key : Key) :
  0 < size t1 -> 0 < size t2 -> dim t1 = dim t2 ->
  let a1 := accumulate parent this t1 key in
  let a12 := accumulate parent (fst a1) t2 key in
  let a2 := accumulate parent this t2 key in
  let a21 := accumulate parent (fst a2) t1 key in
  (has_children (fst a12) = has_children (fst a21)
   /\ _norm_tree (fst a12) = _norm_tree (fst a21)
   /\ dim (coeff (fst a12)) = dim (coeff (fst a21))
   /\ has_coeff (fst a12) = true /\ has_coeff (fst a21) = true)
  /\ snd a1 ++ snd a12 = snd a2 ++ snd a21
  /\ (has_coeff this = true ->
      forall idx,
        elem (coeff (fst a12)) idx
          = add (add (elem (coeff this) idx) (elem t1 idx)) (elem t2 idx)
        /\ elem (coeff (fst a21)) idx
           = add (add (elem (coeff this) idx) (elem t2 idx)) (elem t1 idx))
  /\ (has_coeff this = false ->
      (forall idx,
         elem (coeff (fst a12)) idx = add (elem t1 idx) (elem t2 idx)
         /\ elem (coeff (fst a21)) idx = add (elem t2 idx) (elem t1 idx))
      /\ ((forall x y : T, add x y = add y x) ->
          same_node (fst a12) (fst a21))).
Proof.
  intros Hs1 Hs2 Hdim a1 a12 a2 a21.
  subst a1 a12 a2 a21. unfold accumulate.
  apply Z.ltb_lt in Hs1, Hs2.
  destruct (has_coeff this) eqn:Hc; simpl.
  - assert (Hc' : forall t, has_coeff (set_coeff_of this (plus_assign (coeff this) t)) = true)
      by (intros t; rewrite <- Hc; apply has_coeff_dim; reflexivity).
    assert (Hc2 : forall t t',
               has_coeff (set_coeff_of (set_coeff_of this (plus_assign (coeff this) t))
                            (plus_assign (plus_assign (coeff this) t) t')) = true)
      by (intros t t'; rewrite <- Hc; apply has_coeff_dim; reflexivity).
    rewrite !Hc'. simpl.
    split; [ | split; [reflexivity | split; [ | discriminate]]].
    + split; [reflexivity | ]. split; [reflexivity | ]. split; [reflexivity | ].
      split; apply Hc2.
    + intros _ idx. split; reflexivity.
  - assert (H1 : has_coeff (set_coeff_of this t1) = true) by exact Hs1.
    assert (H2 : has_coeff (set_coeff_of this t2) = true) by exact Hs2.
    rewrite H1, H2. simpl.
    split; [ | split; [reflexivity | split; [discriminate | ]]].
    + split; [reflexivity | ]. split; [reflexivity | ]. split; [exact Hdim | ].
      split; [exact Hs1 | exact Hs2].
    + intros _. split; [intros idx; split; reflexivity | ].
      intros Hcomm. split; [reflexivity | ]. split; [reflexivity | ].
      split; [exact Hdim | ]. intros idx. simpl. apply Hcomm.
Qed.

Lemma same_node_refl (n : FunctionNode T) : same_node n n.
Proof. repeat split. Qed.

Lemma standard_node_twice (cdata : CommonData) (key : Key) (n0 : FunctionNode T) :
  same_node (standard_node cdata key (standard_node cdata key n0))
            (standard_node cdata key n0).
Proof.
  unfold standard_node. destruct (level key >? 0); cbn [andb];
    [ | apply same_node_refl].
  destruct (has_coeff n0) eqn:Hc; [ | rewrite Hc; apply same_node_refl].
  destruct (has_children n0) eqn:Hch.
  - assert (Hc' : has_coeff (set_coeff_of n0 (fill_slice (coeff n0) (cd_s0 cdata) zero))
                  = true)
      by (rewrite <- Hc; apply has_coeff_dim; reflexivity).
    assert (Hch' : has_children (set_coeff_of n0 (fill_slice (coeff n0) (cd_s0 cdata) zero))
                   = true) by exact Hch.
    rewrite Hc', Hch'. split; [reflexivity | ]. split; [reflexivity | ].
    split; [reflexivity | ]. intros idx. simpl.
    destruct (in_slices (cd_s0 cdata) idx); reflexivity.
  - assert (Hc' : has_coeff (clear_coeff n0) = false) by reflexivity.
    rewrite Hc'. apply same_node_refl.
Qed.

(** [standard()] turns any tree into the standard compressed form: below
    the root, an interior node with coefficients has a zero scaling block
    and a leaf has no coefficients; the keys and the [has_children] flags
    stay as they are; and a second call changes nothing more. *)
Theorem standard_gives_standard_form (cdata : CommonData) (c : coeffsT T) :
  interior_s0_zero cdata (standard cdata c)
  /\ (forall key node, standard cdata c !! key = Some node ->
        0 < level key -> has_children node = false -> has_coeff node = false)
  /\ (forall key, has_children <$> (standard cdata c !! key)
                  = has_children <$> (c !! key))
  /\ (forall key,
        match standard cdata (standard cdata c) !! key, standard cdata c !! key with
        | Some a, Some b => same_node a b
        | None, None => True
        | _, _ => False
        end).
Proof.
  split; [ | split; [ | split]].
  - intros key node. rewrite MraFacts.standard_lookup.
    destruct (c !! key) as [n0 | ]; [ | discriminate]. simpl. intros [= <-].
    unfold standard_node. intros Hl. apply Z.gtb_lt in Hl. rewrite Hl. simpl.
    destruct (has_coeff n0) eqn:Hc; [ | intros _ Hc'; congruence].
    destruct (has_children n0) eqn:Hch.
    + intros _ _ idx Hin. simpl. rewrite Hin. reflexivity.
    + intros _ Hc'. discriminate.
  - intros key node. rewrite MraFacts.standard_lookup.
    destruct (c !! key) as [n0 | ]; [ | discriminate]. simpl. intros [= <-].
    unfold standard_node. intros Hl. apply Z.gtb_lt in Hl. rewrite Hl. simpl.
    destruct (has_coeff n0) eqn:Hc; [ | intros _; exact Hc].
    destruct (has_children n0) eqn:Hch; [ | reflexivity].
    unfold has_children in Hch |- *. simpl. congruence.
  - intros key. rewrite MraFacts.standard_lookup.
    destruct (c !! key) as [n0 | ]; [ | reflexivity]. simpl. f_equal.
    unfold standard_node.
    destruct ((level key >? 0) && has_coeff n0); [ | reflexivity].
    destruct (has_children n0) eqn:Hch; unfold has_children in Hch |- *; simpl;
      congruence.
  - intros key. rewrite !MraFacts.standard_lookup.
    destruct (c !! key) as [n0 | ]; [ | exact I]. simpl.
    apply standard_node_twice.
Qed.

End Nodes.

(** *** Thresholds *)

Section Thresholds.
Import Threshold.

Lemma std_min_le_l (a b : Q) : (std_min a b <= a)%Q.
Proof. rewrite ThresholdFacts.std_min_Qmin. apply Q.le_min_l. Qed.

Lemma std_min_nonneg (a b : Q) : (0 <= a)%Q -> (0 <= b)%Q -> (0 <= std_min a b)%Q.
Proof.
  intros Ha Hb. rewrite ThresholdFacts.std_min_Qmin. apply Q.min_glb; assumption.
Qed.

Lemma std_min_mono (a b b' : Q) : (b' <= b)%Q -> (std_min a b' <= std_min a b)%Q.
Proof.
  intros Hb. rewrite !ThresholdFacts.std_min_Qmin. apply Q.min_le_compat_l. exact Hb.
Qed.

Lemma pow_half_mono (n n' : Z) : n <= n' -> (pow (1#2) n' <= pow (1#2) n)%Q.
Proof.
  intros Hn. rewrite !ThresholdFacts.pow_half.
  apply Qpower_le_compat_l; [lia | discriminate].
Qed.

Lemma pow_quarter_mono (n n' : Z) : n <= n' -> (pow (1#4) n' <= pow (1#4) n)%Q.
Proof.
  intros Hn. rewrite !ThresholdFacts.pow_quarter.
  apply Qpower_le_compat_l; [lia | discriminate].
Qed.

Lemma scaled_tol_bounds (tol m : Q) :
  (0 <= tol)%Q -> (0 <= m)%Q -> (m <= 1)%Q -> (0 <= tol * m /\ tol * m <= tol)%Q.
Proof.
  intros Ht Hm Hm1. split.
  - apply Qmult_le_0_compat; assumption.
  - rewrite <- (Qmult_1_r tol) at 2. rewrite !(Qmult_comm tol).
    apply Qmult_le_compat_r; assumption.
Qed.

Lemma scaled_tol_mono (tol m m' : Q) :
  (0 <= tol)%Q -> (m' <= m)%Q -> (tol * m' <= tol * m)%Q.
Proof.
  intros Ht Hm. rewrite !(Qmult_comm tol). apply Qmult_le_compat_r; assumption.
Qed.

(** For a tolerance [tol >= 0] and a cell width [L >= 0], the threshold
    that [truncate_tol] returns lies between 0 and [tol], and it does not
    grow with the level of the key: deeper boxes are truncated with a
    threshold that is at most that of shallower ones. *)
Theorem truncate_tol_shrinks_with_level (f : Settings) (tol : Q) (key : Key) (r : Q) :
  (0 <= tol)%Q -> (0 <= cell_min_width f)%Q ->
  truncate_tol f tol key = Ok r ->
  (0 <= r /\ r <= tol)%Q
  /\ (forall key', level key <= level key' ->
        exists r', truncate_tol f tol key' = Ok r' /\ (r' <= r)%Q).
Proof.
  intros Htol HL. unfold truncate_tol.
  assert (Hp2 : forall n, (0 <= pow (1#2) n)%Q)
    by (intros n; apply Qpower_0_le; discriminate).
  assert (Hp4 : forall n, (0 <= pow (1#4) n)%Q)
    by (intros n; apply Qpower_0_le; discriminate).
  destruct (truncate_mode f =? 0).
  - intros [= <-]. split; [split; [exact Htol | apply Qle_refl] | ].
    intros key' _. exists tol. split; [reflexivity | apply Qle_refl].
  - destruct (truncate_mode f =? 1).
    + intros [= <-]. split.
      * apply scaled_tol_bounds; [exact Htol | | apply std_min_le_l].
        apply std_min_nonneg; [discriminate | ].
        apply Qmult_le_0_compat; [apply Hp2 | exact HL].
      * intros key' Hlevel. eexists. split; [reflexivity | ].
        apply scaled_tol_mono; [exact Htol | ]. apply std_min_mono.
        apply Qmult_le_compat_r; [apply pow_half_mono; exact Hlevel | exact HL].
    + destruct (truncate_mode f =? 2); [ | discriminate].
      intros [= <-]. split.
      * apply scaled_tol_bounds; [exact Htol | | apply std_min_le_l].
        apply std_min_nonneg; [discriminate | ].
        apply Qmult_le_0_compat; [ | exact HL].
        apply Qmult_le_0_compat; [apply Hp4 | exact HL].
      * intros key' Hlevel. eexists. split; [reflexivity | ].
        apply scaled_tol_mono; [exact Htol | ]. apply std_min_mono.
        apply Qmult_le_compat_r; [ | exact HL].
        apply Qmult_le_compat_r; [apply pow_quarter_mono; exact Hlevel | exact HL].
Qed.

Lemma truncate_tol_nonneg (f : Settings) (tol : Q) (key : Key) (r : Q) :
  (0 <= tol)%Q -> (0 <= cell_min_width f)%Q ->
  truncate_tol f tol key = Ok r -> (0 <= r)%Q.
Proof.
  intros Htol HL. unfold truncate_tol.
  destruct (truncate_mode f =? 0); [intros [= <-]; exact Htol | ].
  destruct (truncate_mode f =? 1).
  - intros [= <-]. apply Qmult_le_0_compat; [exact Htol | ].
    apply std_min_nonneg; [discriminate | ].
    apply Qmult_le_0_compat; [apply Qpower_0_le; discriminate | exact HL].
  - destruct (truncate_mode f =? 2); [ | discriminate].
    intros [= <-]. apply Qmult_le_0_compat; [exact Htol | ].
    apply std_min_nonneg; [discriminate | ].
    apply Qmult_le_0_compat; [ | exact HL].
    apply Qmult_le_0_compat; [apply Qpower_0_le; discriminate | exact HL].
Qed.

(** A block whose high-order part has norm zero is never refined: with a
    threshold [thresh >= 0], a cell width [L >= 0] and a valid truncation
    mode, [autorefine_square_test] says no, and [refine_op] leaves the
    container as it is. *)
Theorem no_high_order_no_refinement {T : Type} `{Scalar T}
    (cdata : CommonData) (unfilter : Tensor T -> Tensor T)
    (tnorm : Tensor T -> Q * Q) (max_refine_level : Z) (f : Settings)
    (key : Key) (c : coeffsT T) (node : FunctionNode T) :
  (0 <= thresh f)%Q -> (0 <= cell_min_width f)%Q ->
  0 <= truncate_mode f <= 2 ->
  c !! key = Some node ->
  (snd (tnorm (coeff node)) == 0)%Q ->
  autorefine_square_test tnorm f key (coeff node) = Ok false
  /\ refine_op cdata unfilter tnorm max_refine_level f key c = Ok c.
Proof.
  intros Hthresh HL Hmode Hnode Hhi.
  assert (Htest : autorefine_square_test tnorm f key (coeff node) = Ok false).
  { unfold autorefine_square_test. destruct (tnorm (coeff node)) as [lo hi].
    simpl in Hhi.
    destruct (truncate_tol f (thresh f) key) as [r | m x] eqn:Htol.
    - apply truncate_tol_nonneg in Htol; [ | assumption | assumption].
      simpl. destruct (Qlt_le_dec r (2 * lo * hi + hi * hi)) as [Hlt | Hle];
        [ | reflexivity].
      exfalso. rewrite Hhi in Hlt.
      assert (Hz : (2 * lo * 0 + 0 * 0 == 0)%Q) by ring.
      rewrite Hz in Hlt. exact (Qlt_not_le _ _ Hlt Htol).
    - exfalso. unfold truncate_tol in Htol.
      destruct (truncate_mode f =? 0) eqn:H0; [discriminate | ].
      destruct (truncate_mode f =? 1) eqn:H1; [discriminate | ].
      destruct (truncate_mode f =? 2) eqn:H2; [discriminate | ].
      apply Z.eqb_neq in H0, H1, H2. lia. }
  split; [exact Htest | ].
  unfold refine_op. rewrite Hnode.
  destruct (has_coeff node && (level key <? max_refine_level)); [ | reflexivity].
  rewrite Htest. reflexivity.
Qed.

End Thresholds.

(** *** [apply] *)

Section ApplyTasks.
Context {T : Type} `{Scalar T}.

(** [apply] submits one [do_apply] task for every node of [f] that has
    coefficients whose first dimension is not [k], and, when the operator
    asks for the leaves too, for every node that has coefficients; it
    submits none for a node without coefficients, and never two for one
    key.  Each task carries the coefficients of its node and goes to the
    owner of the key, or to a random process when that is asked for. *)
Theorem apply_submits_one_task_per_block (k : Z) (doleaves randomize : bool)
    (f : coeffsT T) :
  (forall task,
     In task (apply k doleaves randomize f) <->
     exists node,
       f !! t_key task = Some node
       /\ has_coeff node = true
       /\ (nth 0 (dim (coeff node)) 0 <> k \/ doleaves = true)
       /\ t_coeff task = coeff node
       /\ t_target task = if randomize then RandomProc else OwnerOf (t_key task))
  /\ List.NoDup (map t_key (apply k doleaves randomize f)).
Proof.
  unfold apply, apply_loop. split.
  - intros task. rewrite in_flat_map. split.
    + intros ([key node] & Hin & Htask). simpl in Htask.
      apply list_elem_of_In, elem_of_map_to_list in Hin.
      destruct (has_coeff node) eqn:Hc; [ | destruct Htask].
      destruct (negb (nth 0 (dim (coeff node)) 0 =? k) || doleaves) eqn:Hcond;
        [ | destruct Htask].
      destruct Htask as [<- | []]. simpl. exists node.
      repeat split; try assumption.
      apply orb_true_iff in Hcond as [Hne | Hd]; [left | right; exact Hd].
      apply negb_true_iff, Z.eqb_neq in Hne. exact Hne.
    + intros (node & Hnode & Hc & Hcond & Hcoeff & Htarget).
      exists (t_key task, node). split.
      * apply list_elem_of_In, elem_of_map_to_list. exact Hnode.
      * simpl. rewrite Hc.
        assert (Hb : negb (nth 0 (dim (coeff node)) 0 =? k) || doleaves = true).
        { apply orb_true_iff. destruct Hcond as [Hne | Hd]; [left | right; exact Hd].
          apply negb_true_iff, Z.eqb_neq. exact Hne. }
        rewrite Hb. left. destruct task as [tg key t]. simpl in *. congruence.
  - pose proof (NoDup_fst_map_to_list f) as Hnd. apply NoDup_ListNoDup in Hnd.
    induction (map_to_list f) as [ | [key node] l IH]; simpl; [constructor | ].
    change ((key, node) :: l).*1 with (key :: l.*1) in Hnd.
    apply NoDup_cons_iff in Hnd as [Hfresh Hnd]. specialize (IH Hnd).
    assert (Hrest : forall key', In key' (map t_key
              (flat_map
                 (fun kn =>
                    if has_coeff (snd kn) then
                      if negb (nth 0 (dim (coeff (snd kn))) 0 =? k) || doleaves then
                        [mkTask (if randomize then RandomProc else OwnerOf (fst kn))
                                (fst kn) (coeff (snd kn))]
                      else []
                    else []) l)) -> In key' l.*1).
    { intros key' Hin. apply in_map_iff in Hin as (task & <- & Hin).
      apply in_flat_map in Hin as ([k1 n1] & Hin & Htask). simpl in Htask.
      destruct (has_coeff n1); [ | destruct Htask].
      destruct (negb _ || doleaves); [ | destruct Htask].
      destruct Htask as [<- | []]. simpl.
      apply list_elem_of_In, list_elem_of_fmap. exists (k1, n1).
      split; [reflexivity | apply list_elem_of_In; exact Hin]. }
    destruct (has_coeff node); [ | exact IH].
    destruct (negb _ || doleaves); [ | exact IH].
    simpl. constructor; [ | exact IH]. intros Hin. apply Hfresh, Hrest. exact Hin.
Qed.

End ApplyTasks.

(** *** [inner_local] *)

Section Inner.
Context {T : Type} `{Scalar T}.

Lemma omap_step {A B : Type} (h : A -> option B) (x : A) (l : list A) :
  omap h (x :: l) = match h x with Some y => y :: omap h l | None => omap h l end.
Proof. reflexivity. Qed.

Lemma omap_agree {A B : Type} (h h' : A -> option B) (l : list A) :
  (forall x, In x l -> h x = h' x) -> omap h l = omap h' l.
Proof.
  induction l as [ | x l IH]; intros Hl; [reflexivity | ].
  rewrite !omap_step, (Hl x) by (left; reflexivity).
  rewrite IH by (intros y Hy; apply Hl; right; exact Hy). reflexivity.
Qed.

Lemma forallb_Permutation {A : Type} (p : A -> bool) (l l' : list A) :
  l ≡ₚ l' -> forallb p l = forallb p l'.
Proof.
  induction 1 as [ | x l l' _ IH | x y l | l l' l'' _ IH1 _ IH2]; simpl.
  - reflexivity.
  - rewrite IH. reflexivity.
  - destruct (p x), (p y); reflexivity.
  - rewrite IH1. exact IH2.
Qed.

(** The loop of [inner_local] adds up the contributions in turn. *)
Lemma inner_local_sums (trace_conj : Tensor T -> Tensor T -> T)
    (g : coeffsT T) (l : list (Key * FunctionNode T)) :
  forall acc,
    fold_left (inner_local_step trace_conj g) l acc
    = fold_left (fun acc r => sum ← acc; t ← r; Ok (add sum t))
                (omap (inner_local_term trace_conj g) l) acc.
Proof.
  induction l as [ | kn l IH]; intros acc; [reflexivity | ].
  rewrite omap_step. cbn [fold_left]. rewrite IH.
  unfold inner_local_step, inner_local_term.
  destruct (has_coeff (snd kn)); [ | destruct acc; reflexivity].
  destruct (g !! fst kn) as [gnode | ]; [ | destruct acc; reflexivity].
  destruct (has_coeff gnode); [ | destruct acc; reflexivity].
  destruct (negb _); destruct acc; reflexivity.
Qed.

Lemma sum_terms_ok (l : list (result T)) :
  forall acc : result T,
    is_ok (fold_left (fun acc r => sum ← acc; t ← r; Ok (add sum t)) l acc)
    = is_ok acc && forallb is_ok l.
Proof.
  induction l as [ | r l IH]; intros acc; simpl.
  - rewrite andb_true_r. reflexivity.
  - rewrite IH. destruct acc as [s | m x]; simpl; [ | reflexivity].
    destruct r; reflexivity.
Qed.

(** The contributions of the keys that both functions hold are the same
    whichever of the two is iterated. *)
Lemma inner_local_terms_swap (trace_conj : Tensor T -> Tensor T -> T) :
  (forall a b, trace_conj a b = trace_conj b a) ->
  forall f g : coeffsT T,
    inner_local_terms trace_conj f g ≡ₚ inner_local_terms trace_conj g f.
Proof.
  intros Hsym f. unfold inner_local_terms.
  induction f as [ | k fn f' Hfresh IH] using map_ind; intros g.
  - rewrite map_to_list_empty.
    rewrite (omap_agree (inner_local_term trace_conj ∅) (fun _ => None)).
    + induction (map_to_list g) as [ | x l IHl]; [reflexivity | ].
      rewrite omap_step. exact IHl.
    + intros kn _. unfold inner_local_term. rewrite lookup_empty.
      destruct (has_coeff (snd kn)); reflexivity.
  - rewrite (map_to_list_insert f' k fn Hfresh), omap_step.
    destruct (g !! k) as [gn | ] eqn:Hg.
    + assert (Hperm : map_to_list g ≡ₚ (k, gn) :: map_to_list (delete k g)).
      { rewrite <- (insert_delete_id g k gn) at 1 by exact Hg.
        apply map_to_list_insert. apply lookup_delete_eq. }
      assert (Hrest : omap (inner_local_term trace_conj (<[k:=fn]> f'))
                           (map_to_list (delete k g))
                      = omap (inner_local_term trace_conj f')
                             (map_to_list (delete k g))).
      { apply omap_agree. intros [k' gn'] Hin. unfold inner_local_term. simpl.
        apply list_elem_of_In, elem_of_map_to_list in Hin.
        destruct (decide (k' = k)) as [-> | Hne].
        - rewrite lookup_delete_eq in Hin. discriminate.
        - rewrite lookup_insert_ne by congruence. reflexivity. }
      assert (Hnone : inner_local_term trace_conj f' (k, gn) = None).
      { unfold inner_local_term. simpl. rewrite Hfresh.
        destruct (has_coeff gn); reflexivity. }
      assert (Hsame : inner_local_term trace_conj (<[k:=fn]> f') (k, gn)
                      = inner_local_term trace_conj g (k, fn)).
      { unfold inner_local_term. simpl. rewrite lookup_insert_eq, Hg.
        destruct (has_coeff fn), (has_coeff gn); try reflexivity.
        rewrite (Z.eqb_sym (nth 0 (dim (coeff gn)) 0)), Hsym. reflexivity. }
      assert (Hold : omap (inner_local_term trace_conj g) (map_to_list f')
                     ≡ₚ omap (inner_local_term trace_conj f')
                          (map_to_list (delete k g))).
      { rewrite (IH g), Hperm, omap_step, Hnone. reflexivity. }
      rewrite Hperm, omap_step, Hsame, Hrest.
      destruct (inner_local_term trace_conj g (k, fn)) as [r | ].
      * rewrite Hold. reflexivity.
      * exact Hold.
    + assert (Hnone : inner_local_term trace_conj g (k, fn) = None).
      { unfold inner_local_term. simpl. rewrite Hg.
        destruct (has_coeff fn); reflexivity. }
      rewrite Hnone, (IH g).
      rewrite (omap_agree (inner_local_term trace_conj (<[k:=fn]> f'))
                          (inner_local_term trace_conj f')); [reflexivity | ].
      intros [k' gn'] Hin. unfold inner_local_term. simpl.
      apply list_elem_of_In, elem_of_map_to_list in Hin.
      destruct (decide (k' = k)) as [-> | Hne]; [congruence | ].
      rewrite lookup_insert_ne by congruence. reflexivity.
Qed.

(** Whether an entry throws does not depend on [trace_conj]. *)
Lemma inner_local_terms_ok (tc tc' : Tensor T -> Tensor T -> T) (f g : coeffsT T) :
  forallb is_ok (inner_local_terms tc f g)
  = forallb is_ok (inner_local_terms tc' f g).
Proof.
  unfold inner_local_terms.
  induction (map_to_list f) as [ | kn l IH]; [reflexivity | ].
  rewrite !omap_step.
  assert (Hterm : inner_local_term tc g kn = None
                  /\ inner_local_term tc' g kn = None
                  \/ exists r r', inner_local_term tc g kn = Some r
                                  /\ inner_local_term tc' g kn = Some r'
                                  /\ is_ok r = is_ok r').
  { unfold inner_local_term.
    destruct (has_coeff (snd kn)); [ | left; split; reflexivity].
    destruct (g !! fst kn) as [gnode | ]; [ | left; split; reflexivity].
    destruct (has_coeff gnode); [ | left; split; reflexivity].
    right. destruct (negb _); eexists; eexists; repeat split. }
  destruct Hterm as [[-> ->] | (r & r' & -> & -> & Hok)]; [exact IH | ].
  simpl. rewrite Hok, IH. reflexivity.
Qed.

(** [f.inner_local(g)] adds up, from [0.0] and in the order in which the
    coefficients of [f] are iterated, one term for every key at which both
    functions have coefficients, and throws if the shapes differ at one of
    them.  [g.inner_local(f)] throws in the same cases; and when
    [trace_conj] is symmetric (real scalars) it adds up the same terms,
    possibly in another order: the two inner products differ by the order
    of the summation only. *)
Theorem inner_local_is_symmetric (trace_conj : Tensor T -> Tensor T -> T)
    (f g : coeffsT T) :
  inner_local trace_conj f g = sum_terms (inner_local_terms trace_conj f g)
  /\ inner_local trace_conj g f = sum_terms (inner_local_terms trace_conj g f)
  /\ is_ok (inner_local trace_conj f g) = is_ok (inner_local trace_conj g f)
  /\ ((forall a b, trace_conj a b = trace_conj b a) ->
      inner_local_terms trace_conj f g ≡ₚ inner_local_terms trace_conj g f).
Proof.
  assert (Hsum : forall f g : coeffsT T,
             inner_local trace_conj f g
             = sum_terms (inner_local_terms trace_conj f g)).
  { intros f0 g0. unfold inner_local, sum_terms, inner_local_terms.
    apply inner_local_sums. }
  split; [apply Hsum | ]. split; [apply Hsum | ]. split.
  - rewrite !Hsum. unfold sum_terms. rewrite !sum_terms_ok. simpl.
    rewrite (inner_local_terms_ok trace_conj (fun _ _ => zero) f g).
    rewrite (inner_local_terms_ok trace_conj (fun _ _ => zero) g f).
    apply forallb_Permutation. apply inner_local_terms_swap. reflexivity.
  - intros Hsym. apply inner_local_terms_swap. exact Hsym.
Qed.

End Inner.

(** *** The theorems above at concrete inputs *)

Lemma gaxpy_into_empty_witness :
  let left : coeffsT Z := {[ mkKey 0 [0] := Mra.ex_leaf 3 ]} in
  exists node,
    gaxpy 1 2 left 3 ∅ ∅ !! mkKey 0 [0] = Some node
    /\ dim (coeff node) = [1]
    /\ forall idx, elem (coeff node) idx = 2 * 3.
Proof.
  intros left.
  pose proof (gaxpy_into_empty 1 2 3 left ∅ Z.mul_1_l Z.mul_comm)
    as (_ & Hleft & _).
  exact (Hleft (mkKey 0 [0]) (Mra.ex_leaf 3) eq_refl eq_refl eq_refl).
Defined.

Lemma accumulate_keeps_tree_connected_witness :
  let t : Tensor Z := mkTensor [1] (fun _ => 5) in
  let dest := mkKey 2 [3] in
  let sent := Apply.deliver Apply.ex_parent (Apply.SendAccumulate dest t) ∅ in
  exists c',
    run_node_tasks Apply.ex_parent 2 (snd sent) (fst sent) = Some c'
    /\ wired Apply.ex_parent c'
    /\ exists node, c' !! dest = Some node /\ coeff node = t.
Proof.
  intros t dest sent.
  destruct (accumulate_keeps_tree_connected Apply.ex_parent
              (fun k => eq_refl) t dest ∅)
    as (c' & Hrun & Hwired & _ & Hnew).
  - simpl. lia.
  - intros key node Hnode. rewrite lookup_empty in Hnode. discriminate.
  - exists c'. split; [exact Hrun | ]. split; [exact Hwired | ].
    apply Hnew. reflexivity.
Defined.

Lemma child_patches_tile_the_block_witness :
  exists bits,
    In bits (bit_patterns 1)
    /\ in_slices (child_patch Mra.ex_cdata (child_of (mkKey 0 [0]) bits)) [1] = true.
Proof.
  apply (proj1 (child_patches_tile_the_block Mra.ex_cdata (mkKey 0 [0]) [1]
                  eq_refl eq_refl)).
  reflexivity.
Defined.

Lemma assemble_of_carved_blocks_witness :
  let d : Tensor Z := mkTensor [2] (fun idx => nth 0 idx 0 + 7) in
  let key := mkKey 0 [0] in
  let v := map (fun child => copy_slice d (child_patch Mra.ex_cdata child))
               (children Mra.ex_cdata key) in
  elem (assemble Mra.ex_cdata (fun _ => 0) key v) [1] = 8.
Proof.
  intros d key v.
  apply (proj2 (assemble_of_carved_blocks Mra.ex_cdata (fun _ => 0) key d [1]
                  eq_refl eq_refl)).
  reflexivity.
Defined.

Lemma refine_op_keeps_reconstructed_form_witness :
  let c : coeffsT Z := {[ mkKey 0 [0] := node_of (mkTensor [1] (fun _ => 3)) false ]} in
  let tnorm (t : Tensor Z) : Q * Q := (1, 1)%Q in
  let f := Threshold.mkSettings (1#1000) 0 1 in
  exists c',
    refine_op Mra.ex_cdata (fun d => d) tnorm 5 f (mkKey 0 [0]) c = Ok c'
    /\ c' !! mkKey 0 [0] = Some (mkNode empty_tensor norm_tree_unset true)
    /\ (forall key', key' <> mkKey 0 [0] ->
        key' ∉ children Mra.ex_cdata (mkKey 0 [0]) -> c' !! key' = c !! key').
Proof.
  intros c tnorm f.
  pose proof (refine_op_keeps_reconstructed_form Mra.ex_cdata (fun d => d)
                tnorm 5 f (mkKey 0 [0]) c eq_refl ltac:(discriminate) eq_refl)
    as (_ & _ & Hrefine & _).
  destruct (Hrefine (node_of (mkTensor [1] (fun _ => 3)) false)
              eq_refl eq_refl eq_refl eq_refl)
    as (c' & Hc' & Hkey & _ & Hother).
  exists c'. split; [exact Hc' | ]. split; [exact Hkey | exact Hother].
Defined.

Lemma accumulate_in_any_order_witness :
  let t1 : Tensor Z := mkTensor [1] (fun _ => 2) in
  let t2 : Tensor Z := mkTensor [1] (fun _ => 5) in
  let key := mkKey 1 [0] in
  let a1 := accumulate Apply.ex_parent node_default t1 key in
  let a12 := accumulate Apply.ex_parent (fst a1) t2 key in
  let a2 := accumulate Apply.ex_parent node_default t2 key in
  let a21 := accumulate Apply.ex_parent (fst a2) t1 key in
  snd a1 ++ snd a12 = snd a2 ++ snd a21
  /\ same_node (fst a12) (fst a21).
Proof.
  intros t1 t2 key.
  pose proof (@accumulate_in_any_order Z Z_scalar Apply.ex_parent node_default
                t1 t2 key eq_refl eq_refl eq_refl) as (_ & Htasks & _ & Hfresh).
  split; [exact Htasks | ].
  exact (proj2 (Hfresh eq_refl) Z.add_comm).
Defined.

Lemma truncate_tol_shrinks_with_level_witness :
  let f := Threshold.mkSettings (1#1000) 1 1 in
  exists r r',
    Threshold.truncate_tol f (1#100) (mkKey 2 [0; 0; 0]) = Ok r
    /\ Threshold.truncate_tol f (1#100) (mkKey 5 [0; 0; 0]) = Ok r'
    /\ (0 <= r)%Q /\ (r' <= r)%Q /\ (r <= 1#100)%Q.
Proof.
  intros f.
  pose proof (truncate_tol_shrinks_with_level f (1#100) (mkKey 2 [0; 0; 0]) _
                ltac:(unfold Qle; simpl; lia) ltac:(unfold Qle; simpl; lia)
                eq_refl) as ((Hlo & Hhi) & Hdeep).
  destruct (Hdeep (mkKey 5 [0; 0; 0]) ltac:(simpl; lia)) as (r' & Hr' & Hle).
  eexists. exists r'. split; [reflexivity | ]. split; [exact Hr' | ].
  split; [exact Hlo | ]. split; [exact Hle | exact Hhi].
Defined.

Lemma no_high_order_no_refinement_witness :
  let c : coeffsT Z := {[ mkKey 0 [0] := node_of (mkTensor [1] (fun _ => 3)) false ]} in
  let tnorm (t : Tensor Z) : Q * Q := (3, 0)%Q in
  let f := Threshold.mkSettings (1#1000) 1 1 in
  refine_op Mra.ex_cdata (fun d => d) tnorm 5 f (mkKey 0 [0]) c = Ok c.
Proof.
  intros c tnorm f.
  apply (proj2 (no_high_order_no_refinement Mra.ex_cdata (fun d => d) tnorm 5 f
                  (mkKey 0 [0]) c (node_of (mkTensor [1] (fun _ => 3)) false)
                  ltac:(unfold Qle; simpl; lia) ltac:(unfold Qle; simpl; lia)
                  ltac:(simpl; lia) eq_refl ltac:(reflexivity))).
Defined.

End ImplFacts.

(** ** The process map *)

Module PmapFacts.
Import Pmap.

(** For [nproc > 0] processes, an unsigned hash and [n > 0]:
    [SimpleMap::owner] names a process of the world for every key; the
    root belongs to process 0; and every key deeper than level [n] belongs
    to the process of its ancestor at level [n], so that the subtree below
    a node of level [n] is on one process. *)
Theorem owner_keeps_subtrees_together (hash : Key -> Z)
    (parent_gen : Key -> Z -> Key) (nproc n : Z) :
  0 < nproc -> 0 < n ->
  (forall k g, level (parent_gen k g) = level k - g) ->
  (forall key, 0 <= owner hash parent_gen nproc n key < nproc)
  /\ (forall key, level key = 0 -> owner hash parent_gen nproc n key = 0)
  /\ (forall key, n < level key ->
        owner hash parent_gen nproc n key
          = owner hash parent_gen nproc n (parent_gen key (level key - n)))
  /\ (forall k1 k2, n < level k1 -> n < level k2 ->
        parent_gen k1 (level k1 - n) = parent_gen k2 (level k2 - n) ->
        owner hash parent_gen nproc n k1 = owner hash parent_gen nproc n k2).
Proof.
  intros Hnproc Hn Hparent.
  assert (Hdeep : forall key, n < level key ->
            owner hash parent_gen nproc n key
              = hash (parent_gen key (level key - n)) mod nproc).
  { intros key Hl. unfold owner.
    destruct (level key =? 0) eqn:H0; [apply Z.eqb_eq in H0; lia | ].
    destruct (level key <=? n) eqn:Hle; [apply Z.leb_le in Hle; lia | reflexivity]. }
  split; [ | split; [ | split]].
  - intros key. unfold owner. destruct (level key =? 0); [lia | ].
    destruct (level key <=? n); apply Z.mod_pos_bound; exact Hnproc.
  - intros key Hl. unfold owner. rewrite Hl. reflexivity.
  - intros key Hl. rewrite (Hdeep key Hl). unfold owner at 1.
    rewrite Hparent.
    destruct (level key - (level key - n) =? 0) eqn:H0;
      [apply Z.eqb_eq in H0; lia | ].
    destruct (level key - (level key - n) <=? n) eqn:Hle;
      [reflexivity | apply Z.leb_gt in Hle; lia].
  - intros k1 k2 H1 H2 Heq. rewrite (Hdeep k1 H1), (Hdeep k2 H2), Heq. reflexivity.
Qed.

Lemma owner_keeps_subtrees_together_witness :
  0 <= Pmap.owner Pmap.ex_hash Pmap.ex_parent_gen 2 1 (mkKey 3 [5]) < 2
  /\ Pmap.owner Pmap.ex_hash Pmap.ex_parent_gen 2 1 (mkKey 3 [5])
     = Pmap.owner Pmap.ex_hash Pmap.ex_parent_gen 2 1 (mkKey 4 [9]).
Proof.
  pose proof (owner_keeps_subtrees_together Pmap.ex_hash Pmap.ex_parent_gen 2 1
                eq_refl eq_refl (fun k g => eq_refl)) as (Hrange & _ & _ & Hsame).
  split; [apply Hrange | ].
  apply Hsame; [simpl; lia | simpl; lia | reflexivity].
Defined.

End PmapFacts.

(** ** [ApplyTime] *)

Module TimingFacts.
Import Timing.

(** [update] stores the first time reported for a key as it is, and
    afterwards moves the stored time nine tenths of the way to the time
    reported: the result lies between the two, and its distance to the new
    time is a tenth of the old distance.  The times of the other keys stay
    as they are; a key never reported reads as 0, as does every key after
    [clear]. *)
Theorem update_moves_towards_new_time (key : Key) (y : Q) (t : gmap Key Q) :
  (t !! key = None -> get key (update (key, y) t) = y)
  /\ (forall s, t !! key = Some s ->
        let r := get key (update (key, y) t) in
        (r - y == (s - y) * (1 # 10))%Q
        /\ (Qmin s y <= r /\ r <= Qmax s y)%Q)
  /\ (forall key', key' <> key -> get key' (update (key, y) t) = get key' t)
  /\ (forall key', t !! key' = None -> get key' t = 0%Q)
  /\ (forall key', get key' (clear t) = 0%Q).
Proof.
  split; [ | split; [ | split; [ | split]]].
  - intros Hnone. unfold update, get. simpl. rewrite Hnone, lookup_insert_eq.
    reflexivity.
  - intros s Hs r. subst r. unfold update, get. simpl.
    rewrite Hs, lookup_insert_eq. unfold decay_val. split; [ring | ].
    destruct (Qlt_le_dec s y) as [Hlt | Hle].
    + apply Qlt_le_weak in Hlt.
      rewrite (Q.min_l s y) by exact Hlt. rewrite (Q.max_r s y) by exact Hlt.
      split; lra.
    + rewrite (Q.min_r s y) by exact Hle. rewrite (Q.max_l s y) by exact Hle.
      split; lra.
  - intros key' Hne. unfold update, get. simpl.
    destruct (t !! key); rewrite lookup_insert_ne by congruence; reflexivity.
  - intros key' Hnone. unfold get. rewrite Hnone. reflexivity.
  - intros key'. unfold get, clear. rewrite lookup_empty. reflexivity.
Qed.

End TimingFacts.

(** ** The RMI server: buffers and bookkeeping *)

Module RmiServerFacts.
Import Rmi RmiServer.

Section Server.
Variable K : Constants.
Variable P : Params.
Variable memalign_ok : Z -> Z -> bool.
Variable sort : list qmsg -> list qmsg.
Hypothesis sort_perm : forall l, Permutation (sort l) l.

Local Abbreviation post_pending_huge_msg := (post_pending_huge_msg K P memalign_ok).
Local Abbreviation post_recv_buf := (post_recv_buf K P memalign_ok).
Local Abbreviation invoke := (invoke K P memalign_ok).
Local Abbreviation arrive := (arrive K P memalign_ok).
Local Abbreviation arrive_all := (arrive_all K P memalign_ok).
Local Abbreviation drain := (drain K P memalign_ok).
Local Abbreviation wakeup := (wakeup K P memalign_ok sort).
Local Abbreviation run_loop := (run_loop K P memalign_ok sort).
Local Abbreviation run := (run K P memalign_ok sort).
Local Abbreviation admissible := (admissible K P memalign_ok sort).
Local Abbreviation only_alloc := (fails_only_on_allocation memalign_ok).

(** *** The only exception left *)

Lemma only_alloc_bind {A B : Type} (r : result A) (k : A -> result B) :
  only_alloc r -> (forall a, r = Ok a -> only_alloc (k a)) -> only_alloc (r ≫= k).
Proof.
  clear sort_perm. destruct r as [a | m x]; simpl; intros Hr Hk; [apply Hk; reflexivity | exact Hr].
Qed.

Lemma post_pending_only (st : RMI) : only_alloc (post_pending_huge_msg st).
Proof.
  clear sort_perm. unfold Rmi.post_pending_huge_msg.
  destruct (huge_pending st); [exact I | ].
  destruct (hugeq st) as [ | [s nbyte] rest]; [exact I | ].
  destruct (memalign_ok (ALIGNMENT K) nbyte) eqn:Hm; simpl; [exact I | ].
  split; [reflexivity | ]. exists (ALIGNMENT K), nbyte. exact Hm.
Qed.

Lemma post_recv_buf_only (j : Z) (st : RMI) :
  0 <= j <= nrecv_ P -> only_alloc (post_recv_buf j st).
Proof.
  clear sort_perm. intros Hj. unfold Rmi.post_recv_buf.
  destruct (j <? nrecv_ P) eqn:Hlt; [exact I | ].
  apply Z.ltb_ge in Hlt.
  assert (Heq : (j =? nrecv_ P) = true) by (apply Z.eqb_eq; lia).
  rewrite Heq. apply post_pending_only.
Qed.

Lemma invoke_only (m : qmsg) (st : RMI) : only_alloc (invoke m st).
Proof.
  clear sort_perm. unfold Rmi.invoke. destruct (func m); [ | exact I].
  unfold huge_msg_handler. apply post_pending_only.
Qed.

Lemma dispatch_only (m : qmsg) (st : RMI) (q : list qmsg) :
  0 <= i m <= nrecv_ P ->
  only_alloc (st1 ← invoke m st; st2 ← post_recv_buf (i m) st1; Ok (st2, q)).
Proof.
  clear sort_perm. intros Hi. apply only_alloc_bind; [apply invoke_only | ].
  intros st1 _. apply only_alloc_bind; [apply post_recv_buf_only; exact Hi | ].
  intros st2 _. exact I.
Qed.

(** *** Queued messages sit in different buffers *)

Lemma NoDup_bounded_length (l : list Z) (n : Z) :
  0 <= n -> List.NoDup l -> Forall (fun x => 0 <= x <= n) l ->
  Z.of_nat (length l) <= n + 1.
Proof.
  clear. intros Hpos Hnd Hrange.
  assert (Hincl : incl l (map Z.of_nat (seq 0 (Z.to_nat (n + 1))))).
  { intros x Hx. rewrite List.Forall_forall in Hrange. specialize (Hrange x Hx).
    apply in_map_iff. exists (Z.to_nat x). split; [lia | ].
    apply in_seq. lia. }
  apply (NoDup_incl_length Hnd) in Hincl.
  rewrite length_map, length_seq in Hincl. lia.
Qed.

Hypothesis queue_size : maxq_ P = nrecv_ P + 1.
Hypothesis some_buffers : 0 <= nrecv_ P.

Lemma tidy_Permutation (q q' : list qmsg) :
  Permutation q q' -> tidy P q -> tidy P q'.
Proof.
  clear. intros Hperm [Hnd Hrange]. split.
  - unfold slots in *. eapply Permutation_NoDup; [ | exact Hnd].
    apply Permutation_map. exact Hperm.
  - apply List.Forall_forall. intros x Hx. rewrite List.Forall_forall in Hrange.
    apply Hrange. eapply Permutation_in; [symmetry; exact Hperm | exact Hx].
Qed.

Lemma tidy_room (q : list qmsg) (m : qmsg) :
  tidy P (q ++ [m]) -> Z.of_nat (length q) < maxq_ P.
Proof.
  clear sort_perm. intros [Hnd Hrange].
  assert (Hr : Forall (fun x => 0 <= x <= nrecv_ P) (slots (q ++ [m]))).
  { apply List.Forall_forall. intros x Hx. apply in_map_iff in Hx as (y & <- & Hy).
    rewrite List.Forall_forall in Hrange. apply Hrange. exact Hy. }
  pose proof (NoDup_bounded_length (slots (q ++ [m])) (nrecv_ P) some_buffers Hnd Hr)
    as Hlen.
  unfold slots in Hlen. rewrite length_map, length_app in Hlen. simpl in Hlen.
  rewrite queue_size. lia.
Qed.

Lemma tidy_snoc (q : list qmsg) (a : arrival) :
  tidy P q -> 0 <= ar_i a <= nrecv_ P -> ~ In (ar_i a) (slots q) ->
  tidy P (q ++ [qmsg_of a]).
Proof.
  clear. intros [Hnd Hrange] Ha Hfresh. split.
  - unfold slots in *. rewrite map_app. simpl.
    apply List.NoDup_app; [exact Hnd | repeat constructor; intros [] | ].
    intros x Hx [<- | []]. contradiction.
  - apply Forall_app. split; [exact Hrange | ]. repeat constructor; simpl; lia.
Qed.

Lemma tidy_drop (left rest : list qmsg) (m : qmsg) :
  tidy P (left ++ m :: rest) -> tidy P (left ++ rest) /\ 0 <= i m <= nrecv_ P.
Proof.
  clear. intros Ht.
  apply (tidy_Permutation _ (m :: left ++ rest)) in Ht;
    [ | symmetry; apply Permutation_middle].
  destruct Ht as [Hnd Hrange]. simpl in Hnd.
  apply NoDup_cons_iff in Hnd as [_ Hnd].
  apply Forall_cons_iff in Hrange as [Hm Hrange]. repeat split; assumption || lia.
Qed.

(** One arrival in a buffer that holds no queued message: no exception but
    that of a failed allocation, and the queue stays tidy. *)
Lemma arrive_tidy (a : arrival) (st : RMI) (q : list qmsg) :
  tidy P q -> 0 <= ar_i a <= nrecv_ P -> ~ In (ar_i a) (slots q) ->
  only_alloc (arrive a (st, q))
  /\ forall st' q', arrive a (st, q) = Ok (st', q') ->
       tidy P q' /\ (q' = q \/ q' = q ++ [qmsg_of a]).
Proof.
  clear sort_perm. intros Ht Ha Hfresh. split.
  - unfold Rmi.arrive.
    destruct (negb (is_ordered K (attr (qmsg_of a))) || _).
    + apply dispatch_only. exact Ha.
    + pose proof (tidy_room q (qmsg_of a) (tidy_snoc q a Ht Ha Hfresh)) as Hroom.
      assert (Hge : (Z.of_nat (length q) >=? maxq_ P) = false).
      { rewrite Z.geb_leb. apply Z.leb_gt. exact Hroom. }
      rewrite Hge. exact I.
  - intros st' q' Harr.
    destruct (RmiFacts.arrive_cases K P memalign_ok a st q st' q' Harr)
      as [(_ & -> & _) | (_ & _ & -> & _)].
    + split; [exact Ht | left; reflexivity].
    + split; [apply tidy_snoc; assumption | right; reflexivity].
Qed.

Lemma arrive_all_tidy (b : list arrival) :
  forall st q,
    tidy P q -> List.NoDup (map ar_i b ++ slots q) ->
    Forall (fun a => 0 <= ar_i a <= nrecv_ P) b ->
    only_alloc (arrive_all b (st, q))
    /\ forall st' q', arrive_all b (st, q) = Ok (st', q') -> tidy P q'.
Proof.
  clear sort_perm. induction b as [ | a b IH]; intros st q Ht Hnd Hrange.
  - split; [exact I | ]. intros st' q' [= <- <-]. exact Ht.
  - apply Forall_cons_iff in Hrange as [Ha Hrange].
    simpl in Hnd. apply NoDup_cons_iff in Hnd as [Hfresh Hnd].
    assert (Hfresh' : ~ In (ar_i a) (slots q))
      by (intros Hin; apply Hfresh, in_or_app; right; exact Hin).
    destruct (arrive_tidy a st q Ht Ha Hfresh') as [Honly Hnext].
    change (arrive_all (a :: b) (st, q)) with (arrive a (st, q) ≫= arrive_all b).
    destruct (arrive a (st, q)) as [[st1 q1] | m x] eqn:Harr; [ | split; [exact Honly | discriminate]].
    destruct (Hnext st1 q1 eq_refl) as [Ht1 Hq1].
    change (Ok (st1, q1) ≫= arrive_all b) with (arrive_all b (st1, q1)).
    apply IH; [exact Ht1 | | exact Hrange].
    destruct Hq1 as [-> | ->]; [exact Hnd | ].
    unfold slots. rewrite map_app. simpl.
    eapply Permutation_NoDup; [ | constructor; [exact Hfresh | exact Hnd]].
    rewrite app_assoc. apply Permutation_cons_append.
Qed.

Lemma drain_tidy (q : list qmsg) :
  forall st left,
    tidy P (left ++ q) ->
    only_alloc (drain q st left)
    /\ forall st' q', drain q st left = Ok (st', q') -> tidy P q'.
Proof.
  clear sort_perm. induction q as [ | m rest IH]; intros st left Ht.
  - rewrite app_nil_r in Ht. split; [exact I | ]. intros st' q' [= <- <-]. exact Ht.
  - simpl. destruct (count m =? counter (recv_counters st) (src m)).
    + destruct (tidy_drop left rest m Ht) as [Ht' Hm].
      destruct (invoke m (advance (src m) st)) as [st1 | e x] eqn:Hinv.
      * simpl. destruct (post_recv_buf (i m) st1) as [st2 | e x] eqn:Hpost.
        -- simpl. apply IH. exact Ht'.
        -- simpl. split; [ | discriminate].
           pose proof (post_recv_buf_only (i m) st1 Hm) as Ho.
           rewrite Hpost in Ho. exact Ho.
      * simpl. split; [ | discriminate].
        pose proof (invoke_only m (advance (src m) st)) as Ho.
        rewrite Hinv in Ho. exact Ho.
    + apply IH. rewrite <- app_assoc. exact Ht.
Qed.

Lemma wakeup_tidy (b : list arrival) (st : RMI) (q : list qmsg) :
  tidy P q -> batch_fits P b q ->
  only_alloc (wakeup b (st, q))
  /\ forall st' q', wakeup b (st, q) = Ok (st', q') -> tidy P q'.
Proof.
  intros Ht [Hnd Hrange]. unfold Rmi.wakeup.
  destruct (arrive_all_tidy b (receive_into b st) q Ht Hnd Hrange) as [Ho1 Ht1].
  destruct (arrive_all b (receive_into b st, q)) as [[st1 q1] | e x];
    [ | split; [exact Ho1 | discriminate]].
  specialize (Ht1 st1 q1 eq_refl). simpl.
  destruct (drain_tidy (sort q1) st1 []) as [Ho2 Ht2].
  { simpl. apply (tidy_Permutation q1); [symmetry; apply sort_perm | exact Ht1]. }
  destruct (drain (sort q1) st1 []) as [[st2 q2] | e x];
    [ | split; [exact Ho2 | discriminate]].
  specialize (Ht2 st2 q2 eq_refl). simpl.
  pose proof (post_pending_only st2) as Ho3.
  destruct (post_pending_huge_msg st2) as [st3 | e x]; simpl;
    [ | split; [exact Ho3 | discriminate]].
  split; [exact I | ]. intros st' q' [= <- <-]. exact Ht2.
Qed.

Lemma run_loop_tidy (batches : list (list arrival)) :
  forall st q,
    tidy P q -> admissible batches (st, q) -> only_alloc (run_loop batches (st, q)).
Proof.
  induction batches as [ | b batches IH]; intros st q Ht Hadm; [exact I | ].
  destruct Hadm as [Hfits Hadm]. simpl in Hfits.
  destruct (wakeup_tidy b st q Ht Hfits) as [Ho Hnext].
  change (run_loop (b :: batches) (st, q)) with (wakeup b (st, q) ≫= run_loop batches).
  destruct (wakeup b (st, q)) as [[st1 q1] | e x]; [ | exact Ho].
  apply IH; [exact (Hnext st1 q1 eq_refl) | exact Hadm].
Qed.

(** The out-of-order queue has one entry per receive buffer, [maxq_ =
    nrecv_ + 1], and that is enough: as long as the transport delivers
    into posted buffers only, [run] raises neither the overflow of the
    queue nor the confusion about a buffer; the one exception it can
    raise is that of a failed allocation for a huge message, and when the
    allocator does not fail it handles every round of arrivals. *)
Theorem queue_has_room_for_every_buffer (batches : list (list arrival))
    (st : RMI) :
  admissible batches (st, []) ->
  fails_only_on_allocation memalign_ok (run batches st)
  /\ ((forall alignment nbyte, memalign_ok alignment nbyte = true) ->
      exists st' q', run batches st = Ok (st', q')).
Proof.
  intros Hadm.
  assert (Ho : only_alloc (run batches st)).
  { unfold Rmi.run. apply run_loop_tidy; [ | exact Hadm].
    split; [constructor | constructor]. }
  split; [exact Ho | ]. intros Halloc.
  destruct (run batches st) as [[st' q'] | e x]; [exists st', q'; reflexivity | ].
  destruct Ho as (_ & al & nb & Hfail). rewrite Halloc in Hfail. discriminate.
Qed.

End Server.
(** *** No message is lost *)

Section Books.
Variable K : Constants.
Variable P : Params.
Variable memalign_ok : Z -> Z -> bool.
Variable sort : list qmsg -> list qmsg.
Hypothesis sort_perm : forall l, Permutation (sort l) l.

Local Abbreviation post_pending_huge_msg := (post_pending_huge_msg K P memalign_ok).
Local Abbreviation post_recv_buf := (post_recv_buf K P memalign_ok).
Local Abbreviation invoke := (invoke K P memalign_ok).
Local Abbreviation arrive := (arrive K P memalign_ok).
Local Abbreviation arrive_all := (arrive_all K P memalign_ok).
Local Abbreviation drain := (drain K P memalign_ok).
Local Abbreviation wakeup := (wakeup K P memalign_ok sort).
Local Abbreviation run_loop := (run_loop K P memalign_ok sort).
Local Abbreviation run := (run K P memalign_ok sort).
Local Abbreviation ordered := (fun m : qmsg => is_ordered K (attr m) = true).

Lemma post_pending_stats (st st' : RMI) :
  post_pending_huge_msg st = Ok st' -> stats st' = stats st.
Proof.
  clear sort_perm. unfold Rmi.post_pending_huge_msg.
  destruct (huge_pending st); [intros [= <-]; reflexivity | ].
  destruct (hugeq st) as [ | [s nbyte] rest]; [intros [= <-]; reflexivity | ].
  destruct (memalign_ok (ALIGNMENT K) nbyte); simpl; [ | discriminate].
  intros [= <-]. reflexivity.
Qed.

Lemma dispatch_stats (m : qmsg) (st st' : RMI) :
  invoke m st ≫= post_recv_buf (i m) = Ok st' -> stats st' = stats st.
Proof.
  clear sort_perm. intros Hd. apply RmiFacts.bind_Ok in Hd as (st1 & Hinv & Hpost).
  assert (H1 : stats st1 = stats st).
  { unfold Rmi.invoke in Hinv. destruct (func m).
    - unfold huge_msg_handler in Hinv. apply post_pending_stats in Hinv.
      rewrite Hinv. reflexivity.
    - injection Hinv as <-. reflexivity. }
  rewrite <- H1. unfold Rmi.post_recv_buf in Hpost.
  destruct (i m <? nrecv_ P); [injection Hpost as <-; reflexivity | ].
  destruct (i m =? nrecv_ P); [ | discriminate].
  apply post_pending_stats in Hpost. rewrite Hpost. reflexivity.
Qed.

Lemma arrive_books (a : arrival) (st : RMI) (q : list qmsg) (st' : RMI)
    (q' : list qmsg) :
  arrive a (st, q) = Ok (st', q') ->
  stats st' = mkStats (nmsg_sent (stats st)) (nbyte_sent (stats st))
                      (nmsg_recv (stats st) + 1) (nbyte_recv (stats st) + ar_len a)
  /\ Permutation (invoked (trace st') ++ q')
                 (invoked (trace st) ++ q ++ [qmsg_of a])
  /\ (Forall ordered q -> Forall ordered q').
Proof.
  clear sort_perm. intros Harr. split; [ | split].
  - unfold Rmi.arrive in Harr.
    destruct (negb (is_ordered K (attr (qmsg_of a))) || _).
    + apply RmiFacts.bind_Ok in Harr as (st1 & Hinv & Harr).
      apply RmiFacts.bind_Ok in Harr as (st2 & Hpost & Harr). injection Harr as <- <-.
      assert (Hd : invoke (qmsg_of a)
                     (if is_ordered K (attr (qmsg_of a))
                      then advance (src (qmsg_of a))
                             (set_stats (mkStats (nmsg_sent (stats st))
                                                 (nbyte_sent (stats st))
                                                 (nmsg_recv (stats st) + 1)
                                                 (nbyte_recv (stats st) + ar_len a)) st)
                      else set_stats (mkStats (nmsg_sent (stats st))
                                              (nbyte_sent (stats st))
                                              (nmsg_recv (stats st) + 1)
                                              (nbyte_recv (stats st) + ar_len a)) st)
                   ≫= post_recv_buf (i (qmsg_of a)) = Ok st2)
        by (rewrite Hinv; exact Hpost).
      apply dispatch_stats in Hd. rewrite Hd.
      destruct (is_ordered K (attr (qmsg_of a))); reflexivity.
    + destruct (Z.of_nat (length q) >=? maxq_ P); [discriminate | ].
      injection Harr as <- <-. reflexivity.
  - destruct (RmiFacts.arrive_cases K P memalign_ok a st q st' q' Harr)
      as [(_ & -> & -> & _) | (_ & _ & -> & -> & _)].
    + rewrite <- !app_assoc. apply Permutation_app_head. apply Permutation_app_comm.
    + reflexivity.
  - intros Hq.
    destruct (RmiFacts.arrive_cases K P memalign_ok a st q st' q' Harr)
      as [(_ & -> & _) | (Hord & _ & -> & _)]; [exact Hq | ].
    apply Forall_app. split; [exact Hq | ]. constructor; [exact Hord | constructor].
Qed.

Lemma arrive_all_books (b : list arrival) :
  forall st q st' q',
    arrive_all b (st, q) = Ok (st', q') ->
    nmsg_sent (stats st') = nmsg_sent (stats st)
    /\ nbyte_sent (stats st') = nbyte_sent (stats st)
    /\ nmsg_recv (stats st') = nmsg_recv (stats st) + Z.of_nat (length b)
    /\ nbyte_recv (stats st') = nbyte_recv (stats st) + total (map ar_len b)
    /\ Permutation (invoked (trace st') ++ q')
                   (invoked (trace st) ++ q ++ map qmsg_of b)
    /\ (Forall ordered q -> Forall ordered q').
Proof.
  clear sort_perm. induction b as [ | a b IH]; intros st q st' q'.
  - intros [= <- <-]. simpl. rewrite app_nil_r.
    repeat split; try lia; try reflexivity. tauto.
  - change (arrive_all (a :: b) (st, q)) with (arrive a (st, q) ≫= arrive_all b).
    intros Hall. apply RmiFacts.bind_Ok in Hall as ([st1 q1] & Ha & Hall).
    apply arrive_books in Ha as (Hs & Hp & Ho).
    apply IH in Hall as (H1 & H2 & H3 & H4 & H5 & H6).
    rewrite H1, H2, H3, H4, Hs. simpl.
    repeat split; try lia; [ | tauto].
    rewrite H5. rewrite app_assoc, Hp, <- !app_assoc. reflexivity.
Qed.

Lemma drain_books (q : list qmsg) :
  forall st left st' q',
    drain q st left = Ok (st', q') ->
    stats st' = stats st
    /\ Permutation (invoked (trace st') ++ q') (invoked (trace st) ++ left ++ q)
    /\ (Forall ordered (left ++ q) -> Forall ordered q').
Proof.
  clear sort_perm. induction q as [ | m rest IH]; intros st left st' q'.
  - intros [= <- <-]. rewrite app_nil_r. repeat split; [reflexivity | tauto].
  - simpl. destruct (count m =? counter (recv_counters st) (src m)).
    + intros Hd.
      assert (Hd' : (invoke m (advance (src m) st) ≫= post_recv_buf (i m))
                    ≫= (fun st2 => drain rest st2 left) = Ok (st', q')).
      { destruct (invoke m (advance (src m) st)); [exact Hd | discriminate]. }
      apply RmiFacts.bind_Ok in Hd' as (st2 & Hdisp & Hrest).
      pose proof (dispatch_stats _ _ _ Hdisp) as Hs.
      apply RmiFacts.dispatch_frame in Hdisp as [_ Ht].
      apply IH in Hrest as (Hs' & Hp & Ho).
      split; [rewrite Hs', Hs; reflexivity | ]. split.
      * rewrite Hp, Ht. simpl. rewrite <- !app_assoc. apply Permutation_app_head.
        simpl. apply Permutation_middle.
      * intros Hall. apply Ho. apply Forall_app in Hall as [Hl Hq].
        apply Forall_cons_iff in Hq as [_ Hq]. apply Forall_app. tauto.
    + intros Hd. apply IH in Hd as (Hs & Hp & Ho).
      split; [exact Hs | ]. rewrite <- app_assoc in Hp, Ho. simpl in Hp, Ho. tauto.
Qed.

Lemma wakeup_books (b : list arrival) (st : RMI) (q : list qmsg) (st' : RMI)
    (q' : list qmsg) :
  wakeup b (st, q) = Ok (st', q') ->
  nmsg_sent (stats st') = nmsg_sent (stats st)
  /\ nbyte_sent (stats st') = nbyte_sent (stats st)
  /\ nmsg_recv (stats st') = nmsg_recv (stats st) + Z.of_nat (length b)
  /\ nbyte_recv (stats st') = nbyte_recv (stats st) + total (map ar_len b)
  /\ Permutation (invoked (trace st') ++ q')
                 (invoked (trace st) ++ q ++ map qmsg_of b)
  /\ (Forall ordered q -> Forall ordered q').
Proof.
  unfold Rmi.wakeup. intros Hw.
  apply RmiFacts.bind_Ok in Hw as ([st1 q1] & Hall & Hw).
  apply RmiFacts.bind_Ok in Hw as ([st2 q2] & Hdrain & Hw).
  apply RmiFacts.bind_Ok in Hw as (st3 & Hpost & Hw). injection Hw as <- <-.
  apply arrive_all_books in Hall as (H1 & H2 & H3 & H4 & H5 & H6).
  apply drain_books in Hdrain as (Hs & Hp & Ho).
  pose proof (post_pending_stats _ _ Hpost) as Hs3.
  apply RmiFacts.post_pending_frame in Hpost as [_ Ht3].
  rewrite Hs3, Hs, H1, H2, H3, H4, Ht3. simpl in *.
  repeat split; try reflexivity.
  - rewrite Hp. simpl. rewrite (sort_perm q1). exact H5.
  - intros Hq. apply Ho. simpl.
    apply List.Forall_forall. intros m Hm.
    specialize (H6 Hq). rewrite List.Forall_forall in H6. apply H6.
    eapply Permutation_in; [apply sort_perm | exact Hm].
Qed.

(** Every message that arrived was handed to its handler once or is in the
    queue, and nothing else is: the handler calls together with the queue
    are the arrivals, up to their order.  Only ordered messages are ever in
    the queue, so that an unordered message is handled in the round in
    which it arrives.  The receive statistics count each arrival once,
    with its length, and the send statistics are not touched. *)
Theorem no_message_is_lost (batches : list (list arrival)) :
  forall st q st' q',
    run_loop batches (st, q) = Ok (st', q') ->
    Permutation (invoked (trace st') ++ q')
                (invoked (trace st) ++ q ++ map qmsg_of (concat batches))
    /\ (Forall ordered q -> Forall ordered q')
    /\ nmsg_recv (stats st')
       = nmsg_recv (stats st) + Z.of_nat (length (concat batches))
    /\ nbyte_recv (stats st')
       = nbyte_recv (stats st) + total (map ar_len (concat batches))
    /\ nmsg_sent (stats st') = nmsg_sent (stats st)
    /\ nbyte_sent (stats st') = nbyte_sent (stats st).
Proof.
  induction batches as [ | b batches IH]; intros st q st' q'.
  - intros [= <- <-]. simpl. rewrite app_nil_r.
    repeat split; try lia; try reflexivity. tauto.
  - change (run_loop (b :: batches) (st, q)) with (wakeup b (st, q) ≫= run_loop batches).
    intros Hrun. apply RmiFacts.bind_Ok in Hrun as ([st1 q1] & Hw & Hrun).
    apply wakeup_books in Hw as (H1 & H2 & H3 & H4 & H5 & H6).
    apply IH in Hrun as (Hp & Ho & G3 & G4 & G1 & G2).
    rewrite G1, G2, G3, G4, H1, H2, H3, H4.
    change (concat (b :: batches)) with (b ++ concat batches).
    rewrite length_app, !map_app.
    assert (Htotal : forall l1 l2, total (l1 ++ l2) = total l1 + total l2).
    { clear. intros l1 l2. induction l1 as [ | x l1 IHl]; simpl; [reflexivity | ].
      unfold total in *. simpl. rewrite IHl. lia. }
    rewrite Htotal. repeat split; try lia; [ | tauto].
    rewrite Hp, app_assoc, H5, <- !app_assoc. reflexivity.
Qed.

End Books.

(** *** What the sender counts *)

Section Sender.
Variable K : Constants.
Variable P : Params.
Hypothesis K_ok : constants_ok K.

Local Abbreviation private_isend := (private_isend K P).
Local Abbreviation sizeof_info :=
  ((HEADER_LEN K / sizeof_size_t K + 2) * sizeof_size_t K).

Lemma sends_app (t1 t2 : list event) : sends (t1 ++ t2) = sends t1 ++ sends t2.
Proof. unfold sends. apply omap_app. Qed.

Lemma total_app (l1 l2 : list Z) : total (l1 ++ l2) = total l1 + total l2.
Proof.
  unfold total. induction l1 as [ | x l1 IH]; simpl; [reflexivity | ].
  rewrite IH. lia.
Qed.

(** A control record longer than [max_msg_len_] would need a control
    record of its own, and so on: the call does not return. *)
Lemma control_record_too_long (fuel : nat) :
  max_msg_len_ P < sizeof_info ->
  forall words d func attr st,
    private_isend fuel words sizeof_info d func attr st = None.
Proof.
  clear K_ok. intros Hlong. apply Z.ltb_lt in Hlong.
  induction fuel as [ | fuel IH]; intros words d func attr st; [reflexivity | ].
  simpl. rewrite Hlong. rewrite IH. reflexivity.
Qed.

Lemma eager_books (fuel : nat) (words : list Z) (nbyte : Z) (d : ProcessID)
    (func : rmi_handlerT) (attr : Z) (st st' : RMI) :
  nbyte <= max_msg_len_ P ->
  private_isend fuel words nbyte d func attr st = Some (Ok st') ->
  sends (trace st') = sends (trace st) ++ [nbyte]
  /\ stats st' = mkStats (nmsg_sent (stats st) + 1) (nbyte_sent (stats st) + nbyte)
                         (nmsg_recv (stats st)) (nbyte_recv (stats st))
  /\ send_counters st' =
     (if is_ordered K attr
      then <[d := wrap16 (counter (send_counters st) d + 1)]> (send_counters st)
      else send_counters st).
Proof.
  clear K_ok. intros Hfit. destruct fuel as [ | fuel]; [discriminate | ]. simpl.
  assert (Hnothuge : (max_msg_len_ P <? nbyte) = false) by (apply Z.ltb_ge; lia).
  rewrite Hnothuge. destruct (nbyte <? HEADER_LEN K); [discriminate | ].
  intros [= <-].
  destruct (is_ordered K attr); simpl; rewrite !sends_app; simpl;
    rewrite app_nil_r; repeat split; reflexivity.
Qed.

(** Every call of [isend] that returns has handed to the transport the
    payload, preceded for a huge message by one control record, and has
    counted in the statistics each of them with its length; it has
    advanced the send counter of the destination by one (modulo 2^16) for
    an ordered message, also for a huge one, whose control record is
    unordered, and has left every counter as it was for an unordered
    one. *)
Theorem sends_are_counted (fuel : nat) (words : list Z) (nbyte : Z)
    (d : ProcessID) (func : rmi_handlerT) (attr : Z) (st st' : RMI) :
  private_isend fuel words nbyte d func attr st = Some (Ok st') ->
  let control := if max_msg_len_ P <? nbyte then [sizeof_info] else [] in
  sends (trace st') = sends (trace st) ++ control ++ [nbyte]
  /\ nmsg_sent (stats st')
     = nmsg_sent (stats st) + Z.of_nat (length control) + 1
  /\ nbyte_sent (stats st') = nbyte_sent (stats st) + total control + nbyte
  /\ nmsg_recv (stats st') = nmsg_recv (stats st)
  /\ nbyte_recv (stats st') = nbyte_recv (stats st)
  /\ (books_balance st -> books_balance st')
  /\ send_counters st' =
     (if is_ordered K attr
      then <[d := wrap16 (counter (send_counters st) d + 1)]> (send_counters st)
      else send_counters st).
Proof.
  intros Hsend control.
  assert (Hmain :
    sends (trace st') = sends (trace st) ++ control ++ [nbyte]
    /\ stats st' = mkStats (nmsg_sent (stats st) + Z.of_nat (length control) + 1)
                           (nbyte_sent (stats st) + total control + nbyte)
                           (nmsg_recv (stats st)) (nbyte_recv (stats st))
    /\ send_counters st' =
       (if is_ordered K attr
        then <[d := wrap16 (counter (send_counters st) d + 1)]> (send_counters st)
        else send_counters st)).
  { subst control. destruct (max_msg_len_ P <? nbyte) eqn:Hhuge.
    - destruct fuel as [ | fuel]; [discriminate | ]. simpl in Hsend.
      rewrite Hhuge in Hsend.
      destruct (Z_lt_le_dec (max_msg_len_ P) sizeof_info) as [Hlong | Hfit].
      { rewrite (control_record_too_long fuel Hlong) in Hsend. discriminate. }
      destruct (private_isend fuel [rank P; nbyte] sizeof_info d huge_msg_handler_ptr
                  (ATTR_UNORDERED K) _) as [[st1 | m x] | ] eqn:Hctl;
        try discriminate.
      apply eager_books in Hctl as (Ht1 & Hs1 & Hc1); [ | exact Hfit].
      rewrite (RmiFacts.is_ordered_unordered K K_ok) in Hc1.
      simpl in Ht1, Hs1, Hc1. rewrite sends_app in Ht1. simpl in Ht1.
      rewrite app_nil_r in Ht1.
      injection Hsend as <-.
      destruct (is_ordered K attr); simpl; rewrite !sends_app, Ht1; simpl;
        rewrite ?app_nil_r, Hs1, ?Hc1; simpl; unfold total; simpl;
        rewrite <- !app_assoc; repeat split; f_equal; lia.
    - apply Z.ltb_ge in Hhuge.
      apply eager_books in Hsend as (Ht & Hs & Hc); [ | exact Hhuge].
      rewrite Ht, Hs, Hc. unfold total. simpl. repeat split. f_equal; lia. }
  destruct Hmain as (Ht & Hs & Hc). rewrite Hs. simpl.
  split; [exact Ht | ]. split; [reflexivity | ]. split; [reflexivity | ].
  split; [reflexivity | ]. split; [reflexivity | ]. split; [ | exact Hc].
  intros [Hn Hb]. unfold books_balance. rewrite Ht, Hs. simpl.
  rewrite !length_app, !total_app, Hn, Hb. simpl length.
  replace (total [nbyte]) with nbyte by (unfold total; simpl; lia).
  split; lia.
Qed.

End Sender.

(** *** The theorems above at concrete inputs *)

Lemma queue_has_room_for_every_buffer_witness :
  exists st' q',
    run ex_constants ex_server ex_memalign_ok sort_by_count ex_batches RMI_init
      = Ok (st', q').
Proof.
  refine (proj2 (queue_has_room_for_every_buffer ex_constants ex_server
                   ex_memalign_ok sort_by_count RmiFacts.sort_by_count_perm
                   eq_refl ltac:(simpl; lia) ex_batches RMI_init _)
                (fun _ _ => eq_refl)).
  simpl. unfold batch_fits. simpl.
  repeat split; repeat constructor; simpl; try lia;
    intros Hin; repeat (destruct Hin as [Hin | Hin]; try discriminate Hin);
    try contradiction.
Defined.

Lemma no_message_is_lost_witness :
  nmsg_recv (stats (fst ex_received)) = 3
  /\ nbyte_recv (stats (fst ex_received)) = 192
  /\ nmsg_sent (stats (fst ex_received)) = 0.
Proof.
  assert (Hrun : run_loop ex_constants ex_server ex_memalign_ok sort_by_count
                    ex_batches (RMI_init, [])
                  = Ok (fst ex_received, snd ex_received))
    by (vm_compute; reflexivity).
  pose proof (no_message_is_lost ex_constants ex_server ex_memalign_ok
                sort_by_count RmiFacts.sort_by_count_perm ex_batches
                RMI_init [] (fst ex_received) (snd ex_received) Hrun)
    as (_ & _ & Hn & Hb & Hs & _).
  split; [exact Hn | ]. split; [exact Hb | exact Hs].
Defined.

Lemma sends_are_counted_witness :
  exists st',
    private_isend ex_constants ex_params 2 [] 2000 1 (user_handler 0) 1 RMI_init
      = Some (Ok st')
    /\ nmsg_sent (stats st') = 2
    /\ length (sends (trace st')) = 2%nat.
Proof.
  destruct (private_isend ex_constants ex_params 2 [] 2000 1 (user_handler 0) 1
              RMI_init) as [[st' | m v] | ] eqn:Hsend;
    [ | vm_compute in Hsend; discriminate Hsend
      | vm_compute in Hsend; discriminate Hsend].
  exists st'. split; [reflexivity | ].
  pose proof (sends_are_counted ex_constants ex_params RmiFacts.ex_constants_ok
                2 [] 2000 1 (user_handler 0) 1 RMI_init st' Hsend)
    as (Hsends & Hn & _).
  split; [exact Hn | ]. rewrite Hsends. reflexivity.
Defined.

(** *** Huge messages *)

Section Huge.
Variable K : Constants.
Variable P : Params.
Variable memalign_ok : Z -> Z -> bool.
Variable sort : list qmsg -> list qmsg.

Local Abbreviation post_pending_huge_msg := (post_pending_huge_msg K P memalign_ok).
Local Abbreviation post_recv_buf := (post_recv_buf K P memalign_ok).
Local Abbreviation invoke := (invoke K P memalign_ok).
Local Abbreviation arrive := (arrive K P memalign_ok).
Local Abbreviation arrive_all := (arrive_all K P memalign_ok).
Local Abbreviation drain := (drain K P memalign_ok).
Local Abbreviation wakeup := (wakeup K P memalign_ok sort).
Local Abbreviation run_loop := (run_loop K P memalign_ok sort).

(** The requests for huge messages in the order in which they are served:
    those granted, then those waiting. *)
Local Abbreviation line st := (huge_granted (trace st) ++ hugeq st).

Local Abbreviation served st st' :=
  ((huge_in_step st -> huge_in_step st')
   /\ exists new, line st' = line st ++ new).

Lemma huge_buffer_app (tr e : list event) :
  forall busy, huge_buffer (tr ++ e) busy = huge_buffer tr busy ≫= huge_buffer e.
Proof.
  induction tr as [ | ev tr IH]; intros busy; simpl; [reflexivity | ].
  destruct ev as [ | t n s [ | | ] | | | | | | | ]; try apply IH.
  destruct busy; [reflexivity | apply IH].
Qed.

Lemma huge_granted_app (t1 t2 : list event) :
  huge_granted (t1 ++ t2) = huge_granted t1 ++ huge_granted t2.
Proof. unfold huge_granted. apply omap_app. Qed.

Lemma huge_acks_app (t1 t2 : list event) :
  huge_acks (t1 ++ t2) = huge_acks t1 ++ huge_acks t2.
Proof. unfold huge_acks. apply omap_app. Qed.

Lemma served_refl (st : RMI) : served st st.
Proof. split; [tauto | ]. exists []. rewrite app_nil_r. reflexivity. Qed.

Lemma served_trans (st1 st2 st3 : RMI) :
  served st1 st2 -> served st2 st3 -> served st1 st3.
Proof.
  intros [H12 [n12 L12]] [H23 [n23 L23]]. split; [tauto | ].
  exists (n12 ++ n23). rewrite L23, L12, <- !app_assoc. reflexivity.
Qed.

(** What does not touch the huge buffer, the queue of requests or the
    transport of huge messages. *)
Lemma served_same (st st' : RMI) (e : list event) :
  trace st' = trace st ++ e ->
  (forall busy, huge_buffer e busy = Some busy) ->
  huge_granted e = [] -> huge_acks e = [] ->
  hugeq st' = hugeq st -> huge_pending st' = huge_pending st ->
  served st st'.
Proof.
  intros Ht Hb Hg Ha Hq Hp. split.
  - unfold huge_in_step. rewrite Ht, huge_buffer_app, huge_granted_app, huge_acks_app.
    rewrite Hg, Ha, !app_nil_r, Hp. intros [Hbusy Hacks]. split; [ | exact Hacks].
    destruct (huge_buffer (trace st) false) as [busy | ]; [ | exact Hbusy].
    simpl. rewrite Hb. exact Hbusy.
  - exists []. rewrite Ht, huge_granted_app, Hg, Hq, !app_nil_r. reflexivity.
Qed.

Lemma post_pending_served (st st' : RMI) :
  post_pending_huge_msg st = Ok st' -> served st st'.
Proof.
  intros Hpost. unfold Rmi.post_pending_huge_msg in Hpost.
  destruct (huge_pending st) eqn:Hpending;
    [injection Hpost as <-; apply served_refl | ].
  destruct (hugeq st) as [ | [p nbyte] rest] eqn:Hq in Hpost;
    [injection Hpost as <-; apply served_refl | ].
  destruct (memalign_ok (ALIGNMENT K) nbyte); simpl in Hpost; [ | discriminate].
  injection Hpost as <-. split.
  - unfold huge_in_step. simpl.
    rewrite !huge_buffer_app, !huge_granted_app, !huge_acks_app. simpl.
    intros [Hbusy Hacks]. split.
    + destruct (huge_buffer (trace st) false) as [[ | ] | ]; simpl.
      * specialize (Hbusy eq_refl). congruence.
      * reflexivity.
      * exact Hbusy.
    + rewrite !app_nil_r, map_app, Hacks. reflexivity.
  - exists []. simpl. rewrite !huge_granted_app. simpl.
    rewrite Hq, !app_nil_r, <- app_assoc. reflexivity.
Qed.

Lemma post_recv_buf_served (j : Z) (st st' : RMI) :
  post_recv_buf j st = Ok st' -> served st st'.
Proof.
  unfold Rmi.post_recv_buf. destruct (j <? nrecv_ P).
  - intros [= <-].
    apply (served_same st _ [EvIrecv (recv_slot j) (max_msg_len_ P) MPI_ANY_SOURCE RMI_TAG]);
      reflexivity.
  - destruct (j =? nrecv_ P); [ | discriminate].
    intros Hpost. apply post_pending_served in Hpost.
    refine (served_trans _ _ _ _ Hpost). split.
    + unfold huge_in_step. simpl.
      rewrite huge_buffer_app, huge_granted_app, huge_acks_app. simpl.
      rewrite !app_nil_r. intros [Hbusy Hacks]. split; [ | exact Hacks].
      destruct (huge_buffer (trace st) false); simpl; [discriminate | exact Hbusy].
    + exists []. simpl. rewrite huge_granted_app. simpl.
      rewrite !app_nil_r. reflexivity.
Qed.

Lemma huge_msg_handler_served (buf : buffer) (st st' : RMI) :
  huge_msg_handler K P memalign_ok buf st = Ok st' ->
  (huge_in_step st -> huge_in_step st')
  /\ line st' = line st ++ [(nth 0 (b_words buf) 0, nth 1 (b_words buf) 0)].
Proof.
  unfold huge_msg_handler.
  set (x := (nth 0 (b_words buf) 0, nth 1 (b_words buf) 0)).
  set (st0 := set_hugeq (hugeq st ++ [x]) st).
  intros Hpost.
  assert (H0 : (huge_in_step st -> huge_in_step st0)
               /\ line st0 = line st ++ [x]).
  { split; [intros Hstep; exact Hstep | ]. simpl. rewrite app_assoc. reflexivity. }
  assert (Hline : line st' = line st0).
  { clear H0. revert Hpost. generalize st0. clear st0. intros st0 Hpost.
    unfold Rmi.post_pending_huge_msg in Hpost.
    destruct (huge_pending st0); [injection Hpost as <-; reflexivity | ].
    destruct (hugeq st0) as [ | [p nbyte] rest] eqn:Hq in Hpost;
      [injection Hpost as <-; reflexivity | ].
    destruct (memalign_ok (ALIGNMENT K) nbyte); simpl in Hpost; [ | discriminate].
    injection Hpost as <-. simpl. rewrite !huge_granted_app. simpl.
    rewrite Hq, !app_nil_r, <- app_assoc. reflexivity. }
  apply post_pending_served in Hpost as [Hstep _].
  destruct H0 as [Hstep0 Hline0].
  split; [intros H; apply Hstep, Hstep0, H | ].
  rewrite Hline, Hline0. reflexivity.
Qed.

Lemma invoke_served (m : qmsg) (st st' : RMI) :
  invoke m st = Ok st' -> served st st'.
Proof.
  unfold Rmi.invoke.
  assert (Hlog : served st (log [EvInvoke m] st))
    by (apply (served_same st _ [EvInvoke m]); reflexivity).
  destruct (func m).
  - intros Hh. apply huge_msg_handler_served in Hh as [Hstep Hline].
    refine (served_trans _ _ _ Hlog _). split; [exact Hstep | ].
    eexists. exact Hline.
  - intros [= <-]. exact Hlog.
Qed.

Lemma dispatch_served (m : qmsg) (st st' : RMI) :
  invoke m st ≫= post_recv_buf (i m) = Ok st' -> served st st'.
Proof.
  intros Hd. apply RmiFacts.bind_Ok in Hd as (st1 & Hinv & Hpost).
  apply invoke_served in Hinv. apply post_recv_buf_served in Hpost.
  exact (served_trans _ _ _ Hinv Hpost).
Qed.

Lemma arrive_served (a : arrival) (st : RMI) (q : list qmsg) (st' : RMI)
    (q' : list qmsg) :
  arrive a (st, q) = Ok (st', q') -> served st st'.
Proof.
  unfold Rmi.arrive.
  set (st0 := set_stats _ st).
  assert (H0 : served st st0)
    by (apply (served_same st _ []); try reflexivity; simpl; rewrite app_nil_r; reflexivity).
  destruct (negb (is_ordered K (attr (qmsg_of a))) || _).
  - intros Harr.
    apply RmiFacts.bind_Ok in Harr as (st1 & Hinv & Harr).
    apply RmiFacts.bind_Ok in Harr as (st2 & Hpost & Harr). injection Harr as <- <-.
    apply invoke_served in Hinv. apply post_recv_buf_served in Hpost.
    refine (served_trans _ _ _ H0 (served_trans _ _ _ _ (served_trans _ _ _ Hinv Hpost))).
    destruct (is_ordered K (attr (qmsg_of a))); [ | apply served_refl].
    apply (served_same _ _ []); try reflexivity. simpl. rewrite app_nil_r. reflexivity.
  - destruct (Z.of_nat (length q) >=? maxq_ P); [discriminate | ].
    intros [= <- <-]. exact H0.
Qed.

Lemma arrive_all_served (b : list arrival) :
  forall st q st' q', arrive_all b (st, q) = Ok (st', q') -> served st st'.
Proof.
  induction b as [ | a b IH]; intros st q st' q'.
  - intros [= <- <-]. apply served_refl.
  - change (arrive_all (a :: b) (st, q)) with (arrive a (st, q) ≫= arrive_all b).
    intros Hall. apply RmiFacts.bind_Ok in Hall as ([st1 q1] & Ha & Hall).
    apply arrive_served in Ha. apply IH in Hall.
    exact (served_trans _ _ _ Ha Hall).
Qed.

Lemma drain_served (q : list qmsg) :
  forall st left st' q', drain q st left = Ok (st', q') -> served st st'.
Proof.
  induction q as [ | m rest IH]; intros st left st' q'.
  - intros [= <- <-]. apply served_refl.
  - simpl. destruct (count m =? counter (recv_counters st) (src m)).
    + intros Hd.
      assert (Hd' : (invoke m (advance (src m) st) ≫= post_recv_buf (i m))
                    ≫= (fun st2 => drain rest st2 left) = Ok (st', q')).
      { destruct (invoke m (advance (src m) st)); [exact Hd | discriminate]. }
      apply RmiFacts.bind_Ok in Hd' as (st2 & Hdisp & Hrest).
      apply dispatch_served in Hdisp. apply IH in Hrest.
      refine (served_trans _ _ _ _ (served_trans _ _ _ Hdisp Hrest)).
      apply (served_same _ _ []); try reflexivity. simpl. rewrite app_nil_r. reflexivity.
    + apply IH.
Qed.

Lemma wakeup_served (b : list arrival) (st : RMI) (q : list qmsg) (st' : RMI)
    (q' : list qmsg) :
  wakeup b (st, q) = Ok (st', q') -> served st st'.
Proof.
  unfold Rmi.wakeup. intros Hw.
  apply RmiFacts.bind_Ok in Hw as ([st1 q1] & Hall & Hw).
  apply RmiFacts.bind_Ok in Hw as ([st2 q2] & Hdrain & Hw).
  apply RmiFacts.bind_Ok in Hw as (st3 & Hpost & Hw). injection Hw as <- <-.
  apply arrive_all_served in Hall. apply drain_served in Hdrain.
  apply post_pending_served in Hpost.
  refine (served_trans _ _ _ _
            (served_trans _ _ _ Hall (served_trans _ _ _ Hdrain Hpost))).
  apply (served_same _ _ []); try reflexivity. simpl. rewrite app_nil_r. reflexivity.
Qed.

(** Huge messages are received one at a time and first come, first served.
    While the server runs, a receive is posted on the huge buffer only when
    that buffer is free, each such receive comes with an acknowledgement to
    the sender it is posted for, and the requests are granted in the order
    in which their control records were handled: the receives posted
    followed by the requests still waiting form a sequence that only grows
    at its end, so that no request is dropped or overtaken. *)
Theorem huge_messages_first_come_first_served (batches : list (list arrival)) :
  forall st q st' q',
    huge_in_step st ->
    run_loop batches (st, q) = Ok (st', q') ->
    huge_in_step st'
    /\ exists new,
         huge_granted (trace st') ++ hugeq st'
         = (huge_granted (trace st) ++ hugeq st) ++ new.
Proof.
  assert (Hrun : forall st q st' q',
             run_loop batches (st, q) = Ok (st', q') -> served st st').
  { induction batches as [ | b rest IH]; intros st q st' q'.
    - intros [= <- <-]. apply served_refl.
    - change (run_loop (b :: rest) (st, q)) with (wakeup b (st, q) ≫= run_loop rest).
      intros Hrun. apply RmiFacts.bind_Ok in Hrun as ([st1 q1] & Hw & Hrun).
      apply wakeup_served in Hw. apply IH in Hrun.
      exact (served_trans _ _ _ Hw Hrun). }
  intros st q st' q' Hstep Hloop.
  destruct (Hrun st q st' q' Hloop) as [Hkeep Hline].
  split; [exact (Hkeep Hstep) | exact Hline].
Qed.

End Huge.

Lemma huge_messages_first_come_first_served_witness :
  let control := mkArrival 1 80 0 (mkBuffer huge_msg_handler_ptr 0 [1; 5000]) in
  exists st' q',
    run_loop ex_constants ex_server ex_memalign_ok sort_by_count [[control]]
             (RMI_init, []) = Ok (st', q')
    /\ huge_in_step st'
    /\ exists new, huge_granted (trace st') ++ hugeq st' = new.
Proof.
  intros control.
  destruct (run_loop ex_constants ex_server ex_memalign_ok sort_by_count
              [[control]] (RMI_init, [])) as [[st' q'] | m v] eqn:Hrun;
    [ | vm_compute in Hrun; discriminate Hrun].
  exists st', q'. split; [reflexivity | ].
  apply (huge_messages_first_come_first_served ex_constants ex_server
           ex_memalign_ok sort_by_count [[control]] RMI_init [] st' q');
    [ | exact Hrun].
  split; [simpl; discriminate | reflexivity].
Defined.

End RmiServerFacts.

(** ** The RMI constructor *)

Module RmiInitFacts.
Import Rmi RmiInit.

Lemma round_up_aligned (len alignment : Z) :
  0 < alignment ->
  let r := if negb (len mod alignment =? 0)
           then len + alignment - len mod alignment else len in
  (alignment | r) /\ len <= r < len + alignment.
Proof.
  intros Ha r. subst r.
  pose proof (Z.mod_pos_bound len alignment Ha) as Hb.
  destruct (len mod alignment =? 0) eqn:Hz; simpl.
  - apply Z.eqb_eq in Hz. split; [ | lia].
    apply Z.mod_divide; [lia | exact Hz].
  - apply Z.eqb_neq in Hz. split; [ | lia].
    exists (len / alignment + 1).
    pose proof (Z.div_mod len alignment ltac:(lia)) as Hdm. nia.
Qed.

Lemma allocate_posts (K : Constants) (memalign_ok : Z -> Z -> bool) (P : Params)
    (indices : list Z) :
  memalign_ok (ALIGNMENT K) (max_msg_len_ P) = true ->
  Forall (fun j => j < nrecv_ P) indices ->
  forall st, exists st',
    allocate K memalign_ok P indices st = Ok st'
    /\ trace st' = trace st ++
         flat_map (fun j => [EvMemalign (ALIGNMENT K) (max_msg_len_ P);
                             EvIrecv (recv_slot j) (max_msg_len_ P)
                                     MPI_ANY_SOURCE RMI_TAG]) indices
    /\ send_counters st' = send_counters st
    /\ recv_counters st' = recv_counters st
    /\ huge_pending st' = huge_pending st
    /\ hugeq st' = hugeq st.
Proof.
  intros Halloc. induction indices as [ | j rest IH]; intros Hrange st.
  - exists st. simpl. rewrite app_nil_r. repeat split.
  - apply Forall_cons_iff in Hrange as [Hj Hrange]. simpl. rewrite Halloc. simpl.
    unfold post_recv_buf. apply Z.ltb_lt in Hj. rewrite Hj. simpl.
    destruct (IH Hrange
                (log [EvIrecv (recv_slot j) (max_msg_len_ P) MPI_ANY_SOURCE RMI_TAG]
                   (log [EvMemalign (ALIGNMENT K) (max_msg_len_ P)] st)))
      as (st' & Hrun & Ht & Hrest).
    exists st'. split; [exact Hrun | ]. split; [ | exact Hrest].
    rewrite Ht. simpl. rewrite <- !app_assoc. reflexivity.
Qed.



End RmiInitFacts.
